(** * image_grid: grid overlays on raster images

    A shallow embedding of [image_grid.py] (the drawing functions
    [draw_grid], [draw_adaptive_grid], [draw_golden_ratio_grid],
    [draw_rule_of_thirds], [draw_center_lines] and [draw_guide_lines])
    and the properties of its line geometry, buffers and blending.

    Python integers are [Z]; Python floats are IEEE binary64 values
    ([PrimFloat.float]); a numpy [uint8] image of shape (rows, cols,
    channels) is a list of rows of pixels of channel values.  The numpy
    buffers live in a store and are named by their index, so that copies,
    in-place drawing and aliasing are explicit.  The two OpenCV calls the
    module makes ([cv2.line], [cv2.addWeighted]) and the C library's [pow]
    are interfaces: the rasteriser's footprint, the per-channel blending
    arithmetic and [pow] are class members, and every theorem holds for each
    of their implementations.

    The colour-order conversions of the module ([cv2_to_pil],
    [pil_to_cv2]) and, in the module [streamlit_app], the drawing
    functions and the position callbacks of [streamlit_app.py] are
    embedded as well; their properties come last. *)

From Stdlib Require Import ZArith Floats Uint63 SpecFloat.
From stdpp Require Import base list numbers.
From stdpp Require gmap strings.

Open Scope Z_scope.
Set Warnings "-inexact-float,-clear-no-such-hyp".

(** ** Python values and exceptions *)

Inductive exn : Type :=
  | ValueError
  | ZeroDivisionError
  | OverflowError
  | TypeError.

Inductive result (A : Type) : Type :=
  | Ok (a : A)
  | Raise (e : exn).
Arguments Ok {A} a.
Arguments Raise {A} e.

#[global] Instance result_ret : MRet result := @Ok.
#[global] Instance result_bind : MBind result := λ A B f r,
  match r with
  | Ok a => f a
  | Raise e => Raise e
  end.
#[global] Instance result_fmap : FMap result := λ A B f r,
  match r with
  | Ok a => Ok (f a)
  | Raise e => Raise e
  end.

Definition is_Ok {A} (r : result A) : Prop := ∃ a, r = Ok a.

(** [a // b] on integers: floor division, [ZeroDivisionError] on [b = 0]. *)
Definition floordiv (a b : Z) : result Z :=
  if b =? 0 then Raise ZeroDivisionError else Ok (a `div` b).

(** Number of items of [range(lo, hi, step)] for [step <> 0]. *)
Definition range_len (lo hi step : Z) : Z :=
  if 0 <? step then
    if lo <? hi then (hi - lo - 1) `div` step + 1 else 0
  else
    if hi <? lo then (lo - hi - 1) `div` (- step) + 1 else 0.

Definition range_items (lo hi step : Z) : list Z :=
  (λ i, lo + i * step) <$> seqZ 0 (range_len lo hi step).

(** [range(lo, hi, step)]: [ValueError] when [step] is zero. *)
Definition py_range (lo hi step : Z) : result (list Z) :=
  if step =? 0 then Raise ValueError else Ok (range_items lo hi step).

(** *** Floats *)

Definition is_inf (f : float) : bool :=
  match Prim2SF f with
  | S754_infinity _ => true
  | _ => false
  end.

(** [float(z)]: the nearest binary64 value, ties to even;
    [OverflowError] when [z] is too large. *)
Definition float_of_int (z : Z) : result float :=
  let f := SF2Prim (binary_normalize prec emax z 0 false) in
  if is_inf f then Raise OverflowError else Ok f.

(** [int(f)]: truncation toward zero; [ValueError] on NaN,
    [OverflowError] on an infinity. *)
Definition int_of_float (f : float) : result Z :=
  match Prim2SF f with
  | S754_nan => Raise ValueError
  | S754_infinity _ => Raise OverflowError
  | S754_zero _ => Ok 0
  | S754_finite s m e =>
      let a := if 0 <=? e then Z.pos m * 2 ^ e else Z.pos m `div` 2 ^ (- e) in
      Ok (if s then - a else a)
  end.

(** [a / b] on floats: [ZeroDivisionError] when [b] is zero. *)
Definition float_truediv (a b : float) : result float :=
  match Prim2SF b with
  | S754_zero _ => Raise ZeroDivisionError
  | _ => Ok (a / b)%float
  end.

Definition spec_of_int (z : Z) : spec_float :=
  match z with
  | 0 => S754_zero false
  | Z.pos p => S754_finite false p 0
  | Z.neg p => S754_finite true p 0
  end.

(** [a / b] on integers: the correctly rounded quotient;
    [ZeroDivisionError] when [b] is zero, [OverflowError] when the
    quotient does not fit a float. *)
Definition int_truediv (a b : Z) : result float :=
  if b =? 0 then Raise ZeroDivisionError
  else
    match SFdiv prec emax (spec_of_int a) (spec_of_int b) with
    | S754_infinity _ => Raise OverflowError
    | q => Ok (SF2Prim q)
    end.

(** The C library's [pow], which CPython calls for [x ** y]. *)
Class LibM := { pow : float → float → float }.

(** [x ** n] for a float [x] and an integer [n], on the path CPython takes
    for a finite [x > 1] and [n >= 1]: the exponent is converted to a
    float, [pow] is called, and an infinite result is turned into
    [OverflowError]. *)
Definition float_pow `{LibM} (x : float) (n : Z) : result float :=
  y ← float_of_int n;
  let r := pow x y in
  if is_inf r then Raise OverflowError else Ok r.

(** A number that is an [int] or a [float], as the accumulator of
    [draw_golden_ratio_grid] is. *)
Inductive number : Type :=
  | Int (z : Z)
  | Float (f : float).

(** [n + f] for a float [f]: an [int] is converted first. *)
Definition number_add_float (n : number) (f : float) : result float :=
  match n with
  | Int z => a ← float_of_int z; Ok (a + f)%float
  | Float a => Ok (a + f)%float
  end.

(** ** numpy buffers

    An image of shape (rows, cols, channels): a list of rows, each a list
    of pixels, each a list of channel values.  Coordinates are OpenCV's:
    a point is [(x, y)] with [x] the column and [y] the row. *)

Abbreviation pixel := (list Z) (only parsing).
Abbreviation ndarray := (list (list (list Z))) (only parsing).
Abbreviation color := (Z * Z * Z)%type (only parsing).
Abbreviation point := (Z * Z)%type (only parsing).

Definition rows (img : ndarray) : Z := Z.of_nat (length img).
Definition cols (img : ndarray) : Z :=
  match img with
  | [] => 0
  | r :: _ => Z.of_nat (length r)
  end.

(** [img] has shape (h, w, c). *)
Definition has_shape (h w c : nat) (img : ndarray) : Prop :=
  length img = h ∧
  Forall (λ r : list pixel, length r = w ∧ Forall (λ px : pixel, length px = c) r) img.

(** Every channel value of [img] is a [uint8]. *)
Definition is_uint8 (img : ndarray) : Prop :=
  Forall (Forall (Forall (λ v : Z, 0 ≤ v ≤ 255))) img.

(** Two buffers of one shape, both of [uint8] values. *)
Definition congruent (a b : ndarray) : Prop :=
  Forall2 (Forall2 (Forall2 (λ u v : Z, 0 ≤ u ≤ 255 ∧ 0 ≤ v ≤ 255))) a b.

(** The pixel at column [x], row [y]. *)
Definition pixel_at (img : ndarray) (x y : nat) : option pixel :=
  r ← img !! y; r !! x.

(** ** The OpenCV interface

    [line_covers h w p1 p2 thickness x y]: whether [cv2.line] from [p1] to
    [p2] with this thickness on an [h] by [w] buffer writes the pixel at
    column [x], row [y].  [blend_channel a alpha b beta gamma]: the channel
    value [cv2.addWeighted] stores for the source values [a] and [b]. *)
Class Cv2 := {
  line_covers : Z → Z → point → point → Z → Z → Z → bool;
  blend_channel : Z → float → Z → float → float → Z
}.

(** What the module relies on when [alpha] is 1 or 0:
    [a * 1 + b * 0 + 0] is stored as [a] and [a * 0 + b * 1 + 0] as [b]. *)
Class Cv2Blend `{Cv2} : Prop := {
  blend_first a b :
    0 ≤ a ≤ 255 → 0 ≤ b ≤ 255 → blend_channel a 1 b 0 0 = a;
  blend_second a b :
    0 ≤ a ≤ 255 → 0 ≤ b ≤ 255 → blend_channel a 0 b 1 0 = b
}.

Definition saturate_u8 (z : Z) : Z := Z.max 0 (Z.min 255 z).

(** The [k]-th component of the scalar a colour triple is converted to. *)
Definition color_channel (c : color) (k : nat) : Z :=
  match k with
  | O => c.1.1
  | S O => c.1.2
  | S (S O) => c.2
  | _ => 0
  end.

Definition paint_pixel (c : color) (px : pixel) : pixel :=
  imap (λ k _, saturate_u8 (color_channel c k)) px.

(** The buffer after [cv2.line(img, p1, p2, c, thickness)]. *)
Definition draw_line `{Cv2} (img : ndarray) (p1 p2 : point) (c : color)
    (thickness : Z) : ndarray :=
  imap (λ y r,
    imap (λ x px,
      if line_covers (rows img) (cols img) p1 p2 thickness
           (Z.of_nat x) (Z.of_nat y)
      then paint_pixel c px else px) r) img.

(** The buffer [cv2.addWeighted(a, alpha, b, beta, gamma)] returns, for
    two buffers of one shape. *)
Definition add_weighted `{Cv2} (a : ndarray) (alpha : float) (b : ndarray)
    (beta gamma : float) : ndarray :=
  zip_with (zip_with (zip_with
    (λ u v, blend_channel u alpha v beta gamma))) a b.

(** ** The store of buffers and the calls to [cv2.line] *)

Definition loc : Type := nat.

Record line_call : Type := LineCall {
  lc_buffer : loc;
  lc_p1 : point;
  lc_p2 : point;
  lc_color : color;
  lc_thickness : Z
}.

(** [heap]: the numpy buffers allocated so far; [calls]: the calls made to
    [cv2.line], oldest first. *)
Record world : Type := World {
  heap : list ndarray;
  calls : list line_call
}.

Definition M (A : Type) : Type := world → result A * world.

#[global] Instance M_ret : MRet M := λ A a w, (Ok a, w).
#[global] Instance M_bind : MBind M := λ A B f m w,
  match m w with
  | (Ok a, w') => f a w'
  | (Raise e, w') => (Raise e, w')
  end.

Definition lift {A} (r : result A) : M A := λ w, (r, w).

(** Reading a buffer; a name that is not an array is a [TypeError]. *)
Definition ndarray_get (a : loc) : M ndarray := λ w,
  match heap w !! a with
  | Some img => (Ok img, w)
  | None => (Raise TypeError, w)
  end.

(** [a.copy()]: a new buffer with the contents of [a]. *)
(** A new buffer: its name is the next free index. *)
Definition ndarray_new (img : ndarray) : M loc := λ w,
  (Ok (length (heap w)), World (heap w ++ [img]) (calls w)).

(** Writing a buffer in place. *)
Definition ndarray_set (a : loc) (img : ndarray) : M () := λ w,
  (Ok (), World (<[a := img]> (heap w)) (calls w)).

Definition record_call (c : line_call) : M () := λ w,
  (Ok (), World (heap w) (calls w ++ [c])).

Definition ndarray_copy (a : loc) : M loc :=
  img ← ndarray_get a; ndarray_new img.

(** [a.shape[:2]]: (height, width). *)
Definition ndarray_shape (a : loc) : M (Z * Z) :=
  img ← ndarray_get a; mret (rows img, cols img).

(** [cv2.line(a, p1, p2, c, thickness)]: draws into [a] in place. *)
Definition cv2_line `{Cv2} (a : loc) (p1 p2 : point) (c : color)
    (thickness : Z) : M () :=
  img ← ndarray_get a;
  _ ← ndarray_set a (draw_line img p1 p2 c thickness);
  record_call (LineCall a p1 p2 c thickness).

(** [cv2.addWeighted(a, alpha, b, beta, gamma)]: a new buffer. *)
Definition cv2_addWeighted `{Cv2} (a : loc) (alpha : float) (b : loc)
    (beta gamma : float) : M loc :=
  src1 ← ndarray_get a;
  src2 ← ndarray_get b;
  ndarray_new (add_weighted src1 alpha src2 beta gamma).

(** [for x in xs: body(x)]. *)
Fixpoint for_each {A} (xs : list A) (body : A → M ()) : M () :=
  match xs with
  | [] => mret ()
  | x :: xs' => _ ← body x; for_each xs' body
  end.

(** ** The drawing functions of [image_grid.py] *)

Section drawing.
Context `{Cv2, LibM}.

Definition draw_grid (image : loc) (grid_size_x grid_size_y : Z)
    (color : color) (thickness : Z) (alpha : float) (dashed : bool)
    (dash_length dash_gap offset_x offset_y : Z) : M loc :=
  img_with_grid ← ndarray_copy image;
  '(height, width) ← ndarray_shape image;
  overlay ← ndarray_copy image;
  xs ← lift (py_range offset_x width grid_size_x);
  _ ← for_each xs (λ x,
    if negb dashed then
      cv2_line overlay (x, 0) (x, height) color thickness
    else
      ys ← lift (py_range 0 height (dash_length + dash_gap));
      for_each ys (λ y,
        let y2 := Z.min (y + dash_length) height in
        cv2_line overlay (x, y) (x, y2) color thickness));
  ys ← lift (py_range offset_y height grid_size_y);
  _ ← for_each ys (λ y,
    if negb dashed then
      cv2_line overlay (0, y) (width, y) color thickness
    else
      xs ← lift (py_range 0 width (dash_length + dash_gap));
      for_each xs (λ x,
        let x2 := Z.min (x + dash_length) width in
        cv2_line overlay (x, y) (x2, y) color thickness));
  img_with_grid ← cv2_addWeighted overlay alpha image (1 - alpha) 0;
  mret img_with_grid.

Definition draw_adaptive_grid (image : loc) (num_cells_x num_cells_y : Z)
    (color : color) (thickness : Z) (alpha : float) (dashed : bool)
    (dash_length dash_gap offset_x offset_y : Z) : M loc :=
  '(height, width) ← ndarray_shape image;
  cell_width ← lift (floordiv width num_cells_x);
  cell_height ← lift (floordiv height num_cells_y);
  draw_grid image cell_width cell_height color thickness alpha dashed
    dash_length dash_gap offset_x offset_y.

Definition phi : float := 1.618033988749895.

(** The loop [for i in ...: pos += extent / (phi ** (i+1));
    positions.append(int(pos))]. *)
Fixpoint golden_loop (extent : Z) (is_ : list Z) (pos : number)
    (positions : list Z) : result (list Z) :=
  match is_ with
  | [] => Ok positions
  | i :: rest =>
      p ← float_pow phi (i + 1);
      e ← float_of_int extent;
      q ← float_truediv e p;
      pos' ← number_add_float pos q;
      x ← int_of_float pos';
      golden_loop extent rest (Float pos') (positions ++ [x])
  end.

Definition golden_positions (offset extent divisions : Z) : result (list Z) :=
  is_ ← py_range 0 divisions 1;
  golden_loop extent is_ (Int offset) [].

Definition draw_golden_ratio_grid (image : loc) (divisions : Z)
    (color : color) (thickness : Z) (alpha : float)
    (offset_x offset_y : Z) : M loc :=
  '(height, width) ← ndarray_shape image;
  overlay ← ndarray_copy image;
  positions_h ← lift (golden_positions offset_x width divisions);
  positions_v ← lift (golden_positions offset_y height divisions);
  _ ← for_each positions_h (λ x,
    cv2_line overlay (x, 0) (x, height) color thickness);
  _ ← for_each positions_v (λ y,
    cv2_line overlay (0, y) (width, y) color thickness);
  cv2_addWeighted overlay alpha image (1 - alpha) 0.

Definition draw_rule_of_thirds (image : loc) (color : color)
    (thickness : Z) (alpha : float) : M loc :=
  '(height, width) ← ndarray_shape image;
  overlay ← ndarray_copy image;
  h1 ← lift (floordiv height 3);
  h2 ← lift (floordiv (2 * height) 3);
  w1 ← lift (floordiv width 3);
  w2 ← lift (floordiv (2 * width) 3);
  _ ← cv2_line overlay (w1, 0) (w1, height) color thickness;
  _ ← cv2_line overlay (w2, 0) (w2, height) color thickness;
  _ ← cv2_line overlay (0, h1) (width, h1) color thickness;
  _ ← cv2_line overlay (0, h2) (width, h2) color thickness;
  cv2_addWeighted overlay alpha image (1 - alpha) 0.

Definition draw_center_lines (image : loc) (color : color)
    (thickness : Z) (alpha : float) : M loc :=
  '(height, width) ← ndarray_shape image;
  overlay ← ndarray_copy image;
  center_h ← lift (floordiv height 2);
  center_w ← lift (floordiv width 2);
  _ ← cv2_line overlay (center_w, 0) (center_w, height) color thickness;
  _ ← cv2_line overlay (0, center_h) (width, center_h) color thickness;
  cv2_addWeighted overlay alpha image (1 - alpha) 0.

(** [int(extent * percent / 100)]. *)
Definition guide_pixel (extent percent : Z) : result Z :=
  q ← int_truediv (extent * percent) 100; int_of_float q.

Definition draw_guide_lines (image : loc) (h_pos_percent v_pos_percent : Z)
    (color : color) (thickness : Z) : M loc :=
  '(height, width) ← ndarray_shape image;
  result ← ndarray_copy image;
  h_pixel ← lift (guide_pixel height h_pos_percent);
  v_pixel ← lift (guide_pixel width v_pos_percent);
  _ ← cv2_line result (0, h_pixel) (width, h_pixel) color thickness;
  _ ← cv2_line result (v_pixel, 0) (v_pixel, height) color thickness;
  mret result.
End drawing.

(** ** Line segments

    Every drawing function copies the image, issues a sequence of
    [cv2.line] calls on the copy, and (all but [draw_guide_lines]) blends
    the copy with the image.  The segments of that sequence are given here
    as lists; [draw_grid_run] and its siblings show that the functions
    issue exactly these calls, in this order. *)

Abbreviation segment := (point * point)%type (only parsing).

Definition draw_segments `{Cv2} (c : color) (thickness : Z) (img : ndarray)
    (segs : list segment) : ndarray :=
  foldl (λ im s, draw_line im s.1 s.2 c thickness) img segs.

Definition segment_calls (a : loc) (c : color) (thickness : Z)
    (segs : list segment) : list line_call :=
  (λ s, LineCall a s.1 s.2 c thickness) <$> segs.

(** [m] draws the segments [segs] into the buffer [a] and does nothing
    else. *)
Definition draws `{Cv2} (a : loc) (c : color) (thickness : Z) (m : M ())
    (segs : list segment) : Prop :=
  ∀ w img0, heap w !! a = Some img0 →
    m w = (Ok (), World (<[a := draw_segments c thickness img0 segs]> (heap w))
                        (calls w ++ segment_calls a c thickness segs)).

(** The dashes of a vertical line at [x] and of a horizontal line at [y]. *)
Definition vertical_dashes (height dash_length dash_gap x : Z) : list segment :=
  (λ y, ((x, y), (x, Z.min (y + dash_length) height)))
    <$> range_items 0 height (dash_length + dash_gap).

Definition horizontal_dashes (width dash_length dash_gap y : Z) : list segment :=
  (λ x, ((x, y), (Z.min (x + dash_length) width, y)))
    <$> range_items 0 width (dash_length + dash_gap).

Definition vertical_line (height dash_length dash_gap : Z) (dashed : bool)
    (x : Z) : list segment :=
  if negb dashed then [((x, 0), (x, height))]
  else vertical_dashes height dash_length dash_gap x.

Definition horizontal_line (width dash_length dash_gap : Z) (dashed : bool)
    (y : Z) : list segment :=
  if negb dashed then [((0, y), (width, y))]
  else horizontal_dashes width dash_length dash_gap y.

(** The segments of [draw_grid], vertical lines first. *)
Definition grid_vertical (height width grid_size_x : Z) (dashed : bool)
    (dash_length dash_gap offset_x : Z) : list segment :=
  range_items offset_x width grid_size_x
    ≫= vertical_line height dash_length dash_gap dashed.

Definition grid_horizontal (height width grid_size_y : Z) (dashed : bool)
    (dash_length dash_gap offset_y : Z) : list segment :=
  range_items offset_y height grid_size_y
    ≫= horizontal_line width dash_length dash_gap dashed.

Definition grid_segments (height width grid_size_x grid_size_y : Z)
    (dashed : bool) (dash_length dash_gap offset_x offset_y : Z) : list segment :=
  grid_vertical height width grid_size_x dashed dash_length dash_gap offset_x ++
  grid_horizontal height width grid_size_y dashed dash_length dash_gap offset_y.

(** One full-height vertical line per [x], one full-width horizontal line
    per [y]. *)
Definition cross_segments (height width : Z) (xs ys : list Z) : list segment :=
  ((λ x, ((x, 0), (x, height))) <$> xs) ++ ((λ y, ((0, y), (width, y))) <$> ys).

(** The calls a run added to the log: those of [w'] after the first
    [length (calls w)]. *)
Definition new_calls (w w' : world) : list line_call :=
  drop (length (calls w)) (calls w').

(** A call that draws along the column [x], or along the row [y]. *)
Definition on_vertical (x : Z) (c : line_call) : Prop :=
  (lc_p1 c).1 = x ∧ (lc_p2 c).1 = x.
Definition on_horizontal (y : Z) (c : line_call) : Prop :=
  (lc_p1 c).2 = y ∧ (lc_p2 c).2 = y.
Definition is_vertical (c : line_call) : Prop := on_vertical (lc_p1 c).1 c.
Definition is_horizontal (c : line_call) : Prop := on_horizontal (lc_p1 c).2 c.

#[global] Instance on_vertical_dec x c : Decision (on_vertical x c).
Proof. unfold on_vertical. apply _. Defined.
#[global] Instance on_horizontal_dec y c : Decision (on_horizontal y c).
Proof. unfold on_horizontal. apply _. Defined.
#[global] Instance is_vertical_dec c : Decision (is_vertical c).
Proof. unfold is_vertical. apply _. Defined.
#[global] Instance is_horizontal_dec c : Decision (is_horizontal c).
Proof. unfold is_horizontal. apply _. Defined.

(** The [x] of the vertical segments and the [y] of the horizontal ones
    among the calls. *)
Definition vertical_xs (cs : list line_call) : list Z :=
  (λ c, (lc_p1 c).1) <$> filter is_vertical cs.
Definition horizontal_ys (cs : list line_call) : list Z :=
  (λ c, (lc_p1 c).2) <$> filter is_horizontal cs.

(** Where the segments drawn along the column [x] start, and those along
    the row [y]. *)
Definition starts_on_vertical (cs : list line_call) (x : Z) : list Z :=
  (λ c, (lc_p1 c).2) <$> filter (on_vertical x) cs.
Definition starts_on_horizontal (cs : list line_call) (y : Z) : list Z :=
  (λ c, (lc_p1 c).1) <$> filter (on_horizontal y) cs.

(** The store after [image] (holding [img]) was copied, [spare] standing
    for the buffers allocated before the copy, and [segs] were drawn into
    the copy; and the store after the copy was then blended with [image]. *)
Definition drawn_world `{Cv2} (w : world) (img : ndarray) (spare : list ndarray)
    (c : color) (t : Z) (segs : list segment) : world :=
  let overlay := length (heap w ++ spare) in
  World (<[overlay := draw_segments c t img segs]> (heap w ++ spare ++ [img]))
        (calls w ++ segment_calls overlay c t segs).

Definition blended_world `{Cv2} (w : world) (img : ndarray) (spare : list ndarray)
    (c : color) (t : Z) (alpha : float) (segs : list segment) : world :=
  let overlay := draw_segments c t img segs in
  World (heap w ++ spare ++ [overlay; add_weighted overlay alpha img (1 - alpha) 0])
        (calls w ++ segment_calls (length (heap w ++ spare)) c t segs).

(** ** What a call returns

    [returns_buffer r P]: the outcome [r] of a call is a buffer name
    whose contents in the final store satisfy [P]. *)
Definition returns_buffer (r : result loc * world) (P : ndarray → Prop) : Prop :=
  ∃ l w' out, r = (Ok l, w') ∧ heap w' !! l = Some out ∧ P out.

(** The call returns a buffer that did not exist in [w], other than
    [image], and every buffer of [w] holds in the final store what it held
    in [w]. *)
Definition returns_new_buffer (w : world) (image : loc)
    (r : result loc * world) : Prop :=
  ∃ l w', r = (Ok l, w') ∧ l ≠ image ∧ (length (heap w) ≤ l)%nat ∧
    is_Some (heap w' !! l) ∧
    ∀ a, (a < length (heap w))%nat → heap w' !! a = heap w !! a.

(** Whatever the outcome of the call, every buffer of [w] holds in the
    final store what it held in [w], and a buffer that is returned did not
    exist in [w] and so is not [image]. *)
Definition preserves_store (w : world) (image : loc)
    (r : result loc * world) : Prop :=
  (∀ a, (a < length (heap w))%nat → heap r.2 !! a = heap w !! a) ∧
  (∀ l, r.1 = Ok l →
     l ≠ image ∧ (length (heap w) ≤ l)%nat ∧ is_Some (heap r.2 !! l)).

(** The call fails, and the store is as it was before the call: nothing
    was allocated or drawn. *)
Definition fails_before_allocating (w : world) (r : result loc * world) : Prop :=
  ∃ e, r = (Raise e, w).

(** [img] after the [cv2.line] calls [cs], in order. *)
Definition replay `{Cv2} (img : ndarray) (cs : list line_call) : ndarray :=
  foldl (λ im c, draw_line im (lc_p1 c) (lc_p2 c) (lc_color c) (lc_thickness c))
    img cs.

(** The call returns a buffer equal to the overlay buffer: the copy of
    [img], allocated just before the returned buffer, into which every
    [cv2.line] call of the run has drawn. *)
Definition returns_overlay `{Cv2} (w : world) (img : ndarray)
    (r : result loc * world) : Prop :=
  ∃ l w' overlay, r = (Ok l, w') ∧
    Forall (λ c, S (lc_buffer c) = l) (new_calls w w') ∧
    overlay = replay img (new_calls w w') ∧
    heap w' !! pred l = Some overlay ∧
    heap w' !! l = Some overlay.

(** ** The golden-ratio positions as the specification writes them

    The [i]-th position is the integer truncation of
    [offset + extent / phi^1 + ... + extent / phi^i], the sum taken from
    left to right in binary64 arithmetic, with Python's exceptions. *)
Fixpoint spec_golden_sum `{LibM} (offset extent : Z) (i : nat) : result float :=
  match i with
  | O => float_of_int offset
  | S j =>
      s ← spec_golden_sum offset extent j;
      p ← float_pow phi (Z.of_nat i);
      e ← float_of_int extent;
      q ← float_truediv e p;
      Ok (s + q)%float
  end.

Definition spec_golden_position `{LibM} (offset extent : Z) (i : nat) : result Z :=
  s ← spec_golden_sum offset extent i; int_of_float s.

(** The accumulator of [golden_loop] before the iteration [i = k] holds
    the [k]-th sum. *)
Definition holds_golden_sum `{LibM} (offset extent : Z) (pos : number)
    (k : nat) : Prop :=
  match pos with
  | Int z => k = O ∧ z = offset
  | Float f => spec_golden_sum offset extent k = Ok f
  end.

(** One iteration of [golden_loop] up to the new value of [pos]. *)
Definition golden_advance `{LibM} (extent i : Z) (pos : number) : result float :=
  p ← float_pow phi (i + 1);
  e ← float_of_int extent;
  q ← float_truediv e p;
  number_add_float pos q.

(** ** Reference implementations of the interfaces

    One implementation of each interface, on which the functions can be
    evaluated: a rasteriser for axis-parallel lines one pixel wide (both
    end points included, clipped to the buffer), the blending formula of
    the OpenCV documentation, [saturate(round(a*alpha + b*beta + gamma))],
    evaluated in binary64, and [pow] for natural exponents by repeated
    multiplication. *)

Definition hairline (h w : Z) (p1 p2 : point) (thickness x y : Z) : bool :=
  bool_decide (0 ≤ x < w ∧ 0 ≤ y < h) &&
  (bool_decide (p1.1 = p2.1 ∧ x = p1.1 ∧
                Z.min p1.2 p2.2 ≤ y ≤ Z.max p1.2 p2.2) ||
   bool_decide (p1.2 = p2.2 ∧ y = p1.2 ∧
                Z.min p1.1 p2.1 ≤ x ≤ Z.max p1.1 p2.1)).

(** The float of a [uint8] value. *)
Definition float_of_uint8 (z : Z) : float :=
  PrimFloat.of_uint63 (Uint63.of_Z z).

(** The nearest integer, ties to even. *)
Definition round_half_even (f : float) : Z :=
  match Prim2SF f with
  | S754_finite s m e =>
      let a :=
        if 0 <=? e then Z.shiftl (Z.pos m) e
        else
          let q := Z.shiftr (Z.pos m) (- e) in
          let r := Z.pos m - Z.shiftl q (- e) in
          let half := Z.shiftl 1 (- e - 1) in
          if r <? half then q
          else if half <? r then q + 1
          else if Z.even q then q else q + 1 in
      if s then - a else a
  | _ => 0
  end.

Definition is_positive_zero (f : float) : bool :=
  match Prim2SF f with
  | S754_zero false => true
  | _ => false
  end.

Definition blend_binary64 (a : Z) (alpha : float) (b : Z) (beta gamma : float) : Z :=
  saturate_u8
    (round_half_even
       (float_of_uint8 a * alpha + float_of_uint8 b * beta + gamma)).

Definition cv2_reference : Cv2 :=
  {| line_covers := hairline; blend_channel := blend_binary64 |}.

Definition pow_by_multiplication (x y : float) : float :=
  Z.iter (round_half_even y) (λ acc, (acc * x)%float) 1%float.

Definition libm_reference : LibM := {| pow := pow_by_multiplication |}.

(** An image of one colour, and a store that holds one such image. *)
Definition solid (h w : nat) (px : pixel) : ndarray :=
  replicate h (replicate w px).

Definition one_image (img : ndarray) : world := World [img] [].

(** ** The pixels of a blended overlay

    [covered_by cs h w x y]: one of the [cv2.line] calls [cs] writes the
    pixel at column [x], row [y] of an [h] by [w] buffer. *)
Definition covered_by `{Cv2} (cs : list line_call) (h w : Z) (x y : nat) : bool :=
  existsb (λ c, line_covers h w (lc_p1 c) (lc_p2 c) (lc_thickness c)
                  (Z.of_nat x) (Z.of_nat y)) cs.

(** A pixel of [cv2.addWeighted(overlay, alpha, image, 1 - alpha, 0)]. *)
Definition blend_pixel `{Cv2} (alpha : float) (ov px : pixel) : pixel :=
  zip_with (λ u v, blend_channel u alpha v (1 - alpha) 0) ov px.

(** The call returns a buffer with the pixels of [img], each blended
    with itself where no [cv2.line] call of the run covers it and with the
    line colour where one does. *)
Definition returns_blend `{Cv2} (w : world) (img : ndarray) (c : color)
    (alpha : float) (r : result loc * world) : Prop :=
  ∃ l w' out, r = (Ok l, w') ∧ heap w' !! l = Some out ∧
    ∀ x y, pixel_at out x y =
      (λ px, blend_pixel alpha
               (if covered_by (new_calls w w') (rows img) (cols img) x y
                then paint_pixel c px else px) px) <$> pixel_at img x y.

(** ** Colour order: [cv2_to_pil] and [pil_to_cv2]

    A numpy array of [uint8] values with two or three dimensions. *)
Inductive nparray : Type :=
  | Array2 (a : list (list Z))
  | Array3 (a : ndarray).

(** [a.shape[2]], read off the first pixel; an array without a pixel has
    no third dimension to read here and counts as empty. *)
Definition channels (img : ndarray) : Z :=
  match img with
  | (px :: _) :: _ => Z.of_nat (length px)
  | _ => 0
  end.

(** What [cv2.cvtColor] with the code [cv2.COLOR_BGR2RGB] does to a pixel:
    the first and the third channel change places, a fourth is dropped. *)
Definition swap_red_blue (px : pixel) : pixel :=
  match px with
  | b :: g :: r :: _ => [r; g; b]
  | _ => px
  end.

(** [cv2.cvtColor(a, cv2.COLOR_BGR2RGB)]: [None] stands for [cv2.error],
    raised for an empty array and for one that has not three or four
    channels.  [cv2.COLOR_RGB2BGR] is the same code. *)
Definition cv2_cvtColor_BGR2RGB (a : nparray) : option ndarray :=
  match a with
  | Array2 _ => None
  | Array3 img =>
      if bool_decide (channels img = 3 ∨ channels img = 4)
      then Some (map (map swap_red_blue) img) else None
  end.

Definition cv2_cvtColor_RGB2BGR : nparray → option ndarray := cv2_cvtColor_BGR2RGB.

(** A PIL image: its mode and the array [np.array] gives for it. *)
Inductive pil_mode : Type := L | LA | RGB | RGBA.

Record pil_image : Type := PilImage {
  im_mode : pil_mode;
  im_array : nparray
}.

(** [Image.fromarray(a)] for a [uint8] array: the mode follows the number
    of channels; [None] stands for the [TypeError] of other shapes. *)
Definition Image_fromarray (a : nparray) : option pil_image :=
  match a with
  | Array2 _ => Some (PilImage L a)
  | Array3 img =>
      match channels img with
      | 2 => Some (PilImage LA a)
      | 3 => Some (PilImage RGB a)
      | 4 => Some (PilImage RGBA a)
      | _ => None
      end
  end.

(** [np.array(pil_img)]. *)
Definition np_array (pil_img : pil_image) : nparray := im_array pil_img.

Definition cv2_to_pil (cv2_img : nparray) : option pil_image :=
  cv2_img_rgb ← cv2_cvtColor_BGR2RGB cv2_img;
  Image_fromarray (Array3 cv2_img_rgb).

Definition pil_to_cv2 (pil_img : pil_image) : option nparray :=
  let numpy_img := np_array pil_img in
  match numpy_img with
  | Array3 img =>
      if bool_decide (channels img = 3)
      then Array3 <$> cv2_cvtColor_RGB2BGR numpy_img
      else Some numpy_img
  | Array2 _ => Some numpy_img
  end.

(** ** The Streamlit app, [streamlit_app.py] *)

Module streamlit_app.
Import stdpp.strings stdpp.gmap.
Local Open Scope Z_scope.

(** [st.session_state]: the attributes set so far, here the integer
    ones.  Reading an attribute that was not set fails ([None] stands for
    the [AttributeError]). *)
Abbreviation session_state := (gmap string Z) (only parsing).

Definition St (A : Type) : Type := session_state → option (A * session_state).

Definition St_ret {A} (a : A) : St A := λ s, Some (a, s).
Definition St_bind {A B} (m : St A) (f : A → St B) : St B := λ s,
  match m s with
  | Some (a, s') => f a s'
  | None => None
  end.

Definition getattr (name : string) : St Z := λ s,
  match s !! name with
  | Some v => Some (v, s)
  | None => None
  end.

Definition setattr (name : string) (v : Z) : St () := λ s,
  Some ((), <[name := v]> s).

(** [if 'offset_x' not in st.session_state: st.session_state.offset_x = 0],
    and the same for [offset_y]. *)
Definition init_position : St () := λ s,
  let s1 := if bool_decide (is_Some (s !! "offset_x")) then s
            else <["offset_x" := 0]> s in
  let s2 := if bool_decide (is_Some (s1 !! "offset_y")) then s1
            else <["offset_y" := 0]> s1 in
  Some ((), s2).

(** The callbacks of the position buttons. *)
Definition move_left : St () :=
  St_bind (getattr "offset_x") (λ x, setattr "offset_x" (Z.max 0 (x - 5))).

Definition move_right : St () :=
  St_bind (getattr "offset_x") (λ x, setattr "offset_x" (Z.min 100 (x + 5))).

Definition move_up : St () :=
  St_bind (getattr "offset_y") (λ y, setattr "offset_y" (Z.max 0 (y - 5))).

Definition move_down : St () :=
  St_bind (getattr "offset_y") (λ y, setattr "offset_y" (Z.min 100 (y + 5))).

Definition reset_position : St () :=
  St_bind (setattr "offset_x" 0) (λ _, setattr "offset_y" 0).

(** The drawing functions the app defines for itself. *)
Section drawing.
Context `{Cv2, LibM}.

Definition draw_offset_grid (image : loc) (grid_size_x grid_size_y : Z)
    (offset_x offset_y : Z) (color : color) (thickness : Z) (alpha : float)
    (dashed : bool) (dash_length dash_gap : Z) : M loc :=
  img_with_grid ← ndarray_copy image;
  '(height, width) ← ndarray_shape image;
  overlay ← ndarray_copy image;
  xs ← lift (py_range offset_x width grid_size_x);
  _ ← for_each xs (λ x,
    if negb dashed then
      cv2_line overlay (x, 0) (x, height) color thickness
    else
      ys ← lift (py_range 0 height (dash_length + dash_gap));
      for_each ys (λ y,
        let y2 := Z.min (y + dash_length) height in
        cv2_line overlay (x, y) (x, y2) color thickness));
  ys ← lift (py_range offset_y height grid_size_y);
  _ ← for_each ys (λ y,
    if negb dashed then
      cv2_line overlay (0, y) (width, y) color thickness
    else
      xs ← lift (py_range 0 width (dash_length + dash_gap));
      for_each xs (λ x,
        let x2 := Z.min (x + dash_length) width in
        cv2_line overlay (x, y) (x2, y) color thickness));
  img_with_grid ← cv2_addWeighted overlay alpha image (1 - alpha) 0;
  mret img_with_grid.

Definition draw_rule_of_thirds (image : loc) (color : color)
    (thickness : Z) (alpha : float) : M loc :=
  '(height, width) ← ndarray_shape image;
  overlay ← ndarray_copy image;
  h1 ← lift (floordiv height 3);
  h2 ← lift (floordiv (2 * height) 3);
  w1 ← lift (floordiv width 3);
  w2 ← lift (floordiv (2 * width) 3);
  _ ← cv2_line overlay (w1, 0) (w1, height) color thickness;
  _ ← cv2_line overlay (w2, 0) (w2, height) color thickness;
  _ ← cv2_line overlay (0, h1) (width, h1) color thickness;
  _ ← cv2_line overlay (0, h2) (width, h2) color thickness;
  cv2_addWeighted overlay alpha image (1 - alpha) 0.

Definition draw_center_lines (image : loc) (color : color)
    (thickness : Z) (alpha : float) : M loc :=
  '(height, width) ← ndarray_shape image;
  overlay ← ndarray_copy image;
  center_h ← lift (floordiv height 2);
  center_w ← lift (floordiv width 2);
  _ ← cv2_line overlay (center_w, 0) (center_w, height) color thickness;
  _ ← cv2_line overlay (0, center_h) (width, center_h) color thickness;
  cv2_addWeighted overlay alpha image (1 - alpha) 0.

Definition draw_golden_ratio_grid (image : loc) (divisions : Z)
    (color : color) (thickness : Z) (alpha : float)
    (offset_x offset_y : Z) : M loc :=
  '(height, width) ← ndarray_shape image;
  overlay ← ndarray_copy image;
  positions_h ← lift (golden_positions offset_x width divisions);
  positions_v ← lift (golden_positions offset_y height divisions);
  _ ← for_each positions_h (λ x,
    cv2_line overlay (x, 0) (x, height) color thickness);
  _ ← for_each positions_v (λ y,
    cv2_line overlay (0, y) (width, y) color thickness);
  cv2_addWeighted overlay alpha image (1 - alpha) 0.

Definition draw_guide_lines (image : loc) (h_pos_percent v_pos_percent : Z)
    (color : color) (thickness : Z) : M loc :=
  '(height, width) ← ndarray_shape image;
  result ← ndarray_copy image;
  h_pixel ← lift (guide_pixel height h_pos_percent);
  v_pixel ← lift (guide_pixel width v_pos_percent);
  _ ← cv2_line result (0, h_pixel) (width, h_pixel) color thickness;
  _ ← cv2_line result (v_pixel, 0) (v_pixel, height) color thickness;
  mret result.
End drawing.

Definition cv2_to_pil (cv2_img : nparray) : option pil_image :=
  cv2_img_rgb ← cv2_cvtColor_BGR2RGB cv2_img;
  Image_fromarray (Array3 cv2_img_rgb).

(** The app's [pil_to_cv2] is [np.array] alone. *)
Definition pil_to_cv2 (pil_img : pil_image) : option nparray :=
  Some (np_array pil_img).

End streamlit_app.

(** ** Running the store monad *)

Lemma bind_run {A B} (m : M A) (f : A → M B) w a w' :
  m w = (Ok a, w') → (m ≫= f) w = f a w'.
Proof. intros E. unfold mbind, M_bind. by rewrite E. Qed.

Lemma bind_raise {A B} (m : M A) (f : A → M B) w e w' :
  m w = (Raise e, w') → (m ≫= f) w = (Raise e, w').
Proof. intros E. unfold mbind, M_bind. by rewrite E. Qed.

Lemma ndarray_get_run a w img :
  heap w !! a = Some img → ndarray_get a w = (Ok img, w).
Proof. intros E. unfold ndarray_get. by rewrite E. Qed.

Lemma ndarray_copy_run a w img :
  heap w !! a = Some img →
  ndarray_copy a w = (Ok (length (heap w)), World (heap w ++ [img]) (calls w)).
Proof.
  intros E. unfold ndarray_copy.
  by rewrite (bind_run _ _ _ _ _ (ndarray_get_run _ _ _ E)).
Qed.

Lemma ndarray_shape_run a w img :
  heap w !! a = Some img → ndarray_shape a w = (Ok (rows img, cols img), w).
Proof.
  intros E. unfold ndarray_shape.
  by rewrite (bind_run _ _ _ _ _ (ndarray_get_run _ _ _ E)).
Qed.

Lemma cv2_addWeighted_run `{Cv2} a b alpha beta gamma w src1 src2 :
  heap w !! a = Some src1 → heap w !! b = Some src2 →
  cv2_addWeighted a alpha b beta gamma w =
    (Ok (length (heap w)),
     World (heap w ++ [add_weighted src1 alpha src2 beta gamma]) (calls w)).
Proof.
  intros Ea Eb. unfold cv2_addWeighted.
  rewrite (bind_run _ _ _ _ _ (ndarray_get_run _ _ _ Ea)).
  by rewrite (bind_run _ _ _ _ _ (ndarray_get_run _ _ _ Eb)).
Qed.

Lemma lift_run {A} (r : result A) v w : r = Ok v → lift r w = (Ok v, w).
Proof. by intros ->. Qed.

Lemma lift_raise {A} (r : result A) e w : r = Raise e → lift r w = (Raise e, w).
Proof. by intros ->. Qed.

(** ** Sequences of [cv2.line] calls *)

Lemma draw_segments_app `{Cv2} c t img s1 s2 :
  draw_segments c t img (s1 ++ s2) =
  draw_segments c t (draw_segments c t img s1) s2.
Proof. apply foldl_app. Qed.

Lemma segment_calls_app a c t s1 s2 :
  segment_calls a c t (s1 ++ s2) =
  segment_calls a c t s1 ++ segment_calls a c t s2.
Proof. apply fmap_app. Qed.

Section draws.
Context `{Cv2}.
Variables (a : loc) (c : color) (thickness : Z).

Lemma draws_line p1 p2 :
  draws a c thickness (cv2_line a p1 p2 c thickness) [(p1, p2)].
Proof.
  intros w img0 E. unfold cv2_line.
  by rewrite (bind_run _ _ _ _ _ (ndarray_get_run _ _ _ E)).
Qed.

Lemma draws_nil : draws a c thickness (mret ()) [].
Proof.
  intros [h cs] img0 E. unfold mret, M_ret, segment_calls. simpl in *.
  by rewrite list_insert_id, app_nil_r.
Qed.

Lemma draws_seq m1 m2 s1 s2 :
  draws a c thickness m1 s1 → draws a c thickness m2 s2 →
  draws a c thickness (_ ← m1; m2) (s1 ++ s2).
Proof.
  intros H1 H2 w img0 E.
  rewrite (bind_run _ _ _ _ _ (H1 _ _ E)).
  erewrite H2; last first.
  { simpl. apply list_lookup_insert_eq. by eapply lookup_lt_Some. }
  simpl.
  by rewrite list_insert_insert_eq, draw_segments_app, segment_calls_app, app_assoc.
Qed.

Lemma draws_for_each {A} (xs : list A) (body : A → M ()) (f : A → list segment) :
  (∀ x, x ∈ xs → draws a c thickness (body x) (f x)) →
  draws a c thickness (for_each xs body) (xs ≫= f).
Proof.
  induction xs as [|x xs IH]; intros Hb; csimpl.
  - apply draws_nil.
  - apply draws_seq.
    + apply Hb. left.
    + apply IH. intros y Hy. apply Hb. by right.
Qed.

Lemma draws_lift {A} (r : result A) (v : A) (k : A → M ()) segs :
  r = Ok v → draws a c thickness (k v) segs →
  draws a c thickness (x ← lift r; k x) segs.
Proof.
  intros -> Hk w img0 E.
  assert (lift (Ok v) w = (Ok v, w)) as Hl by done.
  rewrite (bind_run _ _ _ _ _ Hl). by apply Hk.
Qed.
End draws.

(** ** Properties of [range] *)

Lemma range_len_nonneg lo hi step : 0 ≤ range_len lo hi step.
Proof.
  unfold range_len.
  destruct (0 <? step) eqn:Hs.
  - apply Z.ltb_lt in Hs. destruct (lo <? hi) eqn:Hl; [|lia].
    apply Z.ltb_lt in Hl.
    assert (0 ≤ (hi - lo - 1) `div` step) by (apply Z.div_pos; lia). lia.
  - destruct (hi <? lo) eqn:Hl; [|lia].
    apply Z.ltb_lt in Hl. apply Z.ltb_ge in Hs.
    destruct (Z.eq_dec step 0) as [->|Hne].
    + simpl. rewrite Z.div_0_r. lia.
    + assert (0 ≤ (lo - hi - 1) `div` (- step)) by (apply Z.div_pos; lia). lia.
Qed.

Lemma range_index_lt lo hi step k :
  0 < step → 0 ≤ k → (k < range_len lo hi step ↔ lo + k * step < hi).
Proof.
  intros Hs Hk. unfold range_len.
  destruct (0 <? step) eqn:E; [|apply Z.ltb_ge in E; lia].
  destruct (lo <? hi) eqn:Hl.
  - apply Z.ltb_lt in Hl.
    pose proof (Z.div_mod (hi - lo - 1) step ltac:(lia)) as Hd.
    pose proof (Z.mod_pos_bound (hi - lo - 1) step Hs) as Hm.
    split; intros Hlt; nia.
  - apply Z.ltb_ge in Hl. split; intros Hlt; nia.
Qed.

(** The items of a range with a positive step: the values
    [lo + k * step], [k >= 0], below [hi]. *)
Lemma elem_of_range_items lo hi step x :
  0 < step →
  x ∈ range_items lo hi step ↔ ∃ k, 0 ≤ k ∧ x = lo + k * step ∧ x < hi.
Proof.
  intros Hs. unfold range_items. rewrite list_elem_of_fmap. split.
  - intros (k & -> & Hk). apply elem_of_seqZ in Hk. exists k.
    split; [lia|]. split; [done|]. apply range_index_lt; lia.
  - intros (k & Hk & -> & Hlt). exists k. split; [done|].
    apply elem_of_seqZ. split; [done|]. simpl. apply range_index_lt; lia.
Qed.

Lemma range_items_lt lo hi step x :
  0 < step → x ∈ range_items lo hi step → lo ≤ x < hi.
Proof.
  intros Hs Hx. apply elem_of_range_items in Hx as (k & Hk & -> & Hlt); [|done].
  nia.
Qed.

Lemma range_items_empty lo hi step :
  0 < step → hi ≤ lo → range_items lo hi step = [].
Proof.
  intros Hs Hle. unfold range_items, range_len.
  destruct (0 <? step) eqn:E; [|apply Z.ltb_ge in E; lia].
  destruct (lo <? hi) eqn:Hl; [apply Z.ltb_lt in Hl; lia|]. done.
Qed.

Lemma range_items_neg_step lo hi step :
  step < 0 → lo ≤ hi → range_items lo hi step = [].
Proof.
  intros Hs Hle. unfold range_items, range_len.
  destruct (0 <? step) eqn:E; [apply Z.ltb_lt in E; lia|].
  destruct (hi <? lo) eqn:Hl; [apply Z.ltb_lt in Hl; lia|]. done.
Qed.

(** ** What each function does to the store *)

Lemma py_range_ok lo hi step :
  step ≠ 0 → py_range lo hi step = Ok (range_items lo hi step).
Proof. intros Hs. unfold py_range. by apply Z.eqb_neq in Hs as ->. Qed.

Lemma floordiv_ok a b : b ≠ 0 → floordiv a b = Ok (a `div` b).
Proof. intros Hb. unfold floordiv. by apply Z.eqb_neq in Hb as ->. Qed.

Lemma py_range_zero lo hi : py_range lo hi 0 = Raise ValueError.
Proof. done. Qed.

Lemma bind_singletons {A B} (f : A → B) (xs : list A) :
  xs ≫= (λ x, [f x]) = f <$> xs.
Proof. induction xs as [|x xs IH]; csimpl; [done|by rewrite IH]. Qed.

Section runs.
Context `{Cv2, LibM}.

Lemma draws_vertical_loop a c t height width gx dashed dl dg ox :
  (dashed = true → dl + dg ≠ 0) →
  draws a c t
    (for_each (range_items ox width gx) (λ x,
       if negb dashed then cv2_line a (x, 0) (x, height) c t
       else
         ys ← lift (py_range 0 height (dl + dg));
         for_each ys (λ y,
           let y2 := Z.min (y + dl) height in
           cv2_line a (x, y) (x, y2) c t)))
    (grid_vertical height width gx dashed dl dg ox).
Proof.
  intros Hp. apply draws_for_each. intros x _. unfold vertical_line.
  destruct dashed; simpl.
  - eapply draws_lift; [apply py_range_ok; by apply Hp|].
    unfold vertical_dashes.
    rewrite <- (bind_singletons (λ y, ((x, y), (x, Z.min (y + dl) height)))).
    apply draws_for_each. intros y _. apply draws_line.
  - apply draws_line.
Qed.

Lemma draws_horizontal_loop a c t height width gy dashed dl dg oy :
  (dashed = true → dl + dg ≠ 0) →
  draws a c t
    (for_each (range_items oy height gy) (λ y,
       if negb dashed then cv2_line a (0, y) (width, y) c t
       else
         xs ← lift (py_range 0 width (dl + dg));
         for_each xs (λ x,
           let x2 := Z.min (x + dl) width in
           cv2_line a (x, y) (x2, y) c t)))
    (grid_horizontal height width gy dashed dl dg oy).
Proof.
  intros Hp. apply draws_for_each. intros y _. unfold horizontal_line.
  destruct dashed; simpl.
  - eapply draws_lift; [apply py_range_ok; by apply Hp|].
    unfold horizontal_dashes.
    rewrite <- (bind_singletons (λ x, ((x, y), (Z.min (x + dl) width, y)))).
    apply draws_for_each. intros x _. apply draws_line.
  - apply draws_line.
Qed.

Lemma draws_verticals a c t height xs :
  draws a c t (for_each xs (λ x, cv2_line a (x, 0) (x, height) c t))
    ((λ x, ((x, 0), (x, height))) <$> xs).
Proof.
  rewrite <- (bind_singletons (λ x, ((x, 0), (x, height)))).
  apply draws_for_each. intros x _. apply draws_line.
Qed.

Lemma draws_horizontals a c t width ys :
  draws a c t (for_each ys (λ y, cv2_line a (0, y) (width, y) c t))
    ((λ y, ((0, y), (width, y))) <$> ys).
Proof.
  rewrite <- (bind_singletons (λ y, ((0, y), (width, y)))).
  apply draws_for_each. intros y _. apply draws_line.
Qed.

(** *** Stepping through a function body *)

Lemma lift_step {A B} (r : result A) (v : A) (k : A → M B) w :
  r = Ok v → (x ← lift r; k x) w = k v w.
Proof. intros E. by rewrite (bind_run _ _ _ _ _ (lift_run _ _ w E)). Qed.

Lemma copy_step {B} w image img spare (k : loc → M B) :
  heap w !! image = Some img →
  (x ← ndarray_copy image; k x) (World (heap w ++ spare) (calls w)) =
  k (length (heap w ++ spare)) (World (heap w ++ spare ++ [img]) (calls w)).
Proof.
  intros E. erewrite bind_run; last first.
  { apply ndarray_copy_run. simpl. rewrite lookup_app_l; [done|].
    by eapply lookup_lt_Some. }
  simpl. by rewrite <- app_assoc.
Qed.

Lemma shape_step {B} w image img spare (k : Z * Z → M B) :
  heap w !! image = Some img →
  (x ← ndarray_shape image; k x) (World (heap w ++ spare) (calls w)) =
  k (rows img, cols img) (World (heap w ++ spare) (calls w)).
Proof.
  intros E. erewrite bind_run; [done|].
  apply ndarray_shape_run. simpl. rewrite lookup_app_l; [done|].
  by eapply lookup_lt_Some.
Qed.

Lemma world_spare_nil w : w = World (heap w ++ []) (calls w).
Proof. destruct w. simpl. by rewrite app_nil_r. Qed.

Lemma drawn_world_nil w img spare c t :
  World (heap w ++ spare ++ [img]) (calls w) = drawn_world w img spare c t [].
Proof.
  unfold drawn_world. simpl. rewrite app_nil_r. f_equal.
  symmetry. apply list_insert_id.
  rewrite !app_assoc, lookup_app_r; [|done]. by rewrite Nat.sub_diag.
Qed.

Lemma draw_step {B} w img spare c t segs m s (k : M B) :
  draws (length (heap w ++ spare)) c t m s →
  (_ ← m; k) (drawn_world w img spare c t segs) =
  k (drawn_world w img spare c t (segs ++ s)).
Proof.
  intros Hm. erewrite bind_run; last first.
  { apply Hm. unfold drawn_world. simpl. apply list_lookup_insert_eq.
    rewrite !length_app. simpl. lia. }
  unfold drawn_world. simpl.
  by rewrite list_insert_insert_eq, draw_segments_app, segment_calls_app,
    (app_assoc (calls w)).
Qed.

Lemma blend_step w image img spare c t alpha segs :
  heap w !! image = Some img →
  cv2_addWeighted (length (heap w ++ spare)) alpha image (1 - alpha) 0
    (drawn_world w img spare c t segs) =
  (Ok (S (length (heap w ++ spare))),
   blended_world w img spare c t alpha segs).
Proof.
  intros E. unfold drawn_world.
  assert (<[length (heap w ++ spare) := draw_segments c t img segs]>
            (heap w ++ spare ++ [img]) =
          heap w ++ spare ++ [draw_segments c t img segs]) as ->.
  { rewrite !app_assoc.
    rewrite <- (Nat.add_0_r (length (heap w ++ spare))).
    by rewrite insert_app_r. }
  erewrite cv2_addWeighted_run.
  - unfold blended_world. simpl. f_equal.
    + f_equal. rewrite !length_app. simpl. lia.
    + f_equal. by rewrite <- !app_assoc.
  - simpl. rewrite app_assoc, lookup_app_r; [|done].
    by rewrite Nat.sub_diag.
  - simpl. rewrite lookup_app_l; [done|by eapply lookup_lt_Some].
Qed.

(** *** The six functions *)

Lemma draw_grid_run w image img gx gy c t alpha dashed dl dg ox oy :
  heap w !! image = Some img →
  gx ≠ 0 → gy ≠ 0 → (dashed = true → dl + dg ≠ 0) →
  draw_grid image gx gy c t alpha dashed dl dg ox oy w =
    (Ok (S (length (heap w ++ [img]))),
     blended_world w img [img] c t alpha
       (grid_segments (rows img) (cols img) gx gy dashed dl dg ox oy)).
Proof.
  intros E Hx Hy Hp. unfold draw_grid.
  rewrite (world_spare_nil w) at 1.
  rewrite (copy_step _ _ _ _ _ E). simpl.
  rewrite (shape_step _ _ _ _ _ E).
  rewrite (copy_step _ _ _ _ _ E).
  rewrite (drawn_world_nil _ _ _ c t).
  rewrite (lift_step _ _ _ _ (py_range_ok _ _ _ Hx)).
  rewrite (draw_step _ _ _ _ _ _ _ _ _ (draws_vertical_loop _ c t _ _ _ _ _ _ _ Hp)).
  rewrite (lift_step _ _ _ _ (py_range_ok _ _ _ Hy)).
  rewrite (draw_step _ _ _ _ _ _ _ _ _ (draws_horizontal_loop _ c t _ _ _ _ _ _ _ Hp)).
  by rewrite (bind_run _ _ _ _ _ (blend_step _ _ _ _ c t alpha _ E)).
Qed.

Lemma draw_adaptive_grid_run w image img nx ny c t alpha dashed dl dg ox oy :
  heap w !! image = Some img → nx ≠ 0 → ny ≠ 0 →
  draw_adaptive_grid image nx ny c t alpha dashed dl dg ox oy w =
  draw_grid image (cols img `div` nx) (rows img `div` ny) c t alpha dashed
    dl dg ox oy w.
Proof.
  intros E Hx Hy. unfold draw_adaptive_grid.
  rewrite (bind_run _ _ _ _ _ (ndarray_shape_run _ _ _ E)).
  by rewrite (lift_step _ _ _ _ (floordiv_ok _ _ Hx)),
    (lift_step _ _ _ _ (floordiv_ok _ _ Hy)).
Qed.

Lemma draw_adaptive_grid_zero_x w image img ny c t alpha dashed dl dg ox oy :
  heap w !! image = Some img →
  draw_adaptive_grid image 0 ny c t alpha dashed dl dg ox oy w =
  (Raise ZeroDivisionError, w).
Proof.
  intros E. unfold draw_adaptive_grid.
  by rewrite (bind_run _ _ _ _ _ (ndarray_shape_run _ _ _ E)).
Qed.

Lemma draw_adaptive_grid_zero_y w image img nx c t alpha dashed dl dg ox oy :
  heap w !! image = Some img →
  draw_adaptive_grid image nx 0 c t alpha dashed dl dg ox oy w =
  (Raise ZeroDivisionError, w).
Proof.
  intros E. unfold draw_adaptive_grid.
  rewrite (bind_run _ _ _ _ _ (ndarray_shape_run _ _ _ E)).
  unfold floordiv. by destruct (nx =? 0).
Qed.

Lemma draw_golden_ratio_grid_run w image img d c t alpha ox oy xs ys :
  heap w !! image = Some img →
  golden_positions ox (cols img) d = Ok xs →
  golden_positions oy (rows img) d = Ok ys →
  draw_golden_ratio_grid image d c t alpha ox oy w =
    (Ok (S (length (heap w ++ []))),
     blended_world w img [] c t alpha
       (cross_segments (rows img) (cols img) xs ys)).
Proof.
  intros E Hxs Hys. unfold draw_golden_ratio_grid.
  rewrite (world_spare_nil w) at 1.
  rewrite (shape_step _ _ _ _ _ E).
  rewrite (copy_step _ _ _ _ _ E).
  rewrite (drawn_world_nil _ _ _ c t).
  rewrite (lift_step _ _ _ _ Hxs), (lift_step _ _ _ _ Hys).
  rewrite (draw_step _ _ _ _ _ _ _ _ _ (draws_verticals _ c t _ _)).
  rewrite (draw_step _ _ _ _ _ _ _ _ _ (draws_horizontals _ c t _ _)).
  by rewrite (blend_step _ _ _ _ c t alpha _ E).
Qed.

Lemma draw_rule_of_thirds_run w image img c t alpha :
  heap w !! image = Some img →
  draw_rule_of_thirds image c t alpha w =
    (Ok (S (length (heap w ++ []))),
     blended_world w img [] c t alpha
       (cross_segments (rows img) (cols img)
          [cols img `div` 3; (2 * cols img) `div` 3]
          [rows img `div` 3; (2 * rows img) `div` 3])).
Proof.
  intros E. unfold draw_rule_of_thirds.
  rewrite (world_spare_nil w) at 1.
  rewrite (shape_step _ _ _ _ _ E).
  rewrite (copy_step _ _ _ _ _ E).
  rewrite (drawn_world_nil _ _ _ c t).
  rewrite !(lift_step _ _ _ _ (floordiv_ok _ 3 ltac:(done))).
  rewrite !(draw_step _ _ _ _ _ _ _ _ _ (draws_line _ c t _ _)).
  by rewrite (blend_step _ _ _ _ c t alpha _ E).
Qed.

Lemma draw_center_lines_run w image img c t alpha :
  heap w !! image = Some img →
  draw_center_lines image c t alpha w =
    (Ok (S (length (heap w ++ []))),
     blended_world w img [] c t alpha
       (cross_segments (rows img) (cols img)
          [cols img `div` 2] [rows img `div` 2])).
Proof.
  intros E. unfold draw_center_lines.
  rewrite (world_spare_nil w) at 1.
  rewrite (shape_step _ _ _ _ _ E).
  rewrite (copy_step _ _ _ _ _ E).
  rewrite (drawn_world_nil _ _ _ c t).
  rewrite !(lift_step _ _ _ _ (floordiv_ok _ 2 ltac:(done))).
  rewrite !(draw_step _ _ _ _ _ _ _ _ _ (draws_line _ c t _ _)).
  by rewrite (blend_step _ _ _ _ c t alpha _ E).
Qed.

Lemma draw_guide_lines_run w image img hp vp c t h_pixel v_pixel :
  heap w !! image = Some img →
  guide_pixel (rows img) hp = Ok h_pixel →
  guide_pixel (cols img) vp = Ok v_pixel →
  draw_guide_lines image hp vp c t w =
    (Ok (length (heap w ++ [])),
     drawn_world w img [] c t
       [((0, h_pixel), (cols img, h_pixel));
        ((v_pixel, 0), (v_pixel, rows img))]).
Proof.
  intros E Hh Hv. unfold draw_guide_lines.
  rewrite (world_spare_nil w) at 1.
  rewrite (shape_step _ _ _ _ _ E).
  rewrite (copy_step _ _ _ _ _ E).
  rewrite (drawn_world_nil _ _ _ c t).
  rewrite (lift_step _ _ _ _ Hh), (lift_step _ _ _ _ Hv).
  by rewrite !(draw_step _ _ _ _ _ _ _ _ _ (draws_line _ c t _ _)).
Qed.
End runs.

(** ** Buffers: shape, value range and pixels *)

Lemma Forall_imap {A B} (P : A → Prop) (Q : B → Prop) (f : nat → A → B) l :
  (∀ i x, P x → Q (f i x)) → Forall P l → Forall Q (imap f l).
Proof.
  intros Hf Hl. revert f Hf.
  induction Hl as [|x l Hx Hl IH]; intros f Hf; simpl; constructor.
  - by apply Hf.
  - apply IH. intros i y. apply Hf.
Qed.

Lemma Forall2_imap_l {A B C} (P : A → C → Prop) (Q : B → C → Prop)
    (f : nat → A → B) l k :
  (∀ i x y, P x y → Q (f i x) y) → Forall2 P l k → Forall2 Q (imap f l) k.
Proof.
  intros Hf Hl. revert f Hf.
  induction Hl as [|x y l k Hx Hl IH]; intros f Hf; simpl; constructor.
  - by apply Hf.
  - apply IH. intros i u v. apply Hf.
Qed.

Lemma Forall_zip_with {A B C} (P : A → Prop) (Q : B → Prop) (R : C → Prop)
    (f : A → B → C) l k :
  (∀ x y, P x → Q y → R (f x y)) →
  Forall P l → Forall Q k → Forall R (zip_with f l k).
Proof.
  intros Hf Hl. revert k.
  induction Hl as [|x l Hx Hl IH]; intros k Hk; simpl; [constructor|].
  destruct Hk as [|y k Hy Hk]; constructor; [by apply Hf|by apply IH].
Qed.

Lemma zip_with_first {A B} (P : A → B → Prop) (f : A → B → A) l k :
  (∀ x y, P x y → f x y = x) → Forall2 P l k → zip_with f l k = l.
Proof.
  intros Hf Hl. induction Hl as [|x y l k Hx Hl IH]; simpl; [done|].
  by rewrite Hf, IH.
Qed.

Lemma zip_with_second {A B} (P : A → B → Prop) (f : A → B → B) l k :
  (∀ x y, P x y → f x y = y) → Forall2 P l k → zip_with f l k = k.
Proof.
  intros Hf Hl. induction Hl as [|x y l k Hx Hl IH]; simpl; [done|].
  by rewrite Hf, IH.
Qed.

Lemma saturate_u8_range z : 0 ≤ saturate_u8 z ≤ 255.
Proof. unfold saturate_u8. lia. Qed.

Lemma length_paint_pixel c px : length (paint_pixel c px) = length px.
Proof. apply length_imap. Qed.

Lemma paint_pixel_uint8 c px : Forall (λ v, 0 ≤ v ≤ 255) (paint_pixel c px).
Proof.
  unfold paint_pixel.
  apply (Forall_imap (λ _, True)); [intros; apply saturate_u8_range|].
  by apply Forall_true.
Qed.

Section buffers.
Context `{Cv2}.

Lemma draw_line_shape h w c img p1 p2 col t :
  has_shape h w c img → has_shape h w c (draw_line img p1 p2 col t).
Proof.
  intros [Hh Hr]. split; [by unfold draw_line; rewrite length_imap|].
  unfold draw_line. eapply Forall_imap; [|exact Hr].
  intros y r [Hw Hc]. simpl. split; [by rewrite length_imap|].
  eapply Forall_imap; [|exact Hc].
  intros x px Hpx. simpl. case_match; [|done].
  by rewrite length_paint_pixel.
Qed.

Lemma draw_segments_shape h w c img col t segs :
  has_shape h w c img → has_shape h w c (draw_segments col t img segs).
Proof.
  revert img. induction segs as [|s segs IH]; intros img Hs; [done|].
  simpl. apply IH. by apply draw_line_shape.
Qed.

Lemma add_weighted_shape h w c a b alpha beta gamma :
  has_shape h w c a → has_shape h w c b →
  has_shape h w c (add_weighted a alpha b beta gamma).
Proof.
  intros [Ha Hra] [Hb Hrb]. split.
  { unfold add_weighted. rewrite length_zip_with. lia. }
  unfold add_weighted.
  eapply Forall_zip_with; [|exact Hra|exact Hrb].
  intros r1 r2 [Hw1 Hc1] [Hw2 Hc2]. simpl. split.
  { rewrite length_zip_with. lia. }
  eapply Forall_zip_with; [|exact Hc1|exact Hc2].
  intros p q Hp Hq. simpl in *. rewrite length_zip_with. lia.
Qed.

Lemma congruent_refl img : is_uint8 img → congruent img img.
Proof.
  intros Hu. unfold congruent.
  apply Forall_Forall2_diag. eapply Forall_impl; [|exact Hu].
  intros r Hr. apply Forall_Forall2_diag. eapply Forall_impl; [|exact Hr].
  intros px Hpx. apply Forall_Forall2_diag. eapply Forall_impl; [|exact Hpx].
  by intros v Hv.
Qed.

Lemma draw_line_congruent a b p1 p2 col t :
  congruent a b → congruent (draw_line a p1 p2 col t) b.
Proof.
  intros Hab. unfold congruent, draw_line.
  eapply Forall2_imap_l; [|exact Hab].
  intros y r1 r2 Hr. simpl. eapply Forall2_imap_l; [|exact Hr].
  intros x px qx Hpx. simpl. case_match; [|done].
  unfold paint_pixel. eapply Forall2_imap_l; [|exact Hpx].
  intros k u v [_ Hv]. simpl. split; [apply saturate_u8_range|done].
Qed.

Lemma draw_segments_congruent a b col t segs :
  congruent a b → congruent (draw_segments col t a segs) b.
Proof.
  revert a. induction segs as [|s segs IH]; intros a Hab; [done|].
  simpl. apply IH. by apply draw_line_congruent.
Qed.

Lemma add_weighted_first `{!Cv2Blend} a b :
  congruent a b → add_weighted a 1 b 0 0 = a.
Proof.
  intros Hab. unfold add_weighted.
  eapply zip_with_first; [|exact Hab]. intros r1 r2 Hr. simpl.
  eapply zip_with_first; [|exact Hr]. intros px qx Hp. simpl.
  eapply zip_with_first; [|exact Hp]. intros u v [Hu Hv]. simpl.
  by apply blend_first.
Qed.

Lemma add_weighted_second `{!Cv2Blend} a b :
  congruent a b → add_weighted a 0 b 1 0 = b.
Proof.
  intros Hab. unfold add_weighted.
  eapply zip_with_second; [|exact Hab]. intros r1 r2 Hr. simpl.
  eapply zip_with_second; [|exact Hr]. intros px qx Hp. simpl.
  eapply zip_with_second; [|exact Hp]. intros u v [Hu Hv]. simpl.
  by apply blend_second.
Qed.

(** A pixel after [cv2.line]: painted where the footprint covers it,
    as before elsewhere. *)
Lemma pixel_at_draw_line img p1 p2 col t x y :
  pixel_at (draw_line img p1 p2 col t) x y =
  (λ px, if line_covers (rows img) (cols img) p1 p2 t (Z.of_nat x) (Z.of_nat y)
         then paint_pixel col px else px) <$> pixel_at img x y.
Proof.
  unfold pixel_at, draw_line. rewrite list_lookup_imap.
  destruct (img !! y) as [r|]; simpl; [|done].
  by rewrite list_lookup_imap.
Qed.

Lemma draw_line_rows img p1 p2 col t :
  rows (draw_line img p1 p2 col t) = rows img.
Proof. unfold rows, draw_line. by rewrite length_imap. Qed.

Lemma draw_line_cols img p1 p2 col t :
  cols (draw_line img p1 p2 col t) = cols img.
Proof.
  unfold cols, draw_line. destruct img as [|r img]; simpl; [done|].
  by rewrite length_imap.
Qed.
End buffers.

(** ** Binary64 arithmetic: [int(n / 100)]

    [n / 100] on integers is the correctly rounded quotient, computed by
    [SFdiv]; its rounding to 53 digits moves the scaled quotient by less
    than one unit in the last place, which for [|n| < 2 ^ 51] is too
    little to reach the next integer. *)

Lemma digits2_pos_log2 p : Z.pos (digits2_pos p) = Z.log2 (Z.pos p) + 1.
Proof.
  induction p as [p IH|p IH|]; cbn [digits2_pos]; [| |done].
  - rewrite Pos2Z.inj_succ, IH.
    rewrite (Pos2Z.inj_xI p), Z.log2_succ_double; lia.
  - rewrite Pos2Z.inj_succ, IH.
    rewrite (Pos2Z.inj_xO p), Z.log2_double; lia.
Qed.

(** A positive integer of [d] binary digits. *)
Lemma Zdigits2_unique m d :
  0 < d → 2 ^ (d - 1) ≤ m < 2 ^ d → Zdigits2 m = d.
Proof.
  intros Hd [Hlo Hhi].
  assert (0 < m) as Hm by (pose proof (Z.pow_pos_nonneg 2 (d - 1)); lia).
  destruct m as [|p|p]; [lia| |lia]. simpl.
  rewrite digits2_pos_log2.
  rewrite (Z.log2_unique (Z.pos p) (d - 1)); [lia|lia|].
  replace (Z.succ (d - 1)) with d by lia. done.
Qed.

Lemma Zdigits2_bounds p :
  2 ^ (Zdigits2 (Z.pos p) - 1) ≤ Z.pos p < 2 ^ Zdigits2 (Z.pos p).
Proof.
  simpl. rewrite digits2_pos_log2.
  pose proof (Z.log2_spec (Z.pos p) ltac:(lia)) as Hs.
  replace (Z.log2 (Z.pos p) + 1 - 1) with (Z.log2 (Z.pos p)) by lia.
  replace (Z.log2 (Z.pos p) + 1) with (Z.succ (Z.log2 (Z.pos p))) by lia.
  done.
Qed.

Lemma Zdigits2_pos p : 0 < Zdigits2 (Z.pos p).
Proof. simpl. lia. Qed.

Lemma round_nearest_even_range m l :
  m ≤ round_nearest_even m l ≤ m + 1.
Proof. destruct l as [|[| |]]; simpl; try destruct (Z.even m); lia. Qed.

Lemma shr_m_of_loc m l : shr_m (shr_record_of_loc m l) = m.
Proof. by destruct l as [|[| |]]. Qed.

Lemma shr_m_shr_1 p l :
  2 * shr_m (shr_1 (shr_record_of_loc (Z.pos p) l)) ≤ Z.pos p
    ≤ 2 * shr_m (shr_1 (shr_record_of_loc (Z.pos p) l)) + 1.
Proof. destruct l as [|[| |]], p; simpl; lia. Qed.

(** One rounding step on a mantissa of 53 or 54 digits: the mantissa is
    shifted by [k] (0 or 1) digits and rounded to a neighbour. *)
Lemma shr_fexp_round q e l :
  2 ^ 52 ≤ q < 2 ^ 54 → -1000 ≤ e ≤ 900 →
  ∃ k mrs,
    shr_fexp prec emax q e l = (mrs, e + k) ∧
    (k = 0 ∨ k = 1) ∧
    let m1 := round_nearest_even (shr_m mrs) (loc_of_shr_record mrs) in
    q `div` 2 ^ k ≤ m1 ≤ q `div` 2 ^ k + 1 ∧ 2 ^ 52 ≤ m1 ≤ 2 ^ 53.
Proof.
  intros [Hlo Hhi] He.
  destruct (Z_lt_le_dec q (2 ^ 53)) as [H53|H53].
  - exists 0, (shr_record_of_loc q l). unfold shr_fexp.
    rewrite (Zdigits2_unique q 53) by lia.
    replace (fexp prec emax (53 + e) - e) with 0
      by (unfold fexp, SpecFloat.emin, prec, emax; lia).
    simpl shr. split; [by rewrite Z.add_0_r|]. split; [by left|].
    rewrite Z.pow_0_r, Z.div_1_r. cbv zeta.
    pose proof (round_nearest_even_range (shr_m (shr_record_of_loc q l))
      (loc_of_shr_record (shr_record_of_loc q l))) as Hr.
    rewrite shr_m_of_loc in *. lia.
  - destruct q as [|p|p]; [lia| |lia].
    exists 1, (shr_1 (shr_record_of_loc (Z.pos p) l)). unfold shr_fexp.
    rewrite (Zdigits2_unique (Z.pos p) 54) by lia.
    replace (fexp prec emax (54 + e) - e) with 1
      by (unfold fexp, SpecFloat.emin, prec, emax; lia).
    simpl shr. split; [done|]. split; [by right|].
    rewrite Z.pow_1_r. cbv zeta.
    pose proof (round_nearest_even_range
      (shr_m (shr_1 (shr_record_of_loc (Z.pos p) l)))
      (loc_of_shr_record (shr_1 (shr_record_of_loc (Z.pos p) l)))) as Hr.
    pose proof (shr_m_shr_1 p l) as Hs.
    assert (Z.pos p `div` 2 = shr_m (shr_1 (shr_record_of_loc (Z.pos p) l))) as ->.
    { symmetry. apply Z.div_unique with
        (Z.pos p - 2 * shr_m (shr_1 (shr_record_of_loc (Z.pos p) l))); lia. }
    lia.
Qed.

(** The second, exact, rounding step: a mantissa that has grown to
    [2 ^ 53] is renormalised. *)
Lemma shr_fexp_exact m e :
  2 ^ 52 ≤ m ≤ 2 ^ 53 → -1000 ≤ e ≤ 950 →
  ∃ k m2,
    shr_fexp prec emax m e loc_Exact = (Build_shr_record m2 false false, e + k) ∧
    (k = 0 ∨ k = 1) ∧ m = m2 * 2 ^ k ∧ 2 ^ 52 ≤ m2 < 2 ^ 53.
Proof.
  intros [Hlo Hhi] He.
  destruct (Z_lt_le_dec m (2 ^ 53)) as [H53|H53].
  - exists 0, m. unfold shr_fexp.
    rewrite (Zdigits2_unique m 53) by lia.
    replace (fexp prec emax (53 + e) - e) with 0
      by (unfold fexp, SpecFloat.emin, prec, emax; lia).
    simpl. rewrite Z.add_0_r. split; [done|]. lia.
  - assert (m = 2 ^ 53) as -> by lia.
    exists 1, (2 ^ 52). unfold shr_fexp.
    assert (Zdigits2 (2 ^ 53) = 54) as -> by done.
    replace (fexp prec emax (54 + e) - e) with 1
      by (unfold fexp, SpecFloat.emin, prec, emax; lia).
    split; [done|]. lia.
Qed.

(** Rounding a mantissa of 53 or 54 digits to binary64: a finite, valid
    float whose mantissa is a neighbour of the shifted input. *)
Lemma binary_round_aux_neighbour s q e l :
  2 ^ 52 ≤ q < 2 ^ 54 → -1000 ≤ e ≤ 900 →
  ∃ k m,
    binary_round_aux prec emax s q e l = S754_finite s m (e + k) ∧
    0 ≤ k ≤ 2 ∧
    q `div` 2 ^ k ≤ Z.pos m ≤ q `div` 2 ^ k + 1 ∧
    valid_binary prec emax (S754_finite s m (e + k)) = true.
Proof.
  intros Hq He.
  destruct (shr_fexp_round q e l Hq He) as (k1 & mrs & E1 & Hk1 & Hm1 & Hr1).
  cbv zeta in Hm1, Hr1.
  set (m1 := round_nearest_even (shr_m mrs) (loc_of_shr_record mrs)) in *.
  destruct (shr_fexp_exact m1 (e + k1) Hr1 ltac:(lia))
    as (k2 & m2 & E2 & Hk2 & Hm2 & Hr2).
  destruct m2 as [|m|m]; [lia| |lia].
  exists (k1 + k2), m. unfold binary_round_aux. rewrite E1. fold m1. rewrite E2.
  simpl shr_m. cbv iota beta.
  replace (e + k1 + k2 <=? emax - prec) with true
    by (symmetry; apply Z.leb_le; unfold emax, prec; lia).
  rewrite Z.add_assoc. split; [done|]. split; [lia|]. split.
  - destruct Hk2 as [->| ->].
    + rewrite Z.add_0_r. rewrite Z.pow_0_r in Hm2. lia.
    + rewrite Z.pow_1_r in Hm2. rewrite Z.pow_add_r by lia.
      rewrite <- Z.div_div by lia. rewrite Z.pow_1_r.
      assert (m1 = 2 ^ 53) as Hm1' by lia.
      destruct Hk1 as [->| ->]; rewrite ?Z.pow_0_r, ?Z.pow_1_r, ?Z.div_1_r in *.
      * pose proof (Z.div_mod q 2 ltac:(lia)).
        pose proof (Z.mod_pos_bound q 2 ltac:(lia)). lia.
      * pose proof (Z.div_mod (q `div` 2) 2 ltac:(lia)).
        pose proof (Z.mod_pos_bound (q `div` 2) 2 ltac:(lia)). lia.
  - unfold valid_binary, bounded, canonical_mantissa.
    apply andb_true_iff. split.
    + apply Z.eqb_eq.
      change (Z.pos (digits2_pos m)) with (Zdigits2 (Z.pos m)).
      rewrite (Zdigits2_unique (Z.pos m) 53) by lia.
      unfold fexp, SpecFloat.emin, prec, emax. lia.
    + apply Z.leb_le. unfold emax, prec. lia.
Qed.

(** The division step of [n / 100]: the dividend is scaled to 60 digits. *)
Lemma SFdiv_core_100 n :
  Z.pos n < 2 ^ 51 →
  let d := Zdigits2 (Z.pos n) in
  ∃ l, SFdiv_core_binary prec emax (Z.pos n) 0 100 0 =
       ((Z.pos n * 2 ^ (60 - d)) `div` 100, d - 60, l).
Proof.
  intros Hn d. unfold SFdiv_core_binary.
  pose proof (Zdigits2_bounds n) as Hd. pose proof (Zdigits2_pos n) as Hd0.
  fold d in Hd, Hd0 |- *.
  assert (d ≤ 51) as Hd51.
  { destruct (Z_le_gt_dec d 51) as [|Hgt]; [done|].
    assert (2 ^ 51 ≤ 2 ^ (d - 1)) by (apply Z.pow_le_mono_r; lia). lia. }
  change (Zdigits2 100) with 7.
  replace (Z.min (fexp prec emax (d + 0 - (7 + 0))) (0 - 0)) with (d - 60)
    by (unfold fexp, SpecFloat.emin, prec, emax; lia).
  replace (0 - 0 - (d - 60)) with (60 - d) by lia.
  destruct (60 - d) as [|sp|sp] eqn:Es; [lia| |lia].
  rewrite Z.shiftl_mul_pow2 by lia.
  unfold Z.div. destruct (Z.div_eucl (Z.pos n * 2 ^ Z.pos sp) 100) as [q r].
  by eexists.
Qed.

Lemma int_truediv_100_pos s n :
  Z.pos n < 2 ^ 51 →
  ∃ m e,
    SFdiv prec emax (S754_finite s n 0) (S754_finite false 100 0) =
      S754_finite s m e ∧
    valid_binary prec emax (S754_finite s m e) = true ∧
    e < 0 ∧ Z.pos m `div` 2 ^ (- e) = Z.pos n `div` 100.
Proof.
  intros Hn. unfold SFdiv.
  destruct (SFdiv_core_100 n Hn) as (l & ->).
  pose proof (Zdigits2_bounds n) as Hd. pose proof (Zdigits2_pos n) as Hd0.
  set (d := Zdigits2 (Z.pos n)) in *.
  assert (d ≤ 51) as Hd51.
  { destruct (Z_le_gt_dec d 51) as [|Hgt]; [done|].
    assert (2 ^ 51 ≤ 2 ^ (d - 1)) by (apply Z.pow_le_mono_r; lia). lia. }
  set (P := 2 ^ (60 - d)).
  assert (2 ^ 59 ≤ Z.pos n * P < 2 ^ 60) as HnP.
  { assert (2 ^ (d - 1) * P = 2 ^ 59) as H1
      by (unfold P; rewrite <- Z.pow_add_r by lia; f_equal; lia).
    assert (2 ^ d * P = 2 ^ 60) as H2
      by (unfold P; rewrite <- Z.pow_add_r by lia; f_equal; lia).
    assert (0 < P) by (apply Z.pow_pos_nonneg; lia). nia. }
  set (q := (Z.pos n * P) `div` 100).
  assert (2 ^ 52 ≤ q < 2 ^ 54) as Hq.
  { unfold q. split.
    - apply Z.div_le_lower_bound; lia.
    - apply Z.div_lt_upper_bound; lia. }
  destruct (binary_round_aux_neighbour (xorb s false) q (d - 60) l Hq ltac:(lia))
    as (k & m & -> & Hk & Hm & Hv).
  rewrite xorb_false_r in *.
  exists m, (d - 60 + k). split; [done|]. split; [done|]. split; [lia|].
  set (K := Z.pos n `div` 100).
  pose proof (Z.div_mod (Z.pos n) 100 ltac:(lia)) as HK.
  pose proof (Z.mod_pos_bound (Z.pos n) 100 ltac:(lia)) as HKr.
  fold K in HK.
  set (R := 2 ^ (- (d - 60 + k))).
  set (T := 2 ^ k) in *.
  assert (P = T * R) as HP.
  { unfold P, T, R. rewrite <- Z.pow_add_r by lia. f_equal. lia. }
  assert (128 ≤ R) as HR.
  { unfold R. change 128 with (2 ^ 7). apply Z.pow_le_mono_r; lia. }
  assert (1 ≤ T ≤ 4) as HT.
  { unfold T. split.
    - assert (0 < 2 ^ k) by (apply Z.pow_pos_nonneg; lia). lia.
    - change 4 with (2 ^ 2). apply Z.pow_le_mono_r; lia. }
  pose proof (Z.div_mod (Z.pos n * P) 100 ltac:(lia)) as Hq1.
  pose proof (Z.mod_pos_bound (Z.pos n * P) 100 ltac:(lia)) as Hq2.
  fold q in Hq1.
  pose proof (Z.div_mod q T ltac:(lia)) as Ht1.
  pose proof (Z.mod_pos_bound q T ltac:(lia)) as Ht2.
  symmetry. apply Z.div_unique with (Z.pos m - K * R).
  - left. split.
    + assert (K * R ≤ q `div` T); [|lia].
      apply Z.div_le_lower_bound; [lia|]. nia.
    + nia.
  - lia.
Qed.

(** [int(n / 100)] is the quotient truncated toward zero. *)
Lemma int_truediv_100 n :
  Z.abs n < 2 ^ 51 →
  (q ← int_truediv n 100; int_of_float q) = Ok (n `quot` 100).
Proof.
  intros Hn. destruct n as [|p|p].
  - vm_compute. done.
  - destruct (int_truediv_100_pos false p ltac:(lia)) as (m & e & E & Hv & He & Hq).
    unfold int_truediv. simpl (100 =? 0). cbv iota.
    change (spec_of_int (Z.pos p)) with (S754_finite false p 0).
    change (spec_of_int 100) with (S754_finite false 100 0).
    rewrite E. cbv beta iota delta [mbind result_bind]. unfold int_of_float.
    rewrite (Prim2SF_SF2Prim _ Hv).
    replace (0 <=? e) with false by (symmetry; apply Z.leb_gt; lia).
    rewrite Hq. f_equal. symmetry. apply Z.quot_div_nonneg; lia.
  - destruct (int_truediv_100_pos true p ltac:(lia)) as (m & e & E & Hv & He & Hq).
    unfold int_truediv. simpl (100 =? 0). cbv iota.
    change (spec_of_int (Z.neg p)) with (S754_finite true p 0).
    change (spec_of_int 100) with (S754_finite false 100 0).
    rewrite E. cbv beta iota delta [mbind result_bind]. unfold int_of_float.
    rewrite (Prim2SF_SF2Prim _ Hv).
    replace (0 <=? e) with false by (symmetry; apply Z.leb_gt; lia).
    rewrite Hq. f_equal.
    change (Z.neg p) with (- Z.pos p). rewrite Z.quot_opp_l by lia.
    f_equal. symmetry. apply Z.quot_div_nonneg; lia.
Qed.

(** ** The calls of [draw_grid] *)

Lemma new_calls_app w h cs : new_calls w (World h (calls w ++ cs)) = cs.
Proof. unfold new_calls. simpl. apply drop_app_length. Qed.

Lemma new_calls_blended `{Cv2} w img spare c t alpha segs :
  new_calls w (blended_world w img spare c t alpha segs) =
  segment_calls (length (heap w ++ spare)) c t segs.
Proof. apply new_calls_app. Qed.

Lemma new_calls_drawn `{Cv2} w img spare c t segs :
  new_calls w (drawn_world w img spare c t segs) =
  segment_calls (length (heap w ++ spare)) c t segs.
Proof. apply new_calls_app. Qed.

Lemma elem_of_segment_calls a col t segs c :
  c ∈ segment_calls a col t segs ↔
  ∃ s, s ∈ segs ∧ c = LineCall a s.1 s.2 col t.
Proof.
  unfold segment_calls. rewrite list_elem_of_fmap. naive_solver.
Qed.

Lemma elem_of_vertical_line height dl dg dashed x s :
  s ∈ vertical_line height dl dg dashed x ↔
  (dashed = false ∧ s = ((x, 0), (x, height))) ∨
  (dashed = true ∧ ∃ y, y ∈ range_items 0 height (dl + dg) ∧
                        s = ((x, y), (x, Z.min (y + dl) height))).
Proof.
  unfold vertical_line, vertical_dashes. destruct dashed; simpl.
  - rewrite list_elem_of_fmap. naive_solver.
  - rewrite list_elem_of_singleton. naive_solver.
Qed.

Lemma elem_of_horizontal_line width dl dg dashed y s :
  s ∈ horizontal_line width dl dg dashed y ↔
  (dashed = false ∧ s = ((0, y), (width, y))) ∨
  (dashed = true ∧ ∃ x, x ∈ range_items 0 width (dl + dg) ∧
                        s = ((x, y), (Z.min (x + dl) width, y))).
Proof.
  unfold horizontal_line, horizontal_dashes. destruct dashed; simpl.
  - rewrite list_elem_of_fmap. naive_solver.
  - rewrite list_elem_of_singleton. naive_solver.
Qed.

(** A segment of [draw_grid] belongs to a vertical line at an [x] of the
    first loop or to a horizontal line at a [y] of the second. *)
Lemma elem_of_grid_segments height width gx gy dashed dl dg ox oy s :
  s ∈ grid_segments height width gx gy dashed dl dg ox oy ↔
  (∃ x, x ∈ range_items ox width gx ∧ s ∈ vertical_line height dl dg dashed x) ∨
  (∃ y, y ∈ range_items oy height gy ∧ s ∈ horizontal_line width dl dg dashed y).
Proof.
  unfold grid_segments, grid_vertical, grid_horizontal.
  rewrite elem_of_app, !list_elem_of_bind. naive_solver.
Qed.

Lemma zero_in_range hi step : 0 < step → 0 < hi → 0 ∈ range_items 0 hi step.
Proof.
  intros Hs Hh. apply elem_of_range_items; [done|]. exists 0. lia.
Qed.

Section grid_calls.
Variables (a : loc) (col : color) (t : Z).
Variables (height width gx gy : Z) (dashed : bool) (dl dg ox oy : Z).
Hypothesis (Hh : 1 ≤ height) (Hw : 1 ≤ width).
Hypothesis (Hdl : 0 < dl) (Hdg : 0 < dg).

Let cs := segment_calls a col t
            (grid_segments height width gx gy dashed dl dg ox oy).

(** The calls along the column [x]: the segments of the vertical line at
    [x], when [x] is a position of the first loop. *)
Lemma grid_call_on_vertical x c :
  c ∈ cs ∧ on_vertical x c ↔
  x ∈ range_items ox width gx ∧
  ∃ s, s ∈ vertical_line height dl dg dashed x ∧ c = LineCall a s.1 s.2 col t.
Proof.
  unfold cs. rewrite elem_of_segment_calls. split.
  - intros [(s & Hs & ->) [Hx1 Hx2]]. simpl in *.
    apply elem_of_grid_segments in Hs as [(x0 & Hx0 & Hs)|(y0 & Hy0 & Hs)].
    + assert (x0 = x) as ->.
      { apply elem_of_vertical_line in Hs as [[_ ->]|[_ (y & _ & ->)]]; done. }
      eauto.
    + exfalso.
      apply elem_of_horizontal_line in Hs as [[_ ->]|[_ (x1 & Hx1' & ->)]];
        simpl in *; [lia|].
      apply range_items_lt in Hx1'; lia.
  - intros [Hx (s & Hs & ->)]. split.
    + exists s. split; [|done]. apply elem_of_grid_segments. left. eauto.
    + apply elem_of_vertical_line in Hs as [[_ ->]|[_ (y & _ & ->)]]; done.
Qed.

Lemma grid_call_on_horizontal y c :
  c ∈ cs ∧ on_horizontal y c ↔
  y ∈ range_items oy height gy ∧
  ∃ s, s ∈ horizontal_line width dl dg dashed y ∧ c = LineCall a s.1 s.2 col t.
Proof.
  unfold cs. rewrite elem_of_segment_calls. split.
  - intros [(s & Hs & ->) [Hy1 Hy2]]. simpl in *.
    apply elem_of_grid_segments in Hs as [(x0 & Hx0 & Hs)|(y0 & Hy0 & Hs)].
    + exfalso.
      apply elem_of_vertical_line in Hs as [[_ ->]|[_ (y1 & Hy1' & ->)]];
        simpl in *; [lia|].
      apply range_items_lt in Hy1'; lia.
    + assert (y0 = y) as ->.
      { apply elem_of_horizontal_line in Hs as [[_ ->]|[_ (x & _ & ->)]]; done. }
      eauto.
  - intros [Hy (s & Hs & ->)]. split.
    + exists s. split; [|done]. apply elem_of_grid_segments. right. eauto.
    + apply elem_of_horizontal_line in Hs as [[_ ->]|[_ (x & _ & ->)]]; done.
Qed.

Lemma vertical_line_nonempty x :
  ∃ s, s ∈ vertical_line height dl dg dashed x.
Proof.
  destruct dashed eqn:E.
  - exists ((x, 0), (x, Z.min (0 + dl) height)).
    apply elem_of_vertical_line. right. split; [done|].
    exists 0. split; [apply zero_in_range; lia|done].
  - exists ((x, 0), (x, height)). apply elem_of_vertical_line. by left.
Qed.

Lemma horizontal_line_nonempty y :
  ∃ s, s ∈ horizontal_line width dl dg dashed y.
Proof.
  destruct dashed eqn:E.
  - exists ((0, y), (Z.min (0 + dl) width, y)).
    apply elem_of_horizontal_line. right. split; [done|].
    exists 0. split; [apply zero_in_range; lia|done].
  - exists ((0, y), (width, y)). apply elem_of_horizontal_line. by left.
Qed.

(** Where the dashes along the column [x] start, and those along the
    row [y]. *)
Lemma elem_of_dash_starts_vertical x y :
  dashed = true → x ∈ range_items ox width gx →
  y ∈ starts_on_vertical cs x ↔ y ∈ range_items 0 height (dl + dg).
Proof.
  intros Hd Hx. unfold starts_on_vertical. rewrite list_elem_of_fmap. split.
  - intros (c & -> & Hc). apply list_elem_of_filter in Hc as [Hon Hc].
    destruct (proj1 (grid_call_on_vertical x c) (conj Hc Hon))
      as (_ & s & Hs & ->).
    apply elem_of_vertical_line in Hs as [[? _]|[_ (y & Hy & ->)]];
      [congruence|done].
  - intros Hy.
    set (s := ((x, y), (x, Z.min (y + dl) height))).
    destruct (proj2 (grid_call_on_vertical x (LineCall a s.1 s.2 col t)))
      as [Hc Hon].
    { split; [done|]. exists s. split; [|done].
      apply elem_of_vertical_line. right. eauto. }
    exists (LineCall a s.1 s.2 col t). split; [done|].
    by apply list_elem_of_filter.
Qed.

Lemma elem_of_dash_starts_horizontal y x :
  dashed = true → y ∈ range_items oy height gy →
  x ∈ starts_on_horizontal cs y ↔ x ∈ range_items 0 width (dl + dg).
Proof.
  intros Hd Hy. unfold starts_on_horizontal. rewrite list_elem_of_fmap. split.
  - intros (c & -> & Hc). apply list_elem_of_filter in Hc as [Hon Hc].
    destruct (proj1 (grid_call_on_horizontal y c) (conj Hc Hon))
      as (_ & s & Hs & ->).
    apply elem_of_horizontal_line in Hs as [[? _]|[_ (x & Hx & ->)]];
      [congruence|done].
  - intros Hx.
    set (s := ((x, y), (Z.min (x + dl) width, y))).
    destruct (proj2 (grid_call_on_horizontal y (LineCall a s.1 s.2 col t)))
      as [Hc Hon].
    { split; [done|]. exists s. split; [|done].
      apply elem_of_horizontal_line. right. eauto. }
    exists (LineCall a s.1 s.2 col t). split; [done|].
    by apply list_elem_of_filter.
Qed.

Lemma elem_of_grid_vertical_xs x :
  x ∈ vertical_xs cs ↔ x ∈ range_items ox width gx.
Proof.
  unfold vertical_xs. rewrite list_elem_of_fmap. split.
  - intros (c & -> & Hc). apply list_elem_of_filter in Hc as [Hv Hc].
    by apply (grid_call_on_vertical (lc_p1 c).1 c).
  - intros Hx. destruct (vertical_line_nonempty x) as [s Hs].
    assert (LineCall a s.1 s.2 col t ∈ cs ∧
            on_vertical x (LineCall a s.1 s.2 col t)) as [Hc Hon]
      by (apply grid_call_on_vertical; eauto).
    exists (LineCall a s.1 s.2 col t). destruct Hon as [Hx1 Hx2]. split; [done|].
    apply list_elem_of_filter. split; [|done].
    unfold is_vertical, on_vertical. simpl in *. by rewrite Hx1, Hx2.
Qed.

Lemma elem_of_grid_horizontal_ys y :
  y ∈ horizontal_ys cs ↔ y ∈ range_items oy height gy.
Proof.
  unfold horizontal_ys. rewrite list_elem_of_fmap. split.
  - intros (c & -> & Hc). apply list_elem_of_filter in Hc as [Hv Hc].
    by apply (grid_call_on_horizontal (lc_p1 c).2 c).
  - intros Hy. destruct (horizontal_line_nonempty y) as [s Hs].
    assert (LineCall a s.1 s.2 col t ∈ cs ∧
            on_horizontal y (LineCall a s.1 s.2 col t)) as [Hc Hon]
      by (apply grid_call_on_horizontal; eauto).
    exists (LineCall a s.1 s.2 col t). destruct Hon as [Hy1 Hy2]. split; [done|].
    apply list_elem_of_filter. split; [|done].
    unfold is_horizontal, on_horizontal. simpl in *. by rewrite Hy1, Hy2.
Qed.
End grid_calls.

(** With solid lines there is one call per line: the vertical positions
    are the items of the first loop's range, in order. *)
Lemma vertical_xs_verticals a col t height xs :
  vertical_xs (segment_calls a col t ((λ x, ((x, 0), (x, height))) <$> xs)) = xs.
Proof.
  unfold vertical_xs, segment_calls.
  induction xs as [|x xs IH]; [done|]. csimpl.
  rewrite filter_cons_True by done. csimpl. by rewrite IH.
Qed.

Lemma vertical_xs_horizontals a col t width ys :
  width ≠ 0 →
  vertical_xs (segment_calls a col t ((λ y, ((0, y), (width, y))) <$> ys)) = [].
Proof.
  intros Hw. unfold vertical_xs, segment_calls.
  induction ys as [|y ys IH]; [done|]. csimpl.
  rewrite filter_cons_False; [done|].
  unfold is_vertical, on_vertical. simpl. lia.
Qed.

Lemma vertical_xs_app cs1 cs2 :
  vertical_xs (cs1 ++ cs2) = vertical_xs cs1 ++ vertical_xs cs2.
Proof. unfold vertical_xs. by rewrite list.filter_app, fmap_app. Qed.

Lemma vertical_xs_solid_grid a col t height width gx gy dl dg ox oy :
  width ≠ 0 →
  vertical_xs (segment_calls a col t
    (grid_segments height width gx gy false dl dg ox oy)) =
  range_items ox width gx.
Proof.
  intros Hw. unfold grid_segments, grid_vertical, grid_horizontal.
  change (vertical_line height dl dg false)
    with (λ x : Z, [((x, 0), (x, height))]).
  change (horizontal_line width dl dg false)
    with (λ y : Z, [((0, y), (width, y))]).
  rewrite (bind_singletons (λ x, ((x, 0), (x, height)))).
  rewrite (bind_singletons (λ y, ((0, y), (width, y)))).
  rewrite segment_calls_app, vertical_xs_app, vertical_xs_verticals.
  rewrite vertical_xs_horizontals by done. apply app_nil_r.
Qed.

(** * The properties of the overlay operations *)

(** C6. [draw_adaptive_grid] with cell counts [num_cells_x, num_cells_y >= 1]
    is [draw_grid] with the cell sizes [width // num_cells_x] and
    [height // num_cells_y] and the same other arguments: the two calls
    return the same buffer name and leave the same store and the same
    [cv2.line] calls.  With one cell each way the cell sizes are the width
    and the height of the image. *)
Theorem fixed_count_is_fixed_size `{Cv2} w image img nx ny c t alpha
    dashed dl dg ox oy :
  heap w !! image = Some img → 1 ≤ nx → 1 ≤ ny →
  draw_adaptive_grid image nx ny c t alpha dashed dl dg ox oy w =
    draw_grid image (cols img `div` nx) (rows img `div` ny) c t alpha dashed
      dl dg ox oy w ∧
  draw_adaptive_grid image 1 1 c t alpha dashed dl dg ox oy w =
    draw_grid image (cols img) (rows img) c t alpha dashed dl dg ox oy w.
Proof.
  intros E Hx Hy. split.
  - apply draw_adaptive_grid_run; [done|lia|lia].
  - rewrite (draw_adaptive_grid_run _ _ _ _ _ _ _ _ _ _ _ _ _ E) by done.
    by rewrite !Z.div_1_r.
Qed.

Lemma fixed_count_is_fixed_size_witness :
  let img := solid 6 8 [10; 20; 30] in
  let w := one_image img in
  (heap w !! 0%nat = Some img ∧ 1 ≤ 2 ∧ 1 ≤ 3) ∧
  @draw_adaptive_grid cv2_reference 0%nat 2 3 (255, 0, 0) 1 0.7 true 2 1 1 0 w =
    @draw_grid cv2_reference 0%nat (cols img `div` 2) (rows img `div` 3)
      (255, 0, 0) 1 0.7 true 2 1 1 0 w ∧
  @draw_adaptive_grid cv2_reference 0%nat 1 1 (255, 0, 0) 1 0.7 true 2 1 1 0 w =
    @draw_grid cv2_reference 0%nat (cols img) (rows img)
      (255, 0, 0) 1 0.7 true 2 1 1 0 w.
Proof.
  intros img w. split; [split; [reflexivity|lia]|].
  apply (@fixed_count_is_fixed_size cv2_reference w 0%nat img 2 3);
    [reflexivity|lia|lia].
Defined.

(** C4. [draw_grid] with a cell width [grid_size_x >= 1] on an image of
    width [W] draws its vertical lines exactly at the positions
    [offset_x + k * grid_size_x], [k >= 0], that are below [W], and its
    horizontal lines exactly at [offset_y + k * grid_size_y] below the
    height, with solid and with dashed lines; with solid lines the
    vertical positions are the items of [range(offset_x, W, grid_size_x)]
    in order, so [grid_size_x = 50] on width 100 gives the lines at 0 and
    50 and none at 100. *)
Theorem fixed_size_line_positions `{Cv2} w image img gx gy c t alpha
    dashed dl dg ox oy :
  heap w !! image = Some img → 1 ≤ rows img → 1 ≤ cols img →
  1 ≤ gx → 1 ≤ gy → 0 < dl → 0 < dg →
  ∃ l w',
    draw_grid image gx gy c t alpha dashed dl dg ox oy w = (Ok l, w') ∧
    (∀ x, x ∈ vertical_xs (new_calls w w') ↔
          ∃ k, 0 ≤ k ∧ x = ox + k * gx ∧ x < cols img) ∧
    (∀ y, y ∈ horizontal_ys (new_calls w w') ↔
          ∃ k, 0 ≤ k ∧ y = oy + k * gy ∧ y < rows img) ∧
    (dashed = false →
       vertical_xs (new_calls w w') = range_items ox (cols img) gx) ∧
    (dashed = false → gx = 50 → ox = 0 → cols img = 100 →
       vertical_xs (new_calls w w') = [0; 50]).
Proof.
  intros E Hh Hw Hx Hy Hdl Hdg.
  eexists _, _. split.
  { apply draw_grid_run; [done|lia|lia|lia]. }
  rewrite new_calls_blended. split; [|split; [|split]].
  - intros x. rewrite elem_of_grid_vertical_xs by done.
    apply elem_of_range_items. lia.
  - intros y. rewrite elem_of_grid_horizontal_ys by done.
    apply elem_of_range_items. lia.
  - intros ->. apply vertical_xs_solid_grid. lia.
  - intros -> -> -> Hc. rewrite vertical_xs_solid_grid by lia. by rewrite Hc.
Qed.

Lemma fixed_size_line_positions_witness :
  let img := solid 3 100 [10; 20; 30] in
  let w := one_image img in
  (heap w !! 0%nat = Some img ∧ 1 ≤ rows img ∧ 1 ≤ cols img ∧
   1 ≤ 50 ∧ 1 ≤ 2 ∧ 0 < 10 ∧ 0 < 10) ∧
  ∃ l w',
    @draw_grid cv2_reference 0%nat 50 2 (255, 0, 0) 1 0.7 false 10 10 0 1 w =
      (Ok l, w') ∧
    (∀ x, x ∈ vertical_xs (new_calls w w') ↔
          ∃ k, 0 ≤ k ∧ x = 0 + k * 50 ∧ x < cols img) ∧
    (∀ y, y ∈ horizontal_ys (new_calls w w') ↔
          ∃ k, 0 ≤ k ∧ y = 1 + k * 2 ∧ y < rows img) ∧
    (false = false →
       vertical_xs (new_calls w w') = range_items 0 (cols img) 50) ∧
    (false = false → 50 = 50 → 0 = 0 → cols img = 100 →
       vertical_xs (new_calls w w') = [0; 50]).
Proof.
  intros img w. split.
  { repeat split; try reflexivity; vm_compute; congruence. }
  apply (@fixed_size_line_positions cv2_reference w 0%nat img 50 2);
    try reflexivity; vm_compute; congruence.
Defined.

(** C10. In dashed mode every segment [draw_grid] draws is clipped to the
    image along its own axis: a dash of a vertical line that starts at [y]
    ends at [min(y + dash_length, height)], a dash of a horizontal line
    that starts at [x] ends at [min(x + dash_length, width)]; the end never
    exceeds the image dimension, and the dash is [dash_length] long or
    shorter, as much as is left of the image. *)
Theorem dashes_are_clipped `{Cv2} w image img gx gy c t alpha dl dg ox oy :
  heap w !! image = Some img → gx ≠ 0 → gy ≠ 0 → 0 < dl → 0 < dg →
  ∃ l w',
    draw_grid image gx gy c t alpha true dl dg ox oy w = (Ok l, w') ∧
    ∀ call, call ∈ new_calls w w' →
      let '(x1, y1) := lc_p1 call in
      let '(x2, y2) := lc_p2 call in
      (x2 = x1 ∧ y2 = Z.min (y1 + dl) (rows img) ∧ y2 ≤ rows img ∧
       y2 - y1 = Z.min dl (rows img - y1)) ∨
      (y2 = y1 ∧ x2 = Z.min (x1 + dl) (cols img) ∧ x2 ≤ cols img ∧
       x2 - x1 = Z.min dl (cols img - x1)).
Proof.
  intros E Hx Hy Hdl Hdg.
  eexists _, _. split.
  { apply draw_grid_run; [done|done|done|lia]. }
  rewrite new_calls_blended. intros call Hc.
  apply elem_of_segment_calls in Hc as (s & Hs & ->). simpl.
  apply elem_of_grid_segments in Hs as [(x & _ & Hs)|(y & _ & Hs)].
  - apply elem_of_vertical_line in Hs as [[? _]|[_ (y & _ & ->)]]; [done|].
    simpl. left. lia.
  - apply elem_of_horizontal_line in Hs as [[? _]|[_ (x & _ & ->)]]; [done|].
    simpl. right. lia.
Qed.

Lemma dashes_are_clipped_witness :
  let img := solid 25 60 [10; 20; 30] in
  let w := one_image img in
  (heap w !! 0%nat = Some img ∧ 50 ≠ 0 ∧ 50 ≠ 0 ∧ 0 < 10 ∧ 0 < 10) ∧
  ∃ l w',
    @draw_grid cv2_reference 0%nat 50 50 (255, 0, 0) 1 0.7 true 10 10 0 0 w =
      (Ok l, w') ∧
    ∀ call, call ∈ new_calls w w' →
      let '(x1, y1) := lc_p1 call in
      let '(x2, y2) := lc_p2 call in
      (x2 = x1 ∧ y2 = Z.min (y1 + 10) (rows img) ∧ y2 ≤ rows img ∧
       y2 - y1 = Z.min 10 (rows img - y1)) ∨
      (y2 = y1 ∧ x2 = Z.min (x1 + 10) (cols img) ∧ x2 ≤ cols img ∧
       x2 - x1 = Z.min 10 (cols img - x1)).
Proof.
  intros img w. split.
  { repeat split; try reflexivity; lia. }
  apply (@dashes_are_clipped cv2_reference w 0%nat img 50 50);
    try reflexivity; lia.
Defined.

(** C8. In dashed mode the dashes of every line of [draw_grid] start at
    the coordinates [k * (dash_length + dash_gap)], [k >= 0], below the
    image dimension along the line: the tiling starts at 0 whatever
    [offset_x] and [offset_y] are, so the dash starts along a line of a
    run with one pair of offsets are those along a line of a run with any
    other pair. *)
Theorem dash_phase_ignores_offsets `{Cv2} w image img gx gy c t alpha dl dg
    ox oy ox' oy' :
  heap w !! image = Some img → 1 ≤ rows img → 1 ≤ cols img →
  gx ≠ 0 → gy ≠ 0 → 0 < dl → 0 < dg →
  ∃ l w1 l' w2,
    draw_grid image gx gy c t alpha true dl dg ox oy w = (Ok l, w1) ∧
    draw_grid image gx gy c t alpha true dl dg ox' oy' w = (Ok l', w2) ∧
    (∀ x, x ∈ vertical_xs (new_calls w w1) →
       ∀ y, y ∈ starts_on_vertical (new_calls w w1) x ↔
            ∃ k, 0 ≤ k ∧ y = 0 + k * (dl + dg) ∧ y < rows img) ∧
    (∀ y, y ∈ horizontal_ys (new_calls w w1) →
       ∀ x, x ∈ starts_on_horizontal (new_calls w w1) y ↔
            ∃ k, 0 ≤ k ∧ x = 0 + k * (dl + dg) ∧ x < cols img) ∧
    (∀ x x', x ∈ vertical_xs (new_calls w w1) →
             x' ∈ vertical_xs (new_calls w w2) →
       ∀ y, y ∈ starts_on_vertical (new_calls w w1) x ↔
            y ∈ starts_on_vertical (new_calls w w2) x') ∧
    (∀ y y', y ∈ horizontal_ys (new_calls w w1) →
             y' ∈ horizontal_ys (new_calls w w2) →
       ∀ x, x ∈ starts_on_horizontal (new_calls w w1) y ↔
            x ∈ starts_on_horizontal (new_calls w w2) y').
Proof.
  intros E Hh Hw Hx Hy Hdl Hdg.
  eexists _, _, _, _. split; [|split].
  { apply draw_grid_run; [done|done|done|lia]. }
  { apply draw_grid_run; [done|done|done|lia]. }
  rewrite !new_calls_blended. split; [|split; [|split]].
  - intros x Hin y. apply elem_of_grid_vertical_xs in Hin; [|done..].
    rewrite elem_of_dash_starts_vertical by done.
    apply elem_of_range_items. lia.
  - intros y Hin x. apply elem_of_grid_horizontal_ys in Hin; [|done..].
    rewrite elem_of_dash_starts_horizontal by done.
    apply elem_of_range_items. lia.
  - intros x x' Hin Hin' y.
    apply elem_of_grid_vertical_xs in Hin; [|done..].
    apply elem_of_grid_vertical_xs in Hin'; [|done..].
    by rewrite !elem_of_dash_starts_vertical.
  - intros y y' Hin Hin' x.
    apply elem_of_grid_horizontal_ys in Hin; [|done..].
    apply elem_of_grid_horizontal_ys in Hin'; [|done..].
    by rewrite !elem_of_dash_starts_horizontal.
Qed.

Lemma dash_phase_ignores_offsets_witness :
  let img := solid 25 60 [10; 20; 30] in
  let w := one_image img in
  (heap w !! 0%nat = Some img ∧ 1 ≤ rows img ∧ 1 ≤ cols img ∧
   20 ≠ 0 ∧ 20 ≠ 0 ∧ 0 < 4 ∧ 0 < 3) ∧
  ∃ l w1 l' w2,
    @draw_grid cv2_reference 0%nat 20 20 (255, 0, 0) 1 0.7 true 4 3 0 0 w =
      (Ok l, w1) ∧
    @draw_grid cv2_reference 0%nat 20 20 (255, 0, 0) 1 0.7 true 4 3 5 2 w =
      (Ok l', w2) ∧
    (∀ x, x ∈ vertical_xs (new_calls w w1) →
       ∀ y, y ∈ starts_on_vertical (new_calls w w1) x ↔
            ∃ k, 0 ≤ k ∧ y = 0 + k * (4 + 3) ∧ y < rows img) ∧
    (∀ y, y ∈ horizontal_ys (new_calls w w1) →
       ∀ x, x ∈ starts_on_horizontal (new_calls w w1) y ↔
            ∃ k, 0 ≤ k ∧ x = 0 + k * (4 + 3) ∧ x < cols img) ∧
    (∀ x x', x ∈ vertical_xs (new_calls w w1) →
             x' ∈ vertical_xs (new_calls w w2) →
       ∀ y, y ∈ starts_on_vertical (new_calls w w1) x ↔
            y ∈ starts_on_vertical (new_calls w w2) x') ∧
    (∀ y y', y ∈ horizontal_ys (new_calls w w1) →
             y' ∈ horizontal_ys (new_calls w w2) →
       ∀ x, x ∈ starts_on_horizontal (new_calls w w1) y ↔
            x ∈ starts_on_horizontal (new_calls w w2) y').
Proof.
  intros img w. split.
  { repeat split; try reflexivity; vm_compute; congruence. }
  apply (@dash_phase_ignores_offsets cv2_reference w 0%nat img 20 20);
    try reflexivity; vm_compute; congruence.
Defined.

(** ** The store after an overlay *)

Lemma replay_segment_calls `{Cv2} img a c t segs :
  replay img (segment_calls a c t segs) = draw_segments c t img segs.
Proof.
  unfold replay, segment_calls, draw_segments.
  revert img. induction segs as [|s ss IH]; intros im; [done|].
  csimpl. apply IH.
Qed.

Section blended.
Context `{Cv2}.
Variables (w : world) (img : ndarray) (spare : list ndarray).
Variables (c : color) (t : Z) (alpha : float) (segs : list segment).

Let w' := blended_world w img spare c t alpha segs.
Let overlay := draw_segments c t img segs.

Lemma blended_world_overlay :
  heap w' !! length (heap w ++ spare) = Some overlay.
Proof.
  unfold w', blended_world. simpl.
  by rewrite app_assoc, lookup_app_r, Nat.sub_diag.
Qed.

Lemma blended_world_result :
  heap w' !! S (length (heap w ++ spare)) =
  Some (add_weighted overlay alpha img (1 - alpha) 0).
Proof.
  unfold w', blended_world. simpl.
  rewrite app_assoc, lookup_app_r by lia.
  by replace (S (length (heap w ++ spare)) - length (heap w ++ spare))%nat
    with 1%nat by lia.
Qed.

Lemma blended_world_old a :
  (a < length (heap w))%nat → heap w' !! a = heap w !! a.
Proof. intros Ha. unfold w', blended_world. simpl. by rewrite lookup_app_l. Qed.

Lemma blended_returns_buffer P :
  P (add_weighted overlay alpha img (1 - alpha) 0) →
  returns_buffer (Ok (S (length (heap w ++ spare))), w') P.
Proof.
  intros HP. eexists _, _, _. split; [done|]. split; [|exact HP].
  apply blended_world_result.
Qed.

Lemma blended_returns_new_buffer image :
  heap w !! image = Some img →
  returns_new_buffer w image (Ok (S (length (heap w ++ spare))), w').
Proof.
  intros E. apply lookup_lt_Some in E.
  eexists _, _. split; [done|].
  split; [rewrite length_app; lia|]. split; [rewrite length_app; lia|]. split.
  - eexists. apply blended_world_result.
  - apply blended_world_old.
Qed.
End blended.

Lemma drawn_world_buffer `{Cv2} w img spare c t segs :
  heap (drawn_world w img spare c t segs) !! length (heap w ++ spare) =
  Some (draw_segments c t img segs).
Proof.
  unfold drawn_world. simpl. apply list_lookup_insert_eq.
  rewrite !length_app. simpl. lia.
Qed.

Lemma drawn_world_old `{Cv2} w img spare c t segs a :
  (a < length (heap w))%nat →
  heap (drawn_world w img spare c t segs) !! a = heap w !! a.
Proof.
  intros Ha. unfold drawn_world. simpl.
  rewrite list_lookup_insert_ne by (rewrite length_app; lia).
  by rewrite lookup_app_l.
Qed.

Lemma guide_pixel_quot extent percent :
  Z.abs (extent * percent) < 2 ^ 51 →
  guide_pixel extent percent = Ok ((extent * percent) `quot` 100).
Proof. intros Hn. unfold guide_pixel. by apply int_truediv_100. Qed.

(** For an extent below [2 ^ 44] and a percent in [0, 100],
    [int(extent * percent / 100)] is the floor of the exact quotient. *)
Lemma guide_pixel_floor extent percent :
  0 ≤ extent < 2 ^ 44 → 0 ≤ percent ≤ 100 →
  guide_pixel extent percent = Ok ((extent * percent) `div` 100).
Proof.
  intros He Hp. rewrite guide_pixel_quot by nia.
  f_equal. apply Z.quot_div_nonneg; nia.
Qed.

Lemma rows_nonneg img : 0 ≤ rows img.
Proof. unfold rows. lia. Qed.

Lemma cols_nonneg img : 0 ≤ cols img.
Proof. unfold cols. destruct img; lia. Qed.

Lemma has_shape_rows h w c img : has_shape h w c img → rows img = Z.of_nat h.
Proof. intros [Hh _]. unfold rows. by rewrite Hh. Qed.

Lemma has_shape_cols h w c img :
  has_shape h w c img → (1 ≤ h)%nat → cols img = Z.of_nat w.
Proof.
  intros [Hh Hr] H1. destruct img as [|r img]; simpl in *; [lia|].
  inversion Hr as [|? ? [Hw _] _]. by rewrite Hw.
Qed.

Lemma Forall_segment_calls (P : line_call → Prop) a c t segs :
  (∀ s, P (LineCall a s.1 s.2 c t)) → Forall P (segment_calls a c t segs).
Proof.
  intros HP. unfold segment_calls. apply Forall_fmap, Forall_forall.
  intros s _. apply HP.
Qed.

Lemma blended_returns_overlay `{Cv2, !Cv2Blend} w img spare c t segs :
  is_uint8 img →
  returns_overlay w img
    (Ok (S (length (heap w ++ spare))), blended_world w img spare c t 1 segs).
Proof.
  intros Hu. eexists _, _, _. split; [done|].
  rewrite new_calls_blended, replay_segment_calls.
  split; [by apply Forall_segment_calls|]. split; [done|].
  split; [apply blended_world_overlay|].
  rewrite blended_world_result.
  change (1 - 1)%float with 0%float.
  rewrite add_weighted_first; [done|].
  by apply draw_segments_congruent, congruent_refl.
Qed.

Lemma blended_returns_original `{Cv2, !Cv2Blend} w img spare c t segs :
  is_uint8 img →
  returns_buffer
    (Ok (S (length (heap w ++ spare))), blended_world w img spare c t 0 segs)
    (λ out, out = img).
Proof.
  intros Hu. apply blended_returns_buffer.
  change (1 - 0)%float with 1%float.
  apply add_weighted_second.
  by apply draw_segments_congruent, congruent_refl.
Qed.

Lemma blended_returns_shape `{Cv2} w img spare c t alpha segs h wd ch :
  has_shape h wd ch img →
  returns_buffer
    (Ok (S (length (heap w ++ spare))), blended_world w img spare c t alpha segs)
    (has_shape h wd ch).
Proof.
  intros Hs. apply blended_returns_buffer.
  apply add_weighted_shape; [|done]. by apply draw_segments_shape.
Qed.

Lemma draw_golden_ratio_grid_raise `{Cv2, LibM} w image img d c t alpha ox oy e :
  heap w !! image = Some img →
  golden_positions ox (cols img) d = Raise e ∨
  (is_Ok (golden_positions ox (cols img) d) ∧
   golden_positions oy (rows img) d = Raise e) →
  draw_golden_ratio_grid image d c t alpha ox oy w =
  (Raise e, World (heap w ++ [img]) (calls w)).
Proof.
  intros E Hr. unfold draw_golden_ratio_grid.
  rewrite (world_spare_nil w) at 1.
  rewrite (shape_step _ _ _ _ _ E).
  rewrite (copy_step _ _ _ _ _ E). simpl.
  destruct Hr as [Hx|[[xs Hx] Hy]].
  - by rewrite (bind_raise _ _ _ _ _ (lift_raise _ _ _ Hx)).
  - rewrite (lift_step _ _ _ _ Hx).
    by rewrite (bind_raise _ _ _ _ _ (lift_raise _ _ _ Hy)).
Qed.

Lemma returns_new_buffer_preserves w image r :
  returns_new_buffer w image r → preserves_store w image r.
Proof.
  intros (l & w' & -> & Hne & Hle & Hin & Hold). split; [done|].
  by intros ? [= <-].
Qed.

Lemma draw_golden_ratio_grid_preserves `{Cv2, LibM} w image img d c t alpha ox oy :
  heap w !! image = Some img →
  preserves_store w image (draw_golden_ratio_grid image d c t alpha ox oy w).
Proof.
  intros E.
  destruct (golden_positions ox (cols img) d) as [xs|e] eqn:Hx;
    [destruct (golden_positions oy (rows img) d) as [ys|e] eqn:Hy|].
  - rewrite (draw_golden_ratio_grid_run _ _ _ _ _ _ _ _ _ _ _ E Hx Hy).
    by apply returns_new_buffer_preserves, blended_returns_new_buffer.
  - rewrite (draw_golden_ratio_grid_raise _ _ _ _ _ _ _ _ _ e E); last first.
    { right. rewrite Hx. split; [by eexists|done]. }
    split; [|done]. intros a Ha. simpl. by rewrite lookup_app_l.
  - rewrite (draw_golden_ratio_grid_raise _ _ _ _ _ _ _ _ _ e E); [|by left].
    split; [|done]. intros a Ha. simpl. by rewrite lookup_app_l.
Qed.

(** C2, as the code has it.  On an image of shape (h, w, c) the overlay
    operations return a buffer of shape (h, w, c): [draw_grid] for cell
    sizes of at least one pixel, [draw_adaptive_grid] for cell counts of
    at least one that resolve to cell sizes of at least one pixel, both
    with dash lengths and gaps above zero when dashed;
    [draw_golden_ratio_grid] when the float computation of its positions
    raises no exception; [draw_rule_of_thirds] and [draw_center_lines]
    always; [draw_guide_lines] for percents in [0, 100] (image sides
    below [2 ^ 44]). *)
Theorem overlays_keep_shape `{Cv2, LibM} w image img (h wd ch : nat) c t alpha :
  heap w !! image = Some img → has_shape h wd ch img →
  (∀ gx gy dashed dl dg ox oy,
     1 ≤ gx → 1 ≤ gy → (dashed = true → 0 < dl ∧ 0 < dg) →
     returns_buffer (draw_grid image gx gy c t alpha dashed dl dg ox oy w)
       (has_shape h wd ch)) ∧
  (∀ nx ny dashed dl dg ox oy,
     1 ≤ nx → 1 ≤ ny → 1 ≤ cols img `div` nx → 1 ≤ rows img `div` ny →
     (dashed = true → 0 < dl ∧ 0 < dg) →
     returns_buffer
       (draw_adaptive_grid image nx ny c t alpha dashed dl dg ox oy w)
       (has_shape h wd ch)) ∧
  (∀ d ox oy xs ys,
     golden_positions ox (cols img) d = Ok xs →
     golden_positions oy (rows img) d = Ok ys →
     returns_buffer (draw_golden_ratio_grid image d c t alpha ox oy w)
       (has_shape h wd ch)) ∧
  returns_buffer (draw_rule_of_thirds image c t alpha w) (has_shape h wd ch) ∧
  returns_buffer (draw_center_lines image c t alpha w) (has_shape h wd ch) ∧
  (∀ hp vp,
     0 ≤ hp ≤ 100 → 0 ≤ vp ≤ 100 → rows img < 2 ^ 44 → cols img < 2 ^ 44 →
     returns_buffer (draw_guide_lines image hp vp c t w) (has_shape h wd ch)).
Proof.
  intros E Hs. split; [|split; [|split; [|split; [|split]]]].
  - intros gx gy dashed dl dg ox oy Hx Hy Hd.
    rewrite (draw_grid_run _ _ _ _ _ _ _ _ _ _ _ _ _ E)
      by first [lia|intros Ht; destruct (Hd Ht); lia].
    by apply blended_returns_shape.
  - intros nx ny dashed dl dg ox oy Hx Hy Hcx Hcy Hd.
    rewrite (draw_adaptive_grid_run _ _ _ _ _ _ _ _ _ _ _ _ _ E) by lia.
    rewrite (draw_grid_run _ _ _ _ _ _ _ _ _ _ _ _ _ E)
      by first [lia|intros Ht; destruct (Hd Ht); lia].
    by apply blended_returns_shape.
  - intros d ox oy xs ys Hxs Hys.
    rewrite (draw_golden_ratio_grid_run _ _ _ _ _ _ _ _ _ _ _ E Hxs Hys).
    by apply blended_returns_shape.
  - rewrite (draw_rule_of_thirds_run _ _ _ _ _ _ E).
    by apply blended_returns_shape.
  - rewrite (draw_center_lines_run _ _ _ _ _ _ E).
    by apply blended_returns_shape.
  - intros hp vp Hhp Hvp Hr Hc.
    rewrite (draw_guide_lines_run _ _ _ _ _ _ _ _ _ E
      (guide_pixel_floor _ _ (conj (rows_nonneg img) Hr) Hhp)
      (guide_pixel_floor _ _ (conj (cols_nonneg img) Hc) Hvp)).
    eexists _, _, _. split; [done|]. split; [apply drawn_world_buffer|].
    by apply draw_segments_shape.
Qed.

Lemma overlays_keep_shape_witness :
  let img := solid 6 8 [10; 20; 30] in
  let w := one_image img in
  let red := (0, 0, 255) in
  (heap w !! 0%nat = Some img ∧ has_shape 6 8 3 img) ∧
  returns_buffer
    (@draw_grid cv2_reference 0%nat 3 2 red 1 0.7 true 2 1 1 0 w)
    (has_shape 6 8 3) ∧
  returns_buffer
    (@draw_adaptive_grid cv2_reference 0%nat 4 3 red 1 0.7 false 10 10 0 0 w)
    (has_shape 6 8 3) ∧
  returns_buffer
    (@draw_golden_ratio_grid cv2_reference libm_reference 0%nat 2 red 1 0.7 0 0 w)
    (has_shape 6 8 3) ∧
  returns_buffer (@draw_rule_of_thirds cv2_reference 0%nat red 1 0.7 w)
    (has_shape 6 8 3) ∧
  returns_buffer (@draw_center_lines cv2_reference 0%nat red 1 0.7 w)
    (has_shape 6 8 3) ∧
  returns_buffer (@draw_guide_lines cv2_reference 0%nat 50 25 red 1 w)
    (has_shape 6 8 3).
Proof.
  intros img w red.
  assert (has_shape 6 8 3 img) as Hs.
  { split; [reflexivity|]. repeat constructor. }
  split; [by split|].
  destruct (@overlays_keep_shape cv2_reference libm_reference w 0%nat img
              6%nat 8%nat 3%nat red 1 0.7%float eq_refl Hs)
    as (Hgrid & Hcount & Hgolden & Hthirds & Hcenter & Hguide).
  split; [apply Hgrid; [lia|lia|intros _; lia]|].
  split; [apply Hcount; [lia|lia|vm_compute; congruence|vm_compute; congruence|
                         intros; discriminate]|].
  split; [apply (Hgolden 2 0 0 [4; 8] [3; 6]); reflexivity|].
  split; [exact Hthirds|]. split; [exact Hcenter|].
  apply Hguide; [lia|lia|vm_compute; reflexivity|vm_compute; reflexivity].
Defined.

(** C2 as stated fails for [draw_golden_ratio_grid]: with 1475
    divisions, a valid argument, on a 3 by 4 image the call raises
    [OverflowError] at [phi ** 1475] and returns no buffer. *)
Lemma golden_ratio_overflow_returns_no_buffer :
  let img := solid 3 4 [10; 20; 30] in
  let w := one_image img in
  let r :=
    @draw_golden_ratio_grid cv2_reference libm_reference 0%nat 1475
      (0, 215, 255) 1 0.7 0 0 w in
  has_shape 3 4 3 img ∧ r.1 = Raise OverflowError ∧
  ¬ returns_buffer r (has_shape 3 4 3).
Proof.
  intros img w r.
  assert (r.1 = Raise OverflowError) as Hr by (vm_compute; reflexivity).
  clearbody r.
  split; [split; [reflexivity|repeat constructor]|]. split; [done|].
  intros (l & w' & out & He & _). rewrite He in Hr. discriminate.
Qed.

(** C3. Every overlay operation leaves the stored buffers as they were,
    the caller's image among them, and returns a buffer that was not in
    the store before the call and so is not the image: [draw_grid],
    [draw_adaptive_grid], [draw_rule_of_thirds], [draw_center_lines] and
    [draw_guide_lines] on valid arguments, and [draw_golden_ratio_grid]
    on every argument, whether its float computation raises or not. *)
Theorem overlays_leave_input_unchanged `{Cv2, LibM} w image img c t alpha :
  heap w !! image = Some img →
  (∀ gx gy dashed dl dg ox oy,
     1 ≤ gx → 1 ≤ gy → (dashed = true → 0 < dl ∧ 0 < dg) →
     returns_new_buffer w image
       (draw_grid image gx gy c t alpha dashed dl dg ox oy w)) ∧
  (∀ nx ny dashed dl dg ox oy,
     1 ≤ nx → 1 ≤ ny → 1 ≤ cols img `div` nx → 1 ≤ rows img `div` ny →
     (dashed = true → 0 < dl ∧ 0 < dg) →
     returns_new_buffer w image
       (draw_adaptive_grid image nx ny c t alpha dashed dl dg ox oy w)) ∧
  (∀ d ox oy,
     preserves_store w image
       (draw_golden_ratio_grid image d c t alpha ox oy w) ∧
     (is_Ok (golden_positions ox (cols img) d) →
      is_Ok (golden_positions oy (rows img) d) →
      returns_new_buffer w image
        (draw_golden_ratio_grid image d c t alpha ox oy w))) ∧
  returns_new_buffer w image (draw_rule_of_thirds image c t alpha w) ∧
  returns_new_buffer w image (draw_center_lines image c t alpha w) ∧
  (∀ hp vp,
     0 ≤ hp ≤ 100 → 0 ≤ vp ≤ 100 → rows img < 2 ^ 44 → cols img < 2 ^ 44 →
     returns_new_buffer w image (draw_guide_lines image hp vp c t w)).
Proof.
  intros E. split; [|split; [|split; [|split; [|split]]]].
  - intros gx gy dashed dl dg ox oy Hx Hy Hd.
    rewrite (draw_grid_run _ _ _ _ _ _ _ _ _ _ _ _ _ E)
      by first [lia|intros Ht; destruct (Hd Ht); lia].
    by apply blended_returns_new_buffer.
  - intros nx ny dashed dl dg ox oy Hx Hy Hcx Hcy Hd.
    rewrite (draw_adaptive_grid_run _ _ _ _ _ _ _ _ _ _ _ _ _ E) by lia.
    rewrite (draw_grid_run _ _ _ _ _ _ _ _ _ _ _ _ _ E)
      by first [lia|intros Ht; destruct (Hd Ht); lia].
    by apply blended_returns_new_buffer.
  - intros d ox oy. split.
    + by eapply draw_golden_ratio_grid_preserves.
    + intros [xs Hxs] [ys Hys].
      rewrite (draw_golden_ratio_grid_run _ _ _ _ _ _ _ _ _ _ _ E Hxs Hys).
      by apply blended_returns_new_buffer.
  - rewrite (draw_rule_of_thirds_run _ _ _ _ _ _ E).
    by apply blended_returns_new_buffer.
  - rewrite (draw_center_lines_run _ _ _ _ _ _ E).
    by apply blended_returns_new_buffer.
  - intros hp vp Hhp Hvp Hr Hc.
    rewrite (draw_guide_lines_run _ _ _ _ _ _ _ _ _ E
      (guide_pixel_floor _ _ (conj (rows_nonneg img) Hr) Hhp)
      (guide_pixel_floor _ _ (conj (cols_nonneg img) Hc) Hvp)).
    pose proof (lookup_lt_Some _ _ _ E) as Hlt.
    eexists _, _. split; [done|].
    split; [rewrite app_nil_r; lia|]. split; [rewrite app_nil_r; lia|]. split.
    + eexists. apply drawn_world_buffer.
    + intros a Ha. by apply drawn_world_old.
Qed.

Lemma overlays_leave_input_unchanged_witness :
  let img := solid 6 8 [10; 20; 30] in
  let w := one_image img in
  let red := (0, 0, 255) in
  heap w !! 0%nat = Some img ∧
  returns_new_buffer w 0%nat
    (@draw_grid cv2_reference 0%nat 3 2 red 1 0.7 true 2 1 1 0 w) ∧
  returns_new_buffer w 0%nat
    (@draw_adaptive_grid cv2_reference 0%nat 4 3 red 1 0.7 false 10 10 0 0 w) ∧
  preserves_store w 0%nat
    (@draw_golden_ratio_grid cv2_reference libm_reference 0%nat 1475 red 1 0.7 0 0 w) ∧
  returns_new_buffer w 0%nat
    (@draw_golden_ratio_grid cv2_reference libm_reference 0%nat 2 red 1 0.7 0 0 w) ∧
  returns_new_buffer w 0%nat (@draw_rule_of_thirds cv2_reference 0%nat red 1 0.7 w) ∧
  returns_new_buffer w 0%nat (@draw_center_lines cv2_reference 0%nat red 1 0.7 w) ∧
  returns_new_buffer w 0%nat (@draw_guide_lines cv2_reference 0%nat 50 25 red 1 w).
Proof.
  intros img w red. split; [reflexivity|].
  destruct (@overlays_leave_input_unchanged cv2_reference libm_reference w
              0%nat img red 1 0.7%float eq_refl)
    as (Hgrid & Hcount & Hgolden & Hthirds & Hcenter & Hguide).
  split; [apply Hgrid; [lia|lia|intros _; lia]|].
  split; [apply Hcount; [lia|lia|vm_compute; congruence|vm_compute; congruence|
                         intros; discriminate]|].
  split; [exact (proj1 (Hgolden 1475 0 0))|].
  split; [apply (proj2 (Hgolden 2 0 0));
          [exists [4; 8]; reflexivity|exists [3; 6]; reflexivity]|].
  split; [exact Hthirds|]. split; [exact Hcenter|].
  apply Hguide; [lia|lia|vm_compute; reflexivity|vm_compute; reflexivity].
Defined.

(** ** The reference blending satisfies the blending laws *)

Lemma uint8_in_seqZ a : 0 ≤ a ≤ 255 → a ∈ seqZ 0 256.
Proof. intros Ha. apply elem_of_seqZ. lia. Qed.

Lemma forallb_uint8 (f : Z → bool) a :
  forallb f (seqZ 0 256) = true → 0 ≤ a ≤ 255 → f a = true.
Proof.
  intros Hf Ha. apply (proj1 (forallb_forall f (seqZ 0 256)) Hf).
  apply list_elem_of_In. by apply uint8_in_seqZ.
Qed.

(** The products with 0 and 1 of a [uint8] value, by evaluation on the
    256 values. *)
Lemma is_positive_zero_eq f : is_positive_zero f = true → f = 0%float.
Proof.
  unfold is_positive_zero. intros Hf. apply Prim2SF_inj.
  destruct (Prim2SF f) as [[|]| | |]; try discriminate. reflexivity.
Qed.

Lemma uint8_times_zero b :
  0 ≤ b ≤ 255 → (float_of_uint8 b * 0)%float = 0%float.
Proof.
  intros Hb. apply is_positive_zero_eq.
  apply (forallb_uint8 (λ b, is_positive_zero (float_of_uint8 b * 0))); [|done].
  vm_compute. reflexivity.
Qed.

Lemma uint8_times_one_rounds a :
  0 ≤ a ≤ 255 →
  saturate_u8 (round_half_even (float_of_uint8 a * 1 + 0 + 0)) = a ∧
  saturate_u8 (round_half_even (0 + float_of_uint8 a * 1 + 0)) = a.
Proof.
  intros Ha.
  assert (forallb (λ a,
            (saturate_u8 (round_half_even (float_of_uint8 a * 1 + 0 + 0)) =? a) &&
            (saturate_u8 (round_half_even (0 + float_of_uint8 a * 1 + 0)) =? a))
          (seqZ 0 256) = true) as Hall by (vm_compute; reflexivity).
  apply (forallb_uint8 _ a) in Hall; [|done].
  apply andb_true_iff in Hall as [H1 H2].
  by apply Z.eqb_eq in H1, H2.
Qed.

Lemma blend_binary64_first a b :
  0 ≤ a ≤ 255 → 0 ≤ b ≤ 255 → blend_binary64 a 1 b 0 0 = a.
Proof.
  intros Ha Hb. unfold blend_binary64.
  rewrite (uint8_times_zero b Hb). by apply uint8_times_one_rounds.
Qed.

Lemma blend_binary64_second a b :
  0 ≤ a ≤ 255 → 0 ≤ b ≤ 255 → blend_binary64 a 0 b 1 0 = b.
Proof.
  intros Ha Hb. unfold blend_binary64.
  rewrite (uint8_times_zero a Ha). by apply uint8_times_one_rounds.
Qed.

Lemma cv2_reference_blend : @Cv2Blend cv2_reference.
Proof.
  split; [apply blend_binary64_first|apply blend_binary64_second].
Defined.

(** C5. For every operation that blends ([draw_grid],
    [draw_adaptive_grid], [draw_golden_ratio_grid], [draw_rule_of_thirds],
    [draw_center_lines]) on a [uint8] image: with [alpha = 1.0] the
    returned buffer equals the overlay buffer, the copy of the image into
    which the lines were drawn, value for value; with [alpha = 0.0] it
    equals the input image, value for value.  ([cv2.addWeighted] is
    assumed to store [a * 1 + b * 0 + 0] as [a], and [a * 0 + b * 1 + 0] as
    [b]: [Cv2Blend].) *)
Theorem alpha_one_is_overlay_alpha_zero_is_input `{Cv2, LibM, !Cv2Blend}
    w image img c t :
  heap w !! image = Some img → is_uint8 img →
  (∀ gx gy dashed dl dg ox oy,
     1 ≤ gx → 1 ≤ gy → (dashed = true → 0 < dl ∧ 0 < dg) →
     returns_overlay w img
       (draw_grid image gx gy c t 1 dashed dl dg ox oy w) ∧
     returns_buffer
       (draw_grid image gx gy c t 0 dashed dl dg ox oy w) (λ out, out = img)) ∧
  (∀ nx ny dashed dl dg ox oy,
     1 ≤ nx → 1 ≤ ny → 1 ≤ cols img `div` nx → 1 ≤ rows img `div` ny →
     (dashed = true → 0 < dl ∧ 0 < dg) →
     returns_overlay w img
       (draw_adaptive_grid image nx ny c t 1 dashed dl dg ox oy w) ∧
     returns_buffer
       (draw_adaptive_grid image nx ny c t 0 dashed dl dg ox oy w)
       (λ out, out = img)) ∧
  (∀ d ox oy xs ys,
     golden_positions ox (cols img) d = Ok xs →
     golden_positions oy (rows img) d = Ok ys →
     returns_overlay w img (draw_golden_ratio_grid image d c t 1 ox oy w) ∧
     returns_buffer (draw_golden_ratio_grid image d c t 0 ox oy w)
       (λ out, out = img)) ∧
  (returns_overlay w img (draw_rule_of_thirds image c t 1 w) ∧
   returns_buffer (draw_rule_of_thirds image c t 0 w) (λ out, out = img)) ∧
  (returns_overlay w img (draw_center_lines image c t 1 w) ∧
   returns_buffer (draw_center_lines image c t 0 w) (λ out, out = img)).
Proof.
  intros E Hu. split; [|split; [|split; [|split]]].
  - intros gx gy dashed dl dg ox oy Hx Hy Hd.
    rewrite !(draw_grid_run _ _ _ _ _ _ _ _ _ _ _ _ _ E)
      by first [lia|intros Ht; destruct (Hd Ht); lia].
    split; [by apply blended_returns_overlay|by apply blended_returns_original].
  - intros nx ny dashed dl dg ox oy Hx Hy Hcx Hcy Hd.
    rewrite !(draw_adaptive_grid_run _ _ _ _ _ _ _ _ _ _ _ _ _ E) by lia.
    rewrite !(draw_grid_run _ _ _ _ _ _ _ _ _ _ _ _ _ E)
      by first [lia|intros Ht; destruct (Hd Ht); lia].
    split; [by apply blended_returns_overlay|by apply blended_returns_original].
  - intros d ox oy xs ys Hxs Hys.
    rewrite !(draw_golden_ratio_grid_run _ _ _ _ _ _ _ _ _ _ _ E Hxs Hys).
    split; [by apply blended_returns_overlay|by apply blended_returns_original].
  - rewrite !(draw_rule_of_thirds_run _ _ _ _ _ _ E).
    split; [by apply blended_returns_overlay|by apply blended_returns_original].
  - rewrite !(draw_center_lines_run _ _ _ _ _ _ E).
    split; [by apply blended_returns_overlay|by apply blended_returns_original].
Qed.

Lemma alpha_one_is_overlay_alpha_zero_is_input_witness :
  let img := solid 6 8 [10; 20; 30] in
  let w := one_image img in
  let red := (0, 0, 255) in
  (heap w !! 0%nat = Some img ∧ is_uint8 img) ∧
  (@returns_overlay cv2_reference w img
     (@draw_grid cv2_reference 0%nat 3 2 red 1 1 true 2 1 1 0 w) ∧
   returns_buffer
     (@draw_grid cv2_reference 0%nat 3 2 red 1 0 true 2 1 1 0 w)
     (λ out, out = img)) ∧
  (@returns_overlay cv2_reference w img
     (@draw_adaptive_grid cv2_reference 0%nat 4 3 red 1 1 false 10 10 0 0 w) ∧
   returns_buffer
     (@draw_adaptive_grid cv2_reference 0%nat 4 3 red 1 0 false 10 10 0 0 w)
     (λ out, out = img)) ∧
  (@returns_overlay cv2_reference w img
     (@draw_golden_ratio_grid cv2_reference libm_reference 0%nat 2 red 1 1 0 0 w) ∧
   returns_buffer
     (@draw_golden_ratio_grid cv2_reference libm_reference 0%nat 2 red 1 0 0 0 w)
     (λ out, out = img)) ∧
  (@returns_overlay cv2_reference w img (@draw_rule_of_thirds cv2_reference 0%nat red 1 1 w) ∧
   returns_buffer (@draw_rule_of_thirds cv2_reference 0%nat red 1 0 w)
     (λ out, out = img)) ∧
  (@returns_overlay cv2_reference w img (@draw_center_lines cv2_reference 0%nat red 1 1 w) ∧
   returns_buffer (@draw_center_lines cv2_reference 0%nat red 1 0 w)
     (λ out, out = img)).
Proof.
  intros img w red.
  assert (is_uint8 img) as Hu by (repeat constructor; lia).
  split; [by split|].
  destruct (@alpha_one_is_overlay_alpha_zero_is_input cv2_reference
              libm_reference cv2_reference_blend w 0%nat img red 1 eq_refl Hu)
    as (Hgrid & Hcount & Hgolden & Hthirds & Hcenter).
  split; [apply Hgrid; [lia|lia|intros _; lia]|].
  split; [apply Hcount; [lia|lia|vm_compute; congruence|vm_compute; congruence|
                         intros; discriminate]|].
  split; [apply (Hgolden 2 0 0 [4; 8] [3; 6]); reflexivity|].
  split; [exact Hthirds|exact Hcenter].
Defined.

Lemma paint_pixel_idemp c px :
  paint_pixel c (paint_pixel c px) = paint_pixel c px.
Proof.
  unfold paint_pixel. apply list_eq. intros k.
  rewrite !list_lookup_imap. by destruct (px !! k).
Qed.

(** C9. [draw_guide_lines] with percents in [0, 100] makes exactly two
    [cv2.line] calls, both on the copy it returns: a horizontal line at
    [y = floor(height * h_pos_percent / 100)] and a vertical line at
    [x = floor(width * v_pos_percent / 100)].  It allocates no other
    buffer and blends nothing: in the returned buffer a pixel covered by
    one of the two lines holds the line colour, and every other pixel
    holds what the input holds there.  (Image sides below [2 ^ 44].) *)
Theorem guide_lines_at_full_opacity `{Cv2} w image img hp vp c t :
  heap w !! image = Some img →
  0 ≤ hp ≤ 100 → 0 ≤ vp ≤ 100 → rows img < 2 ^ 44 → cols img < 2 ^ 44 →
  let h_pixel := (rows img * hp) `div` 100 in
  let v_pixel := (cols img * vp) `div` 100 in
  let covered x y :=
    line_covers (rows img) (cols img) (0, h_pixel) (cols img, h_pixel) t
      (Z.of_nat x) (Z.of_nat y) ||
    line_covers (rows img) (cols img) (v_pixel, 0) (v_pixel, rows img) t
      (Z.of_nat x) (Z.of_nat y) in
  ∃ l w' out,
    draw_guide_lines image hp vp c t w = (Ok l, w') ∧
    new_calls w w' =
      [LineCall l (0, h_pixel) (cols img, h_pixel) c t;
       LineCall l (v_pixel, 0) (v_pixel, rows img) c t] ∧
    length (heap w') = S (length (heap w)) ∧
    heap w' !! l = Some out ∧
    ∀ x y px, pixel_at img x y = Some px →
      pixel_at out x y = Some (if covered x y then paint_pixel c px else px).
Proof.
  intros E Hhp Hvp Hr Hc h_pixel v_pixel covered.
  eexists _, _, _. split.
  { apply (draw_guide_lines_run _ _ _ _ _ _ _ _ _ E
      (guide_pixel_floor _ _ (conj (rows_nonneg img) Hr) Hhp)
      (guide_pixel_floor _ _ (conj (cols_nonneg img) Hc) Hvp)). }
  split; [by rewrite new_calls_drawn|].
  split.
  { unfold drawn_world. simpl. rewrite length_insert, !length_app. simpl. lia. }
  split; [apply drawn_world_buffer|].
  intros x y px Hpx. simpl.
  rewrite !pixel_at_draw_line, draw_line_rows, draw_line_cols, Hpx. simpl.
  f_equal. unfold covered. fold h_pixel v_pixel.
  repeat case_match; simpl; try done. apply paint_pixel_idemp.
Qed.

Lemma guide_lines_at_full_opacity_witness :
  let img := solid 3 4 [10; 20; 30] in
  let w := one_image img in
  (heap w !! 0%nat = Some img ∧ 0 ≤ 50 ≤ 100 ∧ 0 ≤ 25 ≤ 100 ∧
   rows img < 2 ^ 44 ∧ cols img < 2 ^ 44) ∧
  ∃ l w' out,
    @draw_guide_lines cv2_reference 0%nat 50 25 (255, 0, 0) 1 w = (Ok l, w') ∧
    new_calls w w' =
      [LineCall l (0, 1) (4, 1) (255, 0, 0) 1;
       LineCall l (1, 0) (1, 3) (255, 0, 0) 1] ∧
    length (heap w') = S (length (heap w)) ∧
    heap w' !! l = Some out ∧
    ∀ x y px, pixel_at img x y = Some px →
      pixel_at out x y =
      Some (if hairline 3 4 (0, 1) (4, 1) 1 (Z.of_nat x) (Z.of_nat y) ||
               hairline 3 4 (1, 0) (1, 3) 1 (Z.of_nat x) (Z.of_nat y)
            then paint_pixel (255, 0, 0) px else px).
Proof.
  intros img w. split.
  { repeat split; try reflexivity; vm_compute; congruence. }
  apply (@guide_lines_at_full_opacity cv2_reference w 0%nat img 50 25);
    try reflexivity; try lia; vm_compute; reflexivity.
Defined.

(** ** The golden-ratio loop *)

Lemma range_items_from_zero d :
  range_items 0 d 1 = Z.of_nat <$> seq 0 (Z.to_nat d).
Proof.
  unfold range_items. assert (range_len 0 d 1 = Z.max 0 d) as ->.
  { unfold range_len. simpl. destruct (0 <? d) eqn:E.
    - apply Z.ltb_lt in E. rewrite Z.div_1_r. lia.
    - apply Z.ltb_ge in E. lia. }
  unfold seqZ. rewrite <- list_fmap_compose.
  replace (Z.to_nat (Z.max 0 d)) with (Z.to_nat d) by lia.
  apply list_fmap_ext. intros _ i _. simpl. lia.
Qed.

Section golden.
Context `{LibM}.
Variables (offset extent : Z).

Lemma golden_loop_cons i rest pos acc :
  golden_loop extent (i :: rest) pos acc =
  pos' ← golden_advance extent i pos;
  x ← int_of_float pos';
  golden_loop extent rest (Float pos') (acc ++ [x]).
Proof.
  unfold golden_advance. cbn [golden_loop].
  destruct (float_pow phi (i + 1)) as [p|]; [|done].
  destruct (float_of_int extent) as [e|]; [|done].
  cbn [mbind result_bind].
  by destruct (float_truediv e p) as [q|].
Qed.

Lemma golden_advance_spec pos k f :
  holds_golden_sum offset extent pos k →
  golden_advance extent (Z.of_nat k) pos = Ok f ↔
  spec_golden_sum offset extent (S k) = Ok f.
Proof.
  intros Hpos. unfold golden_advance. cbn [spec_golden_sum].
  replace (Z.of_nat k + 1) with (Z.of_nat (S k)) by lia.
  destruct pos as [z|a]; simpl in Hpos.
  - destruct Hpos as [-> ->]. cbn [spec_golden_sum number_add_float].
    destruct (float_of_int offset) as [a|e0];
      destruct (float_pow phi (Z.of_nat 1)) as [p|e1];
      destruct (float_of_int extent) as [e|e2];
      cbn [mbind result_bind]; try (split; discriminate).
    + by destruct (float_truediv e p) as [q|].
    + destruct (float_truediv e p) as [q|]; cbn [mbind result_bind];
        split; discriminate.
  - rewrite Hpos. cbn [number_add_float].
    destruct (float_pow phi (Z.of_nat (S k))) as [p|]; [|done].
    destruct (float_of_int extent) as [e|]; [|done].
    cbn [mbind result_bind].
    by destruct (float_truediv e p) as [q|].
Qed.

Lemma mapM_cons_Ok {A B} (g : A → result B) x l ps :
  mapM g (x :: l) = Ok ps ↔
  ∃ y tl, g x = Ok y ∧ mapM g l = Ok tl ∧ ps = y :: tl.
Proof.
  cbn [mapM]. destruct (g x) as [y|]; simpl.
  - destruct (mapM g l) as [tl|]; simpl.
    + split; [intros [= <-]; by eexists _, _|by intros (? & ? & [= <-] & [= <-] & ->)].
    + split; [done|by intros (? & ? & _ & [=] & _)].
  - split; [done|by intros (? & ? & [=] & _)].
Qed.

Lemma golden_loop_spec n : ∀ k pos acc ps,
  holds_golden_sum offset extent pos k →
  golden_loop extent (Z.of_nat <$> seq k n) pos acc = Ok ps ↔
  ∃ tl, mapM (spec_golden_position offset extent) (seq (S k) n) = Ok tl ∧
        ps = acc ++ tl.
Proof.
  induction n as [|n IH]; intros k pos acc ps Hpos.
  - simpl. split.
    + intros [= <-]. exists []. by rewrite app_nil_r.
    + intros (tl & [= <-] & ->). by rewrite app_nil_r.
  - cbn [seq]. rewrite fmap_cons, golden_loop_cons.
    pose proof (λ f, golden_advance_spec pos k f Hpos) as Hadv.
    destruct (golden_advance extent (Z.of_nat k) pos) as [f|e] eqn:Ef.
    + assert (spec_golden_sum offset extent (S k) = Ok f) as Hs
        by (by apply Hadv).
      cbn [mbind result_bind].
      destruct (int_of_float f) as [x|e] eqn:Ex; cbn [mbind result_bind].
      * rewrite (IH (S k) (Float f) (acc ++ [x]) ps Hs). split.
        -- intros (tl & Hm & ->). exists (x :: tl).
           split; [|by rewrite <- app_assoc].
           apply mapM_cons_Ok. exists x, tl. split; [|done].
           unfold spec_golden_position. by rewrite Hs.
        -- intros (tl0 & Hm & ->).
           apply mapM_cons_Ok in Hm as (y & tl & Hy & Hm & ->).
           unfold spec_golden_position in Hy. rewrite Hs in Hy.
           cbn [mbind result_bind] in Hy. rewrite Ex in Hy.
           injection Hy as <-. exists tl. by rewrite <- app_assoc.
      * split; [done|]. intros (tl0 & Hm & _).
        apply mapM_cons_Ok in Hm as (y & tl & Hy & _).
        unfold spec_golden_position in Hy. rewrite Hs in Hy.
        cbn [mbind result_bind] in Hy. by rewrite Ex in Hy.
    + cbn [mbind result_bind]. split; [done|]. intros (tl0 & Hm & _).
      apply mapM_cons_Ok in Hm as (y & tl & Hy & _).
      unfold spec_golden_position in Hy.
      destruct (spec_golden_sum offset extent (S k)) as [f|]; [|done].
      by pose proof (proj2 (Hadv f) eq_refl).
Qed.

(** [golden_positions] returns exactly when every position of the
    specification is defined, and then returns these positions. *)
Lemma golden_positions_spec d ps :
  golden_positions offset extent d = Ok ps ↔
  mapM (spec_golden_position offset extent) (seq 1 (Z.to_nat d)) = Ok ps.
Proof.
  unfold golden_positions. rewrite py_range_ok by done.
  cbn [mbind result_bind]. rewrite range_items_from_zero.
  rewrite (golden_loop_spec _ 0%nat (Int offset) [] ps); [|done].
  split; [by intros (tl & -> & ->)|intros Hm; by exists ps].
Qed.
End golden.

Lemma golden_single_division `{LibM} :
  pow phi 1 = phi → golden_positions 0 1000 1 = Ok [618].
Proof.
  intros Hp. unfold golden_positions.
  change (py_range 0 1 1) with (Ok [0]). cbn [mbind result_bind].
  rewrite golden_loop_cons. unfold golden_advance, float_pow.
  change (float_of_int (0 + 1)) with (Ok 1%float). cbn [mbind result_bind].
  rewrite Hp. vm_compute. reflexivity.
Qed.

Lemma mapM_Ok_Forall2 {A B} (g : A → result B) l ps :
  mapM g l = Ok ps ↔ Forall2 (λ x y, g x = Ok y) l ps.
Proof.
  revert ps. induction l as [|x l IH]; intros ps.
  - simpl. split; [by intros [= <-]; constructor|by inversion 1].
  - rewrite mapM_cons_Ok. split.
    + intros (y & tl & Hy & Hm & ->). constructor; [done|by apply IH].
    + inversion 1 as [|? y ? tl Hy Hm]; subst. exists y, tl.
      split; [done|]. split; [by apply IH|done].
Qed.

Lemma spec_golden_sum_overflow `{LibM} offset extent j y s :
  float_of_int (Z.of_nat (S j)) = Ok y → is_inf (pow phi y) = true →
  spec_golden_sum offset extent (S j) ≠ Ok s.
Proof.
  intros Hy Hinf. cbn [spec_golden_sum].
  destruct (spec_golden_sum offset extent j) as [s0|];
    cbn [mbind result_bind]; [|done].
  unfold float_pow. rewrite Hy. cbn [mbind result_bind]. by rewrite Hinf.
Qed.

(** When [pow] overflows at [phi ** 1475], as a [pow] that is accurate to
    a unit in the last place does ([phi ^ 1475] is above the largest
    binary64 number), 1475 divisions or more raise. *)
Lemma golden_positions_overflow `{LibM} offset extent d :
  is_inf (pow phi 1475) = true → 1475 ≤ d →
  ¬ is_Ok (golden_positions offset extent d).
Proof.
  intros Hinf Hd [xs Hxs].
  apply golden_positions_spec, mapM_Ok_Forall2 in Hxs.
  assert (∃ j, j = 1474%nat) as [j Hj] by by eexists.
  assert (seq 1 (Z.to_nat d) !! j = Some (S j)) as Hi.
  { rewrite lookup_seq_lt by lia. done. }
  destruct (Forall2_lookup_l _ _ _ _ _ Hxs Hi) as (x & _ & Hx).
  unfold spec_golden_position in Hx.
  destruct (spec_golden_sum offset extent (S j)) as [s|] eqn:Hs; [|done].
  apply (spec_golden_sum_overflow offset extent j 1475%float s); [|done|done].
  subst j. vm_compute. reflexivity.
Qed.

(** C7. [draw_golden_ratio_grid] computes its positions as the
    specification writes them: the loop returns exactly when, for every
    [i = 1..divisions], the [i]-th position
    [int(offset + extent / phi^1 + ... + extent / phi^i)] is defined (the
    sum taken from left to right in binary64 arithmetic with the literal
    [phi = 1.618033988749895], and Python's exceptions on overflow), and
    then returns these positions in order, horizontally from [offset_x]
    with the width and vertically from [offset_y] with the height; the
    function then draws one vertical line at each horizontal position and
    one horizontal line at each vertical position.  With one division,
    width 1000 and offset 0 the single position is 618 (for a [pow] with
    [pow(x, 1) = x]). *)
Theorem golden_ratio_positions `{Cv2, LibM} w image img d c t alpha ox oy :
  heap w !! image = Some img →
  (∀ xs, golden_positions ox (cols img) d = Ok xs ↔
         Forall2 (λ i x, spec_golden_position ox (cols img) i = Ok x)
           (seq 1 (Z.to_nat d)) xs) ∧
  (∀ ys, golden_positions oy (rows img) d = Ok ys ↔
         Forall2 (λ i y, spec_golden_position oy (rows img) i = Ok y)
           (seq 1 (Z.to_nat d)) ys) ∧
  (∀ xs ys,
     golden_positions ox (cols img) d = Ok xs →
     golden_positions oy (rows img) d = Ok ys →
     ∃ l w',
       draw_golden_ratio_grid image d c t alpha ox oy w = (Ok l, w') ∧
       new_calls w w' =
         ((λ x, LineCall (pred l) (x, 0) (x, rows img) c t) <$> xs) ++
         ((λ y, LineCall (pred l) (0, y) (cols img, y) c t) <$> ys)) ∧
  (pow phi 1 = phi → golden_positions 0 1000 1 = Ok [618]).
Proof.
  intros E. split; [|split; [|split]].
  - intros xs. by rewrite golden_positions_spec, mapM_Ok_Forall2.
  - intros ys. by rewrite golden_positions_spec, mapM_Ok_Forall2.
  - intros xs ys Hxs Hys. eexists _, _. split.
    { by apply draw_golden_ratio_grid_run. }
    rewrite new_calls_blended. unfold cross_segments.
    rewrite segment_calls_app. unfold segment_calls.
    by rewrite <- !list_fmap_compose.
  - apply golden_single_division.
Qed.

Lemma golden_ratio_positions_witness :
  let img := solid 3 1000 [10; 20; 30] in
  let w := one_image img in
  (heap w !! 0%nat = Some img ∧
   @pow libm_reference phi 1 = phi) ∧
  @golden_positions libm_reference 0 1000 1 = Ok [618] ∧
  ∃ l w',
    @draw_golden_ratio_grid cv2_reference libm_reference 0%nat 1
      (0, 215, 255) 1 0.7 0 0 w = (Ok l, w') ∧
    new_calls w w' =
      [LineCall (pred l) (618, 0) (618, 3) (0, 215, 255) 1;
       LineCall (pred l) (0, 1) (1000, 1) (0, 215, 255) 1].
Proof.
  intros img w.
  assert (@pow libm_reference phi 1 = phi) as Hp by (vm_compute; reflexivity).
  split; [by split|].
  destruct (@golden_ratio_positions cv2_reference libm_reference w 0%nat img
              1 (0, 215, 255) 1 0.7%float 0 0 eq_refl)
    as (_ & _ & Hdraw & H618).
  split; [by apply H618|].
  apply (Hdraw [618] [1]); vm_compute; reflexivity.
Defined.

(** ** Arguments outside the documented ranges *)

Lemma div_negative a b : 1 ≤ a → b < 0 → a `div` b < 0.
Proof.
  intros Ha Hb.
  pose proof (Z.div_mod a b ltac:(lia)) as Hd.
  pose proof (Z.mod_neg_bound a b Hb) as Hm. nia.
Qed.

Lemma golden_positions_no_division `{LibM} offset extent d :
  d ≤ 0 → golden_positions offset extent d = Ok [].
Proof.
  intros Hd. unfold golden_positions. rewrite py_range_ok by done.
  rewrite range_items_from_zero.
  by replace (Z.to_nat d) with 0%nat by lia.
Qed.

Lemma draw_grid_zero_x `{Cv2} w image img gy c t alpha dashed dl dg ox oy :
  heap w !! image = Some img →
  draw_grid image 0 gy c t alpha dashed dl dg ox oy w =
  (Raise ValueError, World (heap w ++ [img; img]) (calls w)).
Proof.
  intros E. unfold draw_grid.
  rewrite (world_spare_nil w) at 1.
  rewrite (copy_step _ _ _ _ _ E). simpl.
  rewrite (shape_step _ _ _ _ _ E).
  rewrite (copy_step _ _ _ _ _ E).
  by rewrite (bind_raise _ _ _ _ _ (lift_raise _ _ _ (py_range_zero _ _))).
Qed.

Lemma draw_grid_zero_y `{Cv2} w image img gx c t alpha dashed dl dg ox oy :
  heap w !! image = Some img → gx ≠ 0 → (dashed = true → dl + dg ≠ 0) →
  (draw_grid image gx 0 c t alpha dashed dl dg ox oy w).1 = Raise ValueError.
Proof.
  intros E Hx Hp. unfold draw_grid.
  rewrite (world_spare_nil w) at 1.
  rewrite (copy_step _ _ _ _ _ E). simpl.
  rewrite (shape_step _ _ _ _ _ E).
  rewrite (copy_step _ _ _ _ _ E).
  rewrite (drawn_world_nil _ _ _ c t).
  rewrite (lift_step _ _ _ _ (py_range_ok _ _ _ Hx)).
  rewrite (draw_step _ _ _ _ _ _ _ _ _ (draws_vertical_loop _ c t _ _ _ _ _ _ _ Hp)).
  by rewrite (bind_raise _ _ _ _ _ (lift_raise _ _ _ (py_range_zero _ _))).
Qed.

(** C1, as the code has it.  The overlay operations do not validate their
    arguments.  A cell count of 0 makes [draw_adaptive_grid] fail with
    [ZeroDivisionError] before any buffer is allocated, and a cell size of
    0 makes [draw_grid] fail with the [ValueError] of [range], after the
    image was copied.  None of the other cases makes a call fail: with a
    negative cell size or cell count, with [divisions <= 0], with any
    [alpha] and with a guide-line percent outside [0, 100] (the product
    of image side and percent below [2 ^ 51] in absolute value) the call
    returns a buffer of the shape of the input. *)
Theorem overlays_do_not_validate `{Cv2, LibM} w image img (h wd ch : nat) c t :
  heap w !! image = Some img → has_shape h wd ch img →
  (∀ n alpha dashed dl dg ox oy,
     draw_adaptive_grid image 0 n c t alpha dashed dl dg ox oy w =
       (Raise ZeroDivisionError, w) ∧
     draw_adaptive_grid image n 0 c t alpha dashed dl dg ox oy w =
       (Raise ZeroDivisionError, w)) ∧
  (∀ gy alpha dashed dl dg ox oy,
     draw_grid image 0 gy c t alpha dashed dl dg ox oy w =
       (Raise ValueError, World (heap w ++ [img; img]) (calls w))) ∧
  (∀ gx alpha dashed dl dg ox oy,
     gx ≠ 0 → (dashed = true → 0 < dl ∧ 0 < dg) →
     (draw_grid image gx 0 c t alpha dashed dl dg ox oy w).1 =
       Raise ValueError) ∧
  (∀ gx gy alpha dashed dl dg ox oy,
     gx ≠ 0 → gy ≠ 0 → (dashed = true → 0 < dl ∧ 0 < dg) →
     returns_buffer (draw_grid image gx gy c t alpha dashed dl dg ox oy w)
       (has_shape h wd ch)) ∧
  (∀ nx ny alpha dashed dl dg ox oy,
     nx < 0 → ny < 0 → 1 ≤ rows img → 1 ≤ cols img →
     (dashed = true → 0 < dl ∧ 0 < dg) →
     returns_buffer
       (draw_adaptive_grid image nx ny c t alpha dashed dl dg ox oy w)
       (has_shape h wd ch)) ∧
  (∀ d alpha ox oy,
     d ≤ 0 →
     returns_buffer (draw_golden_ratio_grid image d c t alpha ox oy w)
       (has_shape h wd ch)) ∧
  (∀ alpha,
     returns_buffer (draw_rule_of_thirds image c t alpha w) (has_shape h wd ch) ∧
     returns_buffer (draw_center_lines image c t alpha w) (has_shape h wd ch)) ∧
  (∀ hp vp,
     Z.abs (rows img * hp) < 2 ^ 51 → Z.abs (cols img * vp) < 2 ^ 51 →
     returns_buffer (draw_guide_lines image hp vp c t w) (has_shape h wd ch)).
Proof.
  intros E Hs. split; [|split; [|split; [|split; [|split; [|split; [|split]]]]]].
  - intros n alpha dashed dl dg ox oy. split.
    + by eapply draw_adaptive_grid_zero_x.
    + by eapply draw_adaptive_grid_zero_y.
  - intros gy alpha dashed dl dg ox oy. by apply draw_grid_zero_x.
  - intros gx alpha dashed dl dg ox oy Hx Hd.
    eapply draw_grid_zero_y; [done|done|]. intros Ht. destruct (Hd Ht). lia.
  - intros gx gy alpha dashed dl dg ox oy Hx Hy Hd.
    rewrite (draw_grid_run _ _ _ _ _ _ _ _ _ _ _ _ _ E)
      by first [done|intros Ht; destruct (Hd Ht); lia].
    by apply blended_returns_shape.
  - intros nx ny alpha dashed dl dg ox oy Hx Hy Hr Hc Hd.
    rewrite (draw_adaptive_grid_run _ _ _ _ _ _ _ _ _ _ _ _ _ E) by lia.
    assert (cols img `div` nx < 0) by (by apply div_negative).
    assert (rows img `div` ny < 0) by (by apply div_negative).
    rewrite (draw_grid_run _ _ _ _ _ _ _ _ _ _ _ _ _ E)
      by first [lia|intros Ht; destruct (Hd Ht); lia].
    by apply blended_returns_shape.
  - intros d alpha ox oy Hd.
    rewrite (draw_golden_ratio_grid_run _ _ _ _ _ _ _ _ _ _ _ E
      (golden_positions_no_division _ _ _ Hd)
      (golden_positions_no_division _ _ _ Hd)).
    by apply blended_returns_shape.
  - intros alpha. split.
    + rewrite (draw_rule_of_thirds_run _ _ _ _ _ _ E).
      by apply blended_returns_shape.
    + rewrite (draw_center_lines_run _ _ _ _ _ _ E).
      by apply blended_returns_shape.
  - intros hp vp Hhp Hvp.
    rewrite (draw_guide_lines_run _ _ _ _ _ _ _ _ _ E
      (guide_pixel_quot _ _ Hhp) (guide_pixel_quot _ _ Hvp)).
    eexists _, _, _. split; [done|]. split; [apply drawn_world_buffer|].
    by apply draw_segments_shape.
Qed.

(** C1 as stated fails: on a 3 by 4 image, [draw_grid] with
    [alpha = 1.5], [draw_golden_ratio_grid] with [divisions = 0] and
    [draw_guide_lines] with a percent of 150 each return a buffer instead
    of failing. *)
Lemma invalid_arguments_are_not_refused :
  let w := one_image (solid 3 4 [10; 20; 30]) in
  let grid :=
    @draw_grid cv2_reference 0%nat 50 50 (255, 0, 0) 1 1.5 false 10 10 0 0 w in
  let golden :=
    @draw_golden_ratio_grid cv2_reference libm_reference 0%nat 0
      (255, 0, 0) 1 0.7 0 0 w in
  let guide := @draw_guide_lines cv2_reference 0%nat 150 50 (255, 0, 0) 1 w in
  (grid.1 = Ok 3%nat ∧ ¬ fails_before_allocating w grid) ∧
  (golden.1 = Ok 2%nat ∧ ¬ fails_before_allocating w golden) ∧
  (guide.1 = Ok 1%nat ∧ ¬ fails_before_allocating w guide).
Proof.
  intros w grid golden guide.
  assert (grid.1 = Ok 3%nat) as Hgrid by (vm_compute; reflexivity).
  assert (golden.1 = Ok 2%nat) as Hgolden by (vm_compute; reflexivity).
  assert (guide.1 = Ok 1%nat) as Hguide by (vm_compute; reflexivity).
  clearbody grid golden guide.
  repeat split; try done.
  - intros [e He]. rewrite He in Hgrid. discriminate.
  - intros [e He]. rewrite He in Hgolden. discriminate.
  - intros [e He]. rewrite He in Hguide. discriminate.
Qed.

Lemma overlays_do_not_validate_witness :
  let img := solid 3 4 [10; 20; 30] in
  let w := one_image img in
  let red := (0, 0, 255) in
  (heap w !! 0%nat = Some img ∧ has_shape 3 4 3 img) ∧
  @draw_adaptive_grid cv2_reference 0%nat 0 5 red 1 0.7 false 10 10 0 0 w =
    (Raise ZeroDivisionError, w) ∧
  @draw_grid cv2_reference 0%nat 0 50 red 1 0.7 false 10 10 0 0 w =
    (Raise ValueError, World (heap w ++ [img; img]) (calls w)) ∧
  returns_buffer
    (@draw_grid cv2_reference 0%nat (-5) (-5) red 1 1.5 false 10 10 0 0 w)
    (has_shape 3 4 3) ∧
  returns_buffer
    (@draw_adaptive_grid cv2_reference 0%nat (-2) (-2) red 1 0.7 false 10 10 0 0 w)
    (has_shape 3 4 3) ∧
  returns_buffer
    (@draw_golden_ratio_grid cv2_reference libm_reference 0%nat 0 red 1 0.7 0 0 w)
    (has_shape 3 4 3) ∧
  returns_buffer (@draw_guide_lines cv2_reference 0%nat 150 (-10) red 1 w)
    (has_shape 3 4 3).
Proof.
  intros img w red.
  assert (has_shape 3 4 3 img) as Hs.
  { split; [reflexivity|]. repeat constructor. }
  split; [by split|].
  destruct (@overlays_do_not_validate cv2_reference libm_reference w 0%nat img
              3%nat 4%nat 3%nat red 1 eq_refl Hs)
    as (Hcount & Hsize & _ & Hgrid & Hneg & Hgolden & _ & Hguide).
  split; [exact (proj1 (Hcount 5 0.7%float false 10 10 0 0))|].
  split; [exact (Hsize 50 0.7%float false 10 10 0 0)|].
  split; [apply Hgrid; [lia|lia|intros; discriminate]|].
  split; [apply Hneg; [lia|lia|vm_compute; congruence|vm_compute; congruence|
                       intros; discriminate]|].
  split; [apply Hgolden; lia|].
  apply Hguide; vm_compute; reflexivity.
Defined.

(** * Further properties of the code *)

(** ** Further properties of the drawing functions *)

Lemma thirds_bands n :
  0 ≤ n →
  0 ≤ n `div` 3 ≤ (2 * n) `div` 3 - n `div` 3 ∧
  (2 * n) `div` 3 - n `div` 3 ≤ n - (2 * n) `div` 3 ≤ n `div` 3 + 1.
Proof.
  intros Hn.
  pose proof (Z.div_mod n 3 ltac:(lia)).
  pose proof (Z.mod_pos_bound n 3 ltac:(lia)).
  pose proof (Z.div_mod (2 * n) 3 ltac:(lia)).
  pose proof (Z.mod_pos_bound (2 * n) 3 ltac:(lia)).
  lia.
Qed.

Lemma halves n : 0 ≤ n → 0 ≤ n `div` 2 ≤ n - n `div` 2 ≤ n `div` 2 + 1.
Proof.
  intros Hn.
  pose proof (Z.div_mod n 2 ltac:(lia)).
  pose proof (Z.mod_pos_bound n 2 ltac:(lia)).
  lia.
Qed.

(** X1. [draw_rule_of_thirds] makes exactly four [cv2.line] calls, all on
    the overlay buffer and in this order: the vertical lines at
    [x = width // 3] and [x = 2 * width // 3], then the horizontal lines
    at [y = height // 3] and [y = 2 * height // 3], each over the full
    height or width.  The three bands the two lines cut the width (and
    the height) into never get narrower from left to right (top to
    bottom) and differ by at most one pixel. *)
Theorem rule_of_thirds_lines `{Cv2} w image img c t alpha :
  heap w !! image = Some img →
  let W := cols img in
  let H := rows img in
  let w1 := W `div` 3 in
  let w2 := (2 * W) `div` 3 in
  let h1 := H `div` 3 in
  let h2 := (2 * H) `div` 3 in
  ∃ l w',
    draw_rule_of_thirds image c t alpha w = (Ok l, w') ∧
    new_calls w w' =
      [LineCall (pred l) (w1, 0) (w1, H) c t;
       LineCall (pred l) (w2, 0) (w2, H) c t;
       LineCall (pred l) (0, h1) (W, h1) c t;
       LineCall (pred l) (0, h2) (W, h2) c t] ∧
    (0 ≤ w1 ≤ w2 - w1 ∧ w2 - w1 ≤ W - w2 ≤ w1 + 1) ∧
    (0 ≤ h1 ≤ h2 - h1 ∧ h2 - h1 ≤ H - h2 ≤ h1 + 1).
Proof.
  intros E W H0 w1 w2 h1 h2. eexists _, _. split.
  { by apply draw_rule_of_thirds_run. }
  rewrite new_calls_blended. split; [done|]. split.
  - apply thirds_bands, cols_nonneg.
  - apply thirds_bands, rows_nonneg.
Qed.

Lemma rule_of_thirds_lines_witness :
  let img := solid 200 301 [10; 20; 30] in
  let w := one_image img in
  heap w !! 0%nat = Some img ∧
  ∃ l w',
    @draw_rule_of_thirds cv2_reference 0%nat (255, 255, 255) 1 0.7 w = (Ok l, w') ∧
    new_calls w w' =
      [LineCall (pred l) (100, 0) (100, 200) (255, 255, 255) 1;
       LineCall (pred l) (200, 0) (200, 200) (255, 255, 255) 1;
       LineCall (pred l) (0, 66) (301, 66) (255, 255, 255) 1;
       LineCall (pred l) (0, 133) (301, 133) (255, 255, 255) 1] ∧
    (0 ≤ 100 ≤ 200 - 100 ∧ 200 - 100 ≤ 301 - 200 ≤ 100 + 1) ∧
    (0 ≤ 66 ≤ 133 - 66 ∧ 133 - 66 ≤ 200 - 133 ≤ 66 + 1).
Proof.
  intros img w. split; [reflexivity|].
  exact (@rule_of_thirds_lines cv2_reference w 0%nat img (255, 255, 255) 1
           0.7%float eq_refl).
Defined.

(** X2. [draw_center_lines] makes exactly two [cv2.line] calls on the
    overlay buffer: the vertical line at [x = width // 2], then the
    horizontal line at [y = height // 2].  The part before a line is as
    large as the part from the line on, or one pixel smaller. *)
Theorem center_lines_halve_the_image `{Cv2} w image img c t alpha :
  heap w !! image = Some img →
  let W := cols img in
  let H := rows img in
  ∃ l w',
    draw_center_lines image c t alpha w = (Ok l, w') ∧
    new_calls w w' =
      [LineCall (pred l) (W `div` 2, 0) (W `div` 2, H) c t;
       LineCall (pred l) (0, H `div` 2) (W, H `div` 2) c t] ∧
    0 ≤ W `div` 2 ≤ W - W `div` 2 ≤ W `div` 2 + 1 ∧
    0 ≤ H `div` 2 ≤ H - H `div` 2 ≤ H `div` 2 + 1.
Proof.
  intros E W H0. eexists _, _. split.
  { by apply draw_center_lines_run. }
  rewrite new_calls_blended. split; [done|]. split.
  - apply halves, cols_nonneg.
  - apply halves, rows_nonneg.
Qed.

Lemma center_lines_halve_the_image_witness :
  let img := solid 200 301 [10; 20; 30] in
  let w := one_image img in
  heap w !! 0%nat = Some img ∧
  ∃ l w',
    @draw_center_lines cv2_reference 0%nat (255, 255, 255) 1 0.7 w = (Ok l, w') ∧
    new_calls w w' =
      [LineCall (pred l) (150, 0) (150, 200) (255, 255, 255) 1;
       LineCall (pred l) (0, 100) (301, 100) (255, 255, 255) 1] ∧
    0 ≤ 150 ≤ 301 - 150 ≤ 150 + 1 ∧
    0 ≤ 100 ≤ 200 - 100 ≤ 100 + 1.
Proof.
  intros img w. split; [reflexivity|].
  exact (@center_lines_halve_the_image cv2_reference w 0%nat img
           (255, 255, 255) 1 0.7%float eq_refl).
Defined.

(** ** Loops that draw nothing, loops that fail *)

Lemma for_each_raise {A} (xs : list A) (body : A → M ()) e w :
  xs ≠ [] → (∀ x, body x w = (Raise e, w)) → for_each xs body w = (Raise e, w).
Proof.
  intros Hne Hb. destruct xs as [|x xs]; [done|]. simpl.
  by rewrite (bind_raise _ _ _ _ _ (Hb x)).
Qed.

Lemma range_items_nonempty lo hi step :
  0 < step → lo < hi → range_items lo hi step ≠ [].
Proof.
  intros Hs Hl Hnil.
  assert (lo ∈ range_items lo hi step) as Hin.
  { apply elem_of_range_items; [done|]. exists 0. lia. }
  rewrite Hnil in Hin. by apply not_elem_of_nil in Hin.
Qed.

Lemma range_items_neg_bounds lo hi step x :
  step < 0 → x ∈ range_items lo hi step → hi < x ≤ lo.
Proof.
  intros Hs Hx. unfold range_items in Hx.
  apply list_elem_of_fmap in Hx as (k & -> & Hk).
  apply elem_of_seqZ in Hk. unfold range_len in Hk.
  destruct (0 <? step) eqn:E; [apply Z.ltb_lt in E; lia|].
  destruct (hi <? lo) eqn:Hl; [|lia].
  apply Z.ltb_lt in Hl.
  pose proof (Z.div_mod (lo - hi - 1) (- step) ltac:(lia)) as Hd.
  pose proof (Z.mod_pos_bound (lo - hi - 1) (- step) ltac:(lia)) as Hm.
  nia.
Qed.

Lemma bind_nil_all {A B} (f : A → list B) (xs : list A) :
  (∀ x, f x = []) → xs ≫= f = [].
Proof.
  intros Hf. induction xs as [|x xs IH]; csimpl; [done|].
  by rewrite Hf, IH.
Qed.

Section edge_runs.
Context `{Cv2}.

Lemma draws_no_items {A} a c t (body : A → M ()) :
  draws a c t (for_each [] body) [].
Proof. apply draws_nil. Qed.

(** [draw_grid] when neither loop has an item: nothing is drawn, whatever
    the dash pattern is. *)
Lemma draw_grid_no_lines w image img gx gy c t alpha dashed dl dg ox oy :
  heap w !! image = Some img → gx ≠ 0 → gy ≠ 0 →
  range_items ox (cols img) gx = [] → range_items oy (rows img) gy = [] →
  draw_grid image gx gy c t alpha dashed dl dg ox oy w =
    (Ok (S (length (heap w ++ [img]))), blended_world w img [img] c t alpha []).
Proof.
  intros E Hx Hy Hxs Hys. unfold draw_grid.
  rewrite (world_spare_nil w) at 1.
  rewrite (copy_step _ _ _ _ _ E). simpl.
  rewrite (shape_step _ _ _ _ _ E).
  rewrite (copy_step _ _ _ _ _ E).
  rewrite (drawn_world_nil _ _ _ c t).
  rewrite (lift_step _ _ _ _ (py_range_ok _ _ _ Hx)), Hxs.
  rewrite (draw_step _ _ _ _ _ _ _ _ _ (draws_no_items _ c t _)).
  rewrite (lift_step _ _ _ _ (py_range_ok _ _ _ Hy)), Hys.
  rewrite (draw_step _ _ _ _ _ _ _ _ _ (draws_no_items _ c t _)).
  by rewrite (bind_run _ _ _ _ _ (blend_step _ _ _ _ c t alpha _ E)).
Qed.

(** A dashed [draw_grid] whose dash length and gap add up to zero fails in
    the first loop that has an item, at [range(0, height, 0)] or
    [range(0, width, 0)]. *)
Lemma draw_grid_zero_period w image img gx gy c t alpha dl dg ox oy :
  heap w !! image = Some img → gx ≠ 0 → gy ≠ 0 → dl + dg = 0 →
  range_items ox (cols img) gx ≠ [] ∨ range_items oy (rows img) gy ≠ [] →
  draw_grid image gx gy c t alpha true dl dg ox oy w =
    (Raise ValueError, World (heap w ++ [img; img]) (calls w)).
Proof.
  intros E Hx Hy Hp Hne. unfold draw_grid.
  rewrite (world_spare_nil w) at 1.
  rewrite (copy_step _ _ _ _ _ E). simpl.
  rewrite (shape_step _ _ _ _ _ E).
  rewrite (copy_step _ _ _ _ _ E).
  rewrite (lift_step _ _ _ _ (py_range_ok _ _ _ Hx)).
  rewrite Hp.
  destruct (range_items ox (cols img) gx) as [|x xs] eqn:Hxs.
  - destruct Hne as [Hne|Hne]; [done|].
    rewrite (drawn_world_nil _ _ _ c t).
    rewrite (draw_step _ _ _ _ _ _ _ _ _ (draws_no_items _ c t _)).
    rewrite (lift_step _ _ _ _ (py_range_ok _ _ _ Hy)).
    rewrite <- (drawn_world_nil _ _ _ c t).
    erewrite bind_raise; [done|].
    apply for_each_raise; [done|]. intros y.
    by rewrite (bind_raise _ _ _ _ _ (lift_raise _ _ _ (py_range_zero _ _))).
  - erewrite bind_raise; [done|].
    apply for_each_raise; [done|]. intros x0.
    by rewrite (bind_raise _ _ _ _ _ (lift_raise _ _ _ (py_range_zero _ _))).
Qed.

(** A zero cell height fails whatever the dash pattern is. *)
Lemma draw_grid_zero_y_any w image img gx c t alpha dashed dl dg ox oy :
  heap w !! image = Some img → gx ≠ 0 →
  (draw_grid image gx 0 c t alpha dashed dl dg ox oy w).1 = Raise ValueError.
Proof.
  intros E Hx.
  destruct (decide (dashed = true ∧ dl + dg = 0)) as [[-> Hp]|Hn].
  - unfold draw_grid.
    rewrite (world_spare_nil w) at 1.
    rewrite (copy_step _ _ _ _ _ E). simpl.
    rewrite (shape_step _ _ _ _ _ E).
    rewrite (copy_step _ _ _ _ _ E).
    rewrite (lift_step _ _ _ _ (py_range_ok _ _ _ Hx)).
    rewrite Hp.
    destruct (range_items ox (cols img) gx) as [|x xs] eqn:Hxs.
    + rewrite (drawn_world_nil _ _ _ c t).
      rewrite (draw_step _ _ _ _ _ _ _ _ _ (draws_no_items _ c t _)).
      by rewrite (bind_raise _ _ _ _ _ (lift_raise _ _ _ (py_range_zero _ _))).
    + erewrite bind_raise; [done|].
      apply for_each_raise; [done|]. intros x0.
      by rewrite (bind_raise _ _ _ _ _ (lift_raise _ _ _ (py_range_zero _ _))).
  - eapply draw_grid_zero_y; [done|done|]. intros ->. naive_solver.
Qed.
End edge_runs.

(** The number of lines of a grid of [n] cells over an extent [e]. *)
Lemma cells_line_count e n :
  1 ≤ n ≤ e →
  let c := e `div` n in
  1 ≤ c ∧ n ≤ (e - 1) `div` c + 1 ∧ ((e - 1) `div` c + 1 = n ↔ e `mod` n = 0).
Proof.
  intros Hn c.
  pose proof (Z.div_mod e n ltac:(lia)) as Hd.
  pose proof (Z.mod_pos_bound e n ltac:(lia)) as Hm.
  fold c in Hd.
  assert (1 ≤ c) as Hc by (unfold c; apply Z.div_le_lower_bound; lia).
  split; [done|].
  destruct (decide (e `mod` n = 0)) as [H0|H0].
  - assert ((e - 1) `div` c = n - 1) as ->.
    { symmetry. apply (Z.div_unique_pos _ _ _ (c - 1)); lia. }
    split; [lia|]. split; [done|lia].
  - assert (n ≤ (e - 1) `div` c).
    { apply Z.div_le_lower_bound; lia. }
    split; [lia|]. split; lia.
Qed.

Lemma range_items_multiples hi step :
  range_items 0 hi step = (λ k, k * step) <$> seqZ 0 (range_len 0 hi step).
Proof. done. Qed.

Lemma range_len_from_zero hi step :
  0 < step → 0 < hi → range_len 0 hi step = (hi - 1) `div` step + 1.
Proof.
  intros Hs Hh. unfold range_len.
  apply Z.ltb_lt in Hs as ->. apply Z.ltb_lt in Hh as ->.
  by rewrite Z.sub_0_r.
Qed.

Lemma grid_segments_solid height width gx gy dl dg ox oy :
  grid_segments height width gx gy false dl dg ox oy =
  cross_segments height width (range_items ox width gx) (range_items oy height gy).
Proof.
  unfold grid_segments, grid_vertical, grid_horizontal, cross_segments.
  change (vertical_line height dl dg false)
    with (λ x : Z, [((x, 0), (x, height))]).
  change (horizontal_line width dl dg false)
    with (λ y : Z, [((0, y), (width, y))]).
  by rewrite (bind_singletons (λ x, ((x, 0), (x, height)))),
    (bind_singletons (λ y, ((0, y), (width, y)))).
Qed.

Lemma segment_calls_cross a c t height width xs ys :
  segment_calls a c t (cross_segments height width xs ys) =
  ((λ x, LineCall a (x, 0) (x, height) c t) <$> xs) ++
  ((λ y, LineCall a (0, y) (width, y) c t) <$> ys).
Proof.
  unfold cross_segments. rewrite segment_calls_app. unfold segment_calls.
  by rewrite <- !list_fmap_compose.
Qed.

(** X3. [draw_adaptive_grid] with more cells than pixels fails: a cell
    count above the width makes the cell width [width // num_cells_x]
    zero, and [range] raises [ValueError] after the image was copied
    twice and before anything is drawn; a cell count above the height
    (with a cell count of 1 to the width across) ends in [ValueError] as
    well, with solid and with dashed lines. *)
Theorem more_cells_than_pixels_fails `{Cv2} w image img nx ny c t alpha
    dashed dl dg ox oy :
  heap w !! image = Some img →
  (cols img < nx → ny ≠ 0 →
   draw_adaptive_grid image nx ny c t alpha dashed dl dg ox oy w =
     (Raise ValueError, World (heap w ++ [img; img]) (calls w))) ∧
  (1 ≤ nx ≤ cols img → rows img < ny →
   (draw_adaptive_grid image nx ny c t alpha dashed dl dg ox oy w).1 =
     Raise ValueError).
Proof.
  intros E. split.
  - intros Hx Hy. pose proof (cols_nonneg img).
    rewrite (draw_adaptive_grid_run _ _ _ _ _ _ _ _ _ _ _ _ _ E) by lia.
    rewrite Z.div_small by lia. by apply draw_grid_zero_x.
  - intros Hx Hy. pose proof (rows_nonneg img).
    rewrite (draw_adaptive_grid_run _ _ _ _ _ _ _ _ _ _ _ _ _ E) by lia.
    rewrite (Z.div_small (rows img)) by lia.
    eapply draw_grid_zero_y_any; [done|].
    assert (1 ≤ cols img `div` nx) by (apply Z.div_le_lower_bound; lia). lia.
Qed.

Lemma more_cells_than_pixels_fails_witness :
  let img := solid 30 40 [10; 20; 30] in
  let w := one_image img in
  heap w !! 0%nat = Some img ∧
  @draw_adaptive_grid cv2_reference 0%nat 50 10 (255, 0, 0) 1 0.7 false 10 10 0 0 w =
    (Raise ValueError, World (heap w ++ [img; img]) (calls w)) ∧
  (@draw_adaptive_grid cv2_reference 0%nat 10 50 (255, 0, 0) 1 0.7 true 10 10 0 0 w).1 =
    Raise ValueError.
Proof.
  intros img w. split; [reflexivity|].
  destruct (@more_cells_than_pixels_fails cv2_reference w 0%nat img 50 10
              (255, 0, 0) 1 0.7%float false 10 10 0 0 eq_refl) as [Hx _].
  destruct (@more_cells_than_pixels_fails cv2_reference w 0%nat img 10 50
              (255, 0, 0) 1 0.7%float true 10 10 0 0 eq_refl) as [_ Hy].
  split; [apply Hx; [vm_compute; reflexivity|lia]|].
  apply Hy; [vm_compute; split; congruence|vm_compute; reflexivity].
Defined.

(** X4. [draw_adaptive_grid] with solid lines, no offset and cell counts
    between 1 and the image side draws the vertical lines at the
    multiples of the cell width and the horizontal lines at the multiples
    of the cell height, vertical lines first.  There are at least
    [num_cells_x] vertical lines, and exactly [num_cells_x] if and only if
    [num_cells_x] divides the width; the same holds for the horizontal
    lines, [num_cells_y] and the height. *)
Theorem adaptive_grid_line_count `{Cv2} w image img nx ny c t alpha dl dg :
  heap w !! image = Some img →
  1 ≤ nx ≤ cols img → 1 ≤ ny ≤ rows img →
  let cell_width := cols img `div` nx in
  let cell_height := rows img `div` ny in
  ∃ l w' nv nh,
    draw_adaptive_grid image nx ny c t alpha false dl dg 0 0 w = (Ok l, w') ∧
    new_calls w w' =
      ((λ k, LineCall (pred l) (k * cell_width, 0) (k * cell_width, rows img) c t)
         <$> seqZ 0 nv) ++
      ((λ k, LineCall (pred l) (0, k * cell_height) (cols img, k * cell_height) c t)
         <$> seqZ 0 nh) ∧
    nx ≤ nv ∧ (nv = nx ↔ cols img `mod` nx = 0) ∧
    ny ≤ nh ∧ (nh = ny ↔ rows img `mod` ny = 0).
Proof.
  intros E Hx Hy cw chh.
  destruct (cells_line_count _ _ Hx) as (Hcw & Hnv & Hnv').
  destruct (cells_line_count _ _ Hy) as (Hch & Hnh & Hnh').
  fold cw in Hcw, Hnv, Hnv'. fold chh in Hch, Hnh, Hnh'.
  exists (S (length (heap w ++ [img]))),
    (blended_world w img [img] c t alpha
       (grid_segments (rows img) (cols img) cw chh false dl dg 0 0)),
    ((cols img - 1) `div` cw + 1), ((rows img - 1) `div` chh + 1).
  split.
  { rewrite (draw_adaptive_grid_run _ _ _ _ _ _ _ _ _ _ _ _ _ E) by lia.
    apply draw_grid_run; [done|fold cw; lia|fold chh; lia|done]. }
  split; [|done].
  rewrite new_calls_blended, grid_segments_solid, segment_calls_cross.
  rewrite !range_items_multiples, !range_len_from_zero by lia.
  by rewrite <- !list_fmap_compose.
Qed.

Lemma adaptive_grid_line_count_witness :
  let img := solid 6 100 [10; 20; 30] in
  let w := one_image img in
  (heap w !! 0%nat = Some img ∧ 1 ≤ 3 ≤ cols img ∧ 1 ≤ 2 ≤ rows img) ∧
  ∃ l w' nv nh,
    @draw_adaptive_grid cv2_reference 0%nat 3 2 (255, 0, 0) 1 0.7 false 10 10 0 0 w =
      (Ok l, w') ∧
    new_calls w w' =
      ((λ k, LineCall (pred l) (k * 33, 0) (k * 33, 6) (255, 0, 0) 1)
         <$> seqZ 0 nv) ++
      ((λ k, LineCall (pred l) (0, k * 3) (100, k * 3) (255, 0, 0) 1)
         <$> seqZ 0 nh) ∧
    3 ≤ nv ∧ (nv = 3 ↔ 100 `mod` 3 = 0) ∧
    2 ≤ nh ∧ (nh = 2 ↔ 6 `mod` 2 = 0).
Proof.
  intros img w. split.
  { split; [reflexivity|]. vm_compute. repeat split; congruence. }
  apply (@adaptive_grid_line_count cv2_reference w 0%nat img 3 2 (255, 0, 0) 1
           0.7%float 10 10 eq_refl); vm_compute; split; congruence.
Defined.

(** X5. [draw_grid] with positive cell sizes and offsets at or beyond the
    image sides draws nothing, whatever the dash pattern is: it makes no
    [cv2.line] call, the overlay buffer holds the image, and the returned
    buffer is the blend of the image with itself. *)
Theorem grid_beyond_the_image_draws_nothing `{Cv2} w image img gx gy c t alpha
    dashed dl dg ox oy :
  heap w !! image = Some img →
  1 ≤ gx → 1 ≤ gy → cols img ≤ ox → rows img ≤ oy →
  ∃ l w',
    draw_grid image gx gy c t alpha dashed dl dg ox oy w = (Ok l, w') ∧
    new_calls w w' = [] ∧
    heap w' !! pred l = Some img ∧
    heap w' !! l = Some (add_weighted img alpha img (1 - alpha) 0).
Proof.
  intros E Hx Hy Hox Hoy. eexists _, _. split.
  { apply draw_grid_no_lines; [done|lia|lia|..];
      apply range_items_empty; lia. }
  split; [by rewrite new_calls_blended|]. split.
  - apply (blended_world_overlay w img [img] c t alpha []).
  - apply (blended_world_result w img [img] c t alpha []).
Qed.

Lemma grid_beyond_the_image_draws_nothing_witness :
  let img := solid 6 8 [10; 20; 30] in
  let w := one_image img in
  (heap w !! 0%nat = Some img ∧ cols img ≤ 8 ∧ rows img ≤ 100) ∧
  ∃ l w',
    @draw_grid cv2_reference 0%nat 50 50 (255, 0, 0) 1 0.7 true 0 0 8 100 w =
      (Ok l, w') ∧
    new_calls w w' = [] ∧
    heap w' !! pred l = Some img ∧
    heap w' !! l = Some (@add_weighted cv2_reference img 0.7 img (1 - 0.7) 0).
Proof.
  intros img w. split.
  { split; [reflexivity|]. vm_compute. split; congruence. }
  apply (@grid_beyond_the_image_draws_nothing cv2_reference w 0%nat img 50 50
           (255, 0, 0) 1 0.7%float true 0 0 8 100 eq_refl);
    vm_compute; congruence.
Defined.

(** X6. [draw_grid] with negative cell sizes returns, and draws no line
    inside the image: [range] counts down from the offset, so every
    vertical segment lies at an [x] above the width and at most
    [offset_x], every horizontal one at a [y] above the height and at most
    [offset_y]; with offsets within the image sides nothing is drawn. *)
Theorem negative_cell_size_draws_outside `{Cv2} w image img gx gy c t alpha
    dashed dl dg ox oy :
  heap w !! image = Some img →
  gx < 0 → gy < 0 → (dashed = true → dl + dg ≠ 0) →
  ∃ l w',
    draw_grid image gx gy c t alpha dashed dl dg ox oy w = (Ok l, w') ∧
    (∀ call, call ∈ new_calls w w' →
       let '(x1, y1) := lc_p1 call in
       let '(x2, y2) := lc_p2 call in
       (x2 = x1 ∧ cols img < x1 ≤ ox) ∨ (y2 = y1 ∧ rows img < y1 ≤ oy)) ∧
    (ox ≤ cols img → oy ≤ rows img → new_calls w w' = []).
Proof.
  intros E Hx Hy Hp. eexists _, _. split.
  { apply draw_grid_run; [done|lia|lia|done]. }
  rewrite new_calls_blended. split.
  - intros call Hc.
    apply elem_of_segment_calls in Hc as (s & Hs & ->). simpl.
    apply elem_of_grid_segments in Hs as [(x & Hin & Hs)|(y & Hin & Hs)].
    + apply range_items_neg_bounds in Hin; [|done].
      apply elem_of_vertical_line in Hs as [[_ ->]|[_ (y & _ & ->)]];
        simpl; left; lia.
    + apply range_items_neg_bounds in Hin; [|done].
      apply elem_of_horizontal_line in Hs as [[_ ->]|[_ (x & _ & ->)]];
        simpl; right; lia.
  - intros Hox Hoy. unfold grid_segments, grid_vertical, grid_horizontal.
    by rewrite !range_items_neg_step by done.
Qed.

Lemma negative_cell_size_draws_outside_witness :
  let img := solid 6 8 [10; 20; 30] in
  let w := one_image img in
  heap w !! 0%nat = Some img ∧
  ∃ l w',
    @draw_grid cv2_reference 0%nat (-3) (-2) (255, 0, 0) 1 0.7 false 10 10 15 3 w =
      (Ok l, w') ∧
    (∀ call, call ∈ new_calls w w' →
       let '(x1, y1) := lc_p1 call in
       let '(x2, y2) := lc_p2 call in
       (x2 = x1 ∧ cols img < x1 ≤ 15) ∨ (y2 = y1 ∧ rows img < y1 ≤ 3)) ∧
    (15 ≤ cols img → 3 ≤ rows img → new_calls w w' = []).
Proof.
  intros img w. split; [reflexivity|].
  apply (@negative_cell_size_draws_outside cv2_reference w 0%nat img (-3) (-2)
           (255, 0, 0) 1 0.7%float false 10 10 15 3 eq_refl);
    [lia|lia|discriminate].
Defined.

(** X7. A dashed [draw_grid] whose dash length and gap add up to a
    negative number returns and draws nothing: [range(0, height, step)]
    with a negative step is empty, so no line has a dash, and the overlay
    buffer holds the image. *)
Theorem negative_dash_period_draws_nothing `{Cv2} w image img gx gy c t alpha
    dl dg ox oy :
  heap w !! image = Some img → gx ≠ 0 → gy ≠ 0 → dl + dg < 0 →
  ∃ l w',
    draw_grid image gx gy c t alpha true dl dg ox oy w = (Ok l, w') ∧
    new_calls w w' = [] ∧
    heap w' !! pred l = Some img.
Proof.
  intros E Hx Hy Hp.
  assert (grid_segments (rows img) (cols img) gx gy true dl dg ox oy = [])
    as Hnil.
  { unfold grid_segments, grid_vertical, grid_horizontal.
    rewrite !bind_nil_all; [done|..]; intros z.
    - unfold horizontal_line, horizontal_dashes. cbn [negb].
      rewrite range_items_neg_step; [done|done|apply cols_nonneg].
    - unfold vertical_line, vertical_dashes. cbn [negb].
      rewrite range_items_neg_step; [done|done|apply rows_nonneg]. }
  eexists _, _. split.
  { apply draw_grid_run; [done|done|done|lia]. }
  rewrite Hnil. split; [by rewrite new_calls_blended|].
  apply (blended_world_overlay w img [img] c t alpha []).
Qed.

Lemma negative_dash_period_draws_nothing_witness :
  let img := solid 6 8 [10; 20; 30] in
  let w := one_image img in
  heap w !! 0%nat = Some img ∧
  ∃ l w',
    @draw_grid cv2_reference 0%nat 3 2 (255, 0, 0) 1 0.7 true 2 (-5) 0 0 w =
      (Ok l, w') ∧
    new_calls w w' = [] ∧
    heap w' !! pred l = Some img.
Proof.
  intros img w. split; [reflexivity|].
  apply (@negative_dash_period_draws_nothing cv2_reference w 0%nat img 3 2
           (255, 0, 0) 1 0.7%float 2 (-5) 0 0 eq_refl); lia.
Defined.

(** X8. A dashed [draw_grid] (positive cell sizes) whose dash length and
    gap add up to zero raises [ValueError], from [range] with a zero step,
    as soon as one line is due, that is when [offset_x] is below the width
    or [offset_y] below the height; the image was copied twice by then and
    nothing is drawn.  It returns exactly when no line is due. *)
Theorem zero_dash_period_fails_when_a_line_is_due `{Cv2} w image img gx gy c t
    alpha dl dg ox oy :
  heap w !! image = Some img → 1 ≤ gx → 1 ≤ gy → dl + dg = 0 →
  (ox < cols img ∨ oy < rows img →
   draw_grid image gx gy c t alpha true dl dg ox oy w =
     (Raise ValueError, World (heap w ++ [img; img]) (calls w))) ∧
  (is_Ok (draw_grid image gx gy c t alpha true dl dg ox oy w).1 ↔
   cols img ≤ ox ∧ rows img ≤ oy).
Proof.
  intros E Hx Hy Hp.
  assert (ox < cols img ∨ oy < rows img →
    draw_grid image gx gy c t alpha true dl dg ox oy w =
      (Raise ValueError, World (heap w ++ [img; img]) (calls w))) as Hraise.
  { intros Hdue. apply draw_grid_zero_period; [done|lia|lia|done|].
    destruct Hdue; [left|right]; apply range_items_nonempty; lia. }
  split; [done|]. split.
  - intros [l Hl].
    destruct (decide (ox < cols img ∨ oy < rows img)) as [Hdue|Hn]; [|lia].
    rewrite (Hraise Hdue) in Hl. done.
  - intros [Hox Hoy]. eexists.
    rewrite (draw_grid_no_lines _ _ _ _ _ _ _ _ _ _ _ _ _ E);
      [done|lia|lia|..]; apply range_items_empty; lia.
Qed.

Lemma zero_dash_period_fails_when_a_line_is_due_witness :
  let img := solid 6 8 [10; 20; 30] in
  let w := one_image img in
  heap w !! 0%nat = Some img ∧
  @draw_grid cv2_reference 0%nat 3 2 (255, 0, 0) 1 0.7 true 5 (-5) 20 4 w =
    (Raise ValueError, World (heap w ++ [img; img]) (calls w)).
Proof.
  intros img w. split; [reflexivity|].
  apply (@zero_dash_period_fails_when_a_line_is_due cv2_reference w 0%nat img
           3 2 (255, 0, 0) 1 0.7%float 5 (-5) 20 4 eq_refl); [lia|lia|lia|].
  right. vm_compute. reflexivity.
Defined.

Lemma quot_100_bounds extent percent :
  0 ≤ extent →
  (0 ≤ percent ≤ 100 → 0 ≤ (extent * percent) `quot` 100 ≤ extent) ∧
  (percent ≤ 0 → (extent * percent) `quot` 100 ≤ 0) ∧
  (100 ≤ percent → extent ≤ (extent * percent) `quot` 100).
Proof.
  intros He. split; [|split].
  - intros Hp. rewrite Z.quot_div_nonneg by nia.
    split; [apply Z.div_pos; nia|].
    apply Z.div_le_upper_bound; nia.
  - intros Hp.
    replace (extent * percent) with (- (extent * - percent)) by lia.
    rewrite Z.quot_opp_l by lia.
    assert (0 ≤ (extent * - percent) `quot` 100); [|lia].
    rewrite Z.quot_div_nonneg by nia. apply Z.div_pos; nia.
  - intros Hp. rewrite Z.quot_div_nonneg by nia.
    apply Z.div_le_lower_bound; nia.
Qed.

(** X9. [draw_guide_lines] places its lines at
    [int(height * h_pos_percent / 100)] and [int(width * v_pos_percent /
    100)], which round toward zero for a percent of either sign (products
    below [2 ^ 51] in absolute value).  A percent in [0, 100] gives a
    position from 0 to the image side, 100 gives the side itself, one past
    the last row or column; a negative percent gives a position at or
    below 0 and a percent above 100 one at or beyond the side. *)
Theorem guide_lines_round_toward_zero `{Cv2} w image img hp vp c t :
  heap w !! image = Some img →
  Z.abs (rows img * hp) < 2 ^ 51 → Z.abs (cols img * vp) < 2 ^ 51 →
  let h_pixel := (rows img * hp) `quot` 100 in
  let v_pixel := (cols img * vp) `quot` 100 in
  ∃ l w',
    draw_guide_lines image hp vp c t w = (Ok l, w') ∧
    new_calls w w' =
      [LineCall l (0, h_pixel) (cols img, h_pixel) c t;
       LineCall l (v_pixel, 0) (v_pixel, rows img) c t] ∧
    ((0 ≤ hp ≤ 100 → 0 ≤ h_pixel ≤ rows img) ∧
     (hp ≤ 0 → h_pixel ≤ 0) ∧ (100 ≤ hp → rows img ≤ h_pixel)) ∧
    ((0 ≤ vp ≤ 100 → 0 ≤ v_pixel ≤ cols img) ∧
     (vp ≤ 0 → v_pixel ≤ 0) ∧ (100 ≤ vp → cols img ≤ v_pixel)).
Proof.
  intros E Hh Hv h_pixel v_pixel. eexists _, _. split.
  { apply (draw_guide_lines_run _ _ _ _ _ _ _ _ _ E
      (guide_pixel_quot _ _ Hh) (guide_pixel_quot _ _ Hv)). }
  split; [by rewrite new_calls_drawn|]. split.
  - apply quot_100_bounds, rows_nonneg.
  - apply quot_100_bounds, cols_nonneg.
Qed.

Lemma guide_lines_round_toward_zero_witness :
  let img := solid 150 250 [10; 20; 30] in
  let w := one_image img in
  heap w !! 0%nat = Some img ∧
  ∃ l w',
    @draw_guide_lines cv2_reference 0%nat (-1) 100 (255, 0, 0) 1 w = (Ok l, w') ∧
    new_calls w w' =
      [LineCall l (0, -1) (250, -1) (255, 0, 0) 1;
       LineCall l (250, 0) (250, 150) (255, 0, 0) 1].
Proof.
  intros img w. split; [reflexivity|].
  destruct (@guide_lines_round_toward_zero cv2_reference w 0%nat img (-1) 100
              (255, 0, 0) 1 eq_refl) as (l & w' & Hrun & Hcalls & _);
    [vm_compute; reflexivity|vm_compute; reflexivity|].
  exists l, w'. split; [exact Hrun|exact Hcalls].
Defined.

(** ** Pixels of the overlay and of the blend *)

Section pixels.
Context `{Cv2}.

Lemma draw_segments_cons c t img s ss :
  draw_segments c t img (s :: ss) =
  draw_segments c t (draw_line img s.1 s.2 c t) ss.
Proof. done. Qed.

Lemma pixel_at_draw_segments c t segs : ∀ img x y,
  pixel_at (draw_segments c t img segs) x y =
  (λ px, if existsb (λ s : segment,
                line_covers (rows img) (cols img) s.1 s.2 t
                  (Z.of_nat x) (Z.of_nat y)) segs
         then paint_pixel c px else px) <$> pixel_at img x y.
Proof.
  induction segs as [|s ss IH]; intros img x y.
  - simpl. by destruct (pixel_at img x y).
  - rewrite draw_segments_cons, IH, pixel_at_draw_line.
    rewrite draw_line_rows, draw_line_cols.
    destruct (pixel_at img x y) as [px|]; [|done]. simpl. f_equal.
    repeat case_match; simpl in *; try done; try congruence.
    apply paint_pixel_idemp.
Qed.

Lemma pixel_at_add_weighted a alpha b beta gamma x y :
  pixel_at (add_weighted a alpha b beta gamma) x y =
  u ← pixel_at a x y; v ← pixel_at b x y;
  Some (zip_with (λ p q, blend_channel p alpha q beta gamma) u v).
Proof.
  unfold pixel_at, add_weighted. rewrite lookup_zip_with.
  destruct (a !! y) as [ra|]; simpl; [|done].
  destruct (b !! y) as [rb|]; simpl.
  - rewrite lookup_zip_with. by destruct (ra !! x).
  - by destruct (ra !! x).
Qed.

Lemma covered_by_segment_calls a c t segs h w x y :
  covered_by (segment_calls a c t segs) h w x y =
  existsb (λ s : segment, line_covers h w s.1 s.2 t (Z.of_nat x) (Z.of_nat y)) segs.
Proof.
  unfold covered_by, segment_calls.
  induction segs as [|s ss IH]; [done|]. csimpl. by rewrite IH.
Qed.

Lemma blended_returns_blend w img spare c t alpha segs :
  returns_blend w img c alpha
    (Ok (S (length (heap w ++ spare))), blended_world w img spare c t alpha segs).
Proof.
  eexists _, _, _. split; [done|]. split; [apply blended_world_result|].
  intros x y. rewrite new_calls_blended, covered_by_segment_calls.
  rewrite pixel_at_add_weighted, pixel_at_draw_segments.
  by destruct (pixel_at img x y).
Qed.
End pixels.

(** X10. The buffer an overlay function returns ([draw_grid],
    [draw_adaptive_grid], [draw_golden_ratio_grid], [draw_rule_of_thirds],
    [draw_center_lines]) has the pixels of the input and no others, and
    each is [cv2.addWeighted] of an overlay pixel and the input pixel with
    the weights [alpha] and [1 - alpha]: the overlay pixel is the line
    colour where one of the [cv2.line] calls of the run covers the pixel,
    and the input pixel elsewhere. *)
Theorem overlay_pixels_are_blended `{Cv2, LibM} w image img c t alpha :
  heap w !! image = Some img →
  (∀ gx gy dashed dl dg ox oy,
     gx ≠ 0 → gy ≠ 0 → (dashed = true → dl + dg ≠ 0) →
     returns_blend w img c alpha
       (draw_grid image gx gy c t alpha dashed dl dg ox oy w)) ∧
  (∀ nx ny dashed dl dg ox oy,
     1 ≤ nx ≤ cols img → 1 ≤ ny ≤ rows img →
     (dashed = true → dl + dg ≠ 0) →
     returns_blend w img c alpha
       (draw_adaptive_grid image nx ny c t alpha dashed dl dg ox oy w)) ∧
  (∀ d ox oy,
     is_Ok (golden_positions ox (cols img) d) →
     is_Ok (golden_positions oy (rows img) d) →
     returns_blend w img c alpha
       (draw_golden_ratio_grid image d c t alpha ox oy w)) ∧
  returns_blend w img c alpha (draw_rule_of_thirds image c t alpha w) ∧
  returns_blend w img c alpha (draw_center_lines image c t alpha w).
Proof.
  intros E. split; [|split; [|split; [|split]]].
  - intros gx gy dashed dl dg ox oy Hx Hy Hd.
    rewrite (draw_grid_run _ _ _ _ _ _ _ _ _ _ _ _ _ E) by done.
    apply blended_returns_blend.
  - intros nx ny dashed dl dg ox oy Hx Hy Hd.
    rewrite (draw_adaptive_grid_run _ _ _ _ _ _ _ _ _ _ _ _ _ E) by lia.
    assert (1 ≤ cols img `div` nx) by (apply Z.div_le_lower_bound; lia).
    assert (1 ≤ rows img `div` ny) by (apply Z.div_le_lower_bound; lia).
    rewrite (draw_grid_run _ _ _ _ _ _ _ _ _ _ _ _ _ E) by first [lia|done].
    apply blended_returns_blend.
  - intros d ox oy [xs Hxs] [ys Hys].
    rewrite (draw_golden_ratio_grid_run _ _ _ _ _ _ _ _ _ _ _ E Hxs Hys).
    apply blended_returns_blend.
  - rewrite (draw_rule_of_thirds_run _ _ _ _ _ _ E).
    apply blended_returns_blend.
  - rewrite (draw_center_lines_run _ _ _ _ _ _ E).
    apply blended_returns_blend.
Qed.

Lemma overlay_pixels_are_blended_witness :
  let img := solid 6 8 [10; 20; 30] in
  let w := one_image img in
  let red := (0, 0, 255) in
  heap w !! 0%nat = Some img ∧
  @returns_blend cv2_reference w img red 0.7
    (@draw_grid cv2_reference 0%nat 3 2 red 1 0.7 true 2 1 1 0 w) ∧
  @returns_blend cv2_reference w img red 0.7
    (@draw_adaptive_grid cv2_reference 0%nat 4 3 red 1 0.7 false 10 10 0 0 w) ∧
  @returns_blend cv2_reference w img red 0.7
    (@draw_golden_ratio_grid cv2_reference libm_reference 0%nat 2 red 1 0.7 0 0 w) ∧
  @returns_blend cv2_reference w img red 0.7
    (@draw_rule_of_thirds cv2_reference 0%nat red 1 0.7 w) ∧
  @returns_blend cv2_reference w img red 0.7
    (@draw_center_lines cv2_reference 0%nat red 1 0.7 w).
Proof.
  intros img w red. split; [reflexivity|].
  destruct (@overlay_pixels_are_blended cv2_reference libm_reference w 0%nat
              img red 1 0.7%float eq_refl)
    as (Hgrid & Hcount & Hgolden & Hthirds & Hcenter).
  split; [apply Hgrid; [lia|lia|intros _; lia]|].
  split; [apply Hcount; [vm_compute; split; congruence|
                         vm_compute; split; congruence|intros; discriminate]|].
  split; [apply (Hgolden 2 0 0); [exists [4; 8]; reflexivity|
                                  exists [3; 6]; reflexivity]|].
  split; [exact Hthirds|exact Hcenter].
Defined.

(** ** Overlays applied one after the other *)

Lemma has_shape_cols_le h w c img : has_shape h w c img → cols img ≤ Z.of_nat w.
Proof.
  intros [Hh Hr]. destruct img as [|r img]; simpl; [lia|].
  inversion Hr as [|? ? [Hw _] _]. lia.
Qed.

Section chain.
Context `{Cv2}.

Lemma blended_shape w img spare c t alpha segs h wd ch :
  has_shape h wd ch img →
  ∃ out,
    heap (blended_world w img spare c t alpha segs)
      !! S (length (heap w ++ spare)) = Some out ∧
    has_shape h wd ch out.
Proof.
  intros Hs. eexists. split; [apply blended_world_result|].
  apply add_weighted_shape; [|done]. by apply draw_segments_shape.
Qed.
End chain.

(** X11. Overlays applied one after the other, as the app applies them:
    [draw_rule_of_thirds] on the image, [draw_center_lines] on its result
    and [draw_guide_lines] on the result of that.  Each call returns a
    buffer of its own, of the shape of the image; the image and the
    earlier results hold after the last call what they held before it,
    and so does every other buffer of the store. *)
Theorem overlays_chain `{Cv2} w image img (h wd ch : nat) c1 c2 c3 t alpha hp vp :
  heap w !! image = Some img → has_shape h wd ch img →
  0 ≤ hp ≤ 100 → 0 ≤ vp ≤ 100 →
  Z.of_nat h < 2 ^ 44 → Z.of_nat wd < 2 ^ 44 →
  ∃ l1 l2 l3 w1 w2 w3 out1 out2 out3,
    draw_rule_of_thirds image c1 t alpha w = (Ok l1, w1) ∧
    draw_center_lines l1 c2 t alpha w1 = (Ok l2, w2) ∧
    draw_guide_lines l2 hp vp c3 t w2 = (Ok l3, w3) ∧
    NoDup [image; l1; l2; l3] ∧
    heap w1 !! l1 = Some out1 ∧ heap w2 !! l2 = Some out2 ∧
    heap w3 !! image = Some img ∧
    heap w3 !! l1 = Some out1 ∧
    heap w3 !! l2 = Some out2 ∧
    heap w3 !! l3 = Some out3 ∧
    has_shape h wd ch out1 ∧ has_shape h wd ch out2 ∧ has_shape h wd ch out3 ∧
    ∀ a, (a < length (heap w))%nat → heap w3 !! a = heap w !! a.
Proof.
  intros E Hs Hhp Hvp Hh Hw.
  pose proof (lookup_lt_Some _ _ _ E) as Hlt.
  (* first overlay *)
  pose proof (draw_rule_of_thirds_run w image img c1 t alpha E) as R1.
  set (segs1 := cross_segments _ _ _ _) in R1.
  set (w1 := blended_world w img [] c1 t alpha segs1) in R1.
  set (l1 := S (length (heap w ++ []))) in R1.
  destruct (blended_shape w img [] c1 t alpha segs1 h wd ch Hs)
    as (out1 & E1 & Hs1).
  fold w1 l1 in E1.
  (* second overlay *)
  pose proof (draw_center_lines_run w1 l1 out1 c2 t alpha E1) as R2.
  set (segs2 := cross_segments _ _ _ _) in R2.
  set (w2 := blended_world w1 out1 [] c2 t alpha segs2) in R2.
  set (l2 := S (length (heap w1 ++ []))) in R2.
  destruct (blended_shape w1 out1 [] c2 t alpha segs2 h wd ch Hs1)
    as (out2 & E2 & Hs2).
  fold w2 l2 in E2.
  (* guide lines *)
  assert (0 ≤ rows out2 < 2 ^ 44) as Hr2.
  { rewrite (has_shape_rows _ _ _ _ Hs2). lia. }
  assert (0 ≤ cols out2 < 2 ^ 44) as Hc2.
  { pose proof (has_shape_cols_le _ _ _ _ Hs2). pose proof (cols_nonneg out2). lia. }
  pose proof (draw_guide_lines_run w2 l2 out2 hp vp c3 t _ _ E2
                (guide_pixel_floor _ _ Hr2 Hhp) (guide_pixel_floor _ _ Hc2 Hvp)) as R3.
  set (segs3 := [_; _]) in R3.
  set (w3 := drawn_world w2 out2 [] c3 t segs3) in R3.
  set (l3 := length (heap w2 ++ [])) in R3.
  (* sizes of the stores *)
  assert (length (heap w1) = (length (heap w) + 2)%nat) as Hn1.
  { unfold w1, blended_world. simpl. rewrite !length_app. simpl. lia. }
  assert (length (heap w2) = (length (heap w1) + 2)%nat) as Hn2.
  { unfold w2, blended_world. simpl. rewrite !length_app. simpl. lia. }
  assert (l1 = S (length (heap w))) as Hl1.
  { unfold l1. by rewrite app_nil_r. }
  assert (l2 = S (length (heap w1))) as Hl2.
  { unfold l2. by rewrite app_nil_r. }
  assert (l3 = length (heap w2)) as Hl3.
  { unfold l3. by rewrite app_nil_r. }
  assert (∀ a, (a < length (heap w1))%nat → heap w3 !! a = heap w1 !! a) as Hold1.
  { intros a Ha. unfold w3. rewrite drawn_world_old by lia.
    unfold w2. by rewrite blended_world_old. }
  assert (∀ a, (a < length (heap w))%nat → heap w3 !! a = heap w !! a) as Hold.
  { intros a Ha. rewrite Hold1 by lia. unfold w1. by rewrite blended_world_old. }
  exists l1, l2, l3, w1, w2, w3, out1, out2,
    (draw_segments c3 t out2 segs3).
  split; [exact R1|]. split; [exact R2|]. split; [exact R3|].
  split.
  { repeat constructor; rewrite ?elem_of_cons, ?elem_of_nil; lia. }
  split; [exact E1|]. split; [exact E2|].
  split; [by rewrite Hold|].
  split; [rewrite Hold1 by lia; exact E1|].
  split.
  { unfold w3. rewrite drawn_world_old by lia. exact E2. }
  split; [apply drawn_world_buffer|].
  split; [done|]. split; [done|]. split; [by apply draw_segments_shape|done].
Qed.

Lemma overlays_chain_witness :
  let img := solid 6 8 [10; 20; 30] in
  let w := one_image img in
  (heap w !! 0%nat = Some img ∧ has_shape 6 8 3 img) ∧
  ∃ l1 l2 l3 w1 w2 w3 out1 out2 out3,
    @draw_rule_of_thirds cv2_reference 0%nat (255, 255, 255) 1 0.7 w = (Ok l1, w1) ∧
    @draw_center_lines cv2_reference l1 (0, 0, 255) 1 0.7 w1 = (Ok l2, w2) ∧
    @draw_guide_lines cv2_reference l2 50 25 (255, 0, 0) 1 w2 = (Ok l3, w3) ∧
    NoDup [0%nat; l1; l2; l3] ∧
    heap w1 !! l1 = Some out1 ∧ heap w2 !! l2 = Some out2 ∧
    heap w3 !! 0%nat = Some img ∧
    heap w3 !! l1 = Some out1 ∧
    heap w3 !! l2 = Some out2 ∧
    heap w3 !! l3 = Some out3 ∧
    has_shape 6 8 3 out1 ∧ has_shape 6 8 3 out2 ∧ has_shape 6 8 3 out3 ∧
    ∀ a, (a < length (heap w))%nat → heap w3 !! a = heap w !! a.
Proof.
  intros img w.
  assert (has_shape 6 8 3 img) as Hs.
  { split; [reflexivity|]. repeat constructor. }
  split; [by split|].
  apply (@overlays_chain cv2_reference w 0%nat img 6%nat 8%nat 3%nat
           (255, 255, 255) (0, 0, 255) (255, 0, 0) 1 0.7%float 50 25 eq_refl Hs);
    first [lia|vm_compute; reflexivity].
Defined.

(** ** More on the golden-ratio grid *)

Lemma golden_positions_length `{LibM} offset extent d xs :
  golden_positions offset extent d = Ok xs → length xs = Z.to_nat d.
Proof.
  intros Hxs. apply golden_positions_spec, mapM_Ok_Forall2 in Hxs.
  apply Forall2_length in Hxs. by rewrite length_seq in Hxs.
Qed.

(** X12. When [pow] overflows at [phi ** 1475], [draw_golden_ratio_grid]
    with 1475 divisions or more fails on every image and with every
    offset: it raises while it computes the horizontal positions, after
    the image was copied once and before anything is drawn. *)
Theorem golden_ratio_grid_fails_from_1475_divisions `{Cv2, LibM} w image img d
    c t alpha ox oy :
  heap w !! image = Some img →
  is_inf (pow phi 1475) = true → 1475 ≤ d →
  ∃ e,
    draw_golden_ratio_grid image d c t alpha ox oy w =
      (Raise e, World (heap w ++ [img]) (calls w)).
Proof.
  intros E Hinf Hd.
  destruct (golden_positions ox (cols img) d) as [xs|e] eqn:Hx.
  - exfalso. apply (golden_positions_overflow ox (cols img) d Hinf Hd).
    by exists xs.
  - exists e. apply draw_golden_ratio_grid_raise; [done|by left].
Qed.

Lemma golden_ratio_grid_fails_from_1475_divisions_witness :
  let img := solid 3 4 [10; 20; 30] in
  let w := one_image img in
  (heap w !! 0%nat = Some img ∧
   is_inf (@pow libm_reference phi 1475) = true) ∧
  ∃ e,
    @draw_golden_ratio_grid cv2_reference libm_reference 0%nat 2000
      (0, 215, 255) 1 0.7 0 0 w =
      (Raise e, World (heap w ++ [img]) (calls w)).
Proof.
  intros img w.
  assert (is_inf (@pow libm_reference phi 1475) = true) as Hinf
    by (vm_compute; reflexivity).
  split; [by split|].
  apply (@golden_ratio_grid_fails_from_1475_divisions cv2_reference
           libm_reference w 0%nat img 2000 (0, 215, 255) 1 0.7%float 0 0
           eq_refl Hinf).
  lia.
Defined.

(** X13. When [draw_golden_ratio_grid] returns it has drawn [divisions]
    vertical lines and then [divisions] horizontal lines, each over the
    full height or width; with [divisions <= 0] it draws nothing, and the
    overlay buffer holds the image. *)
Theorem golden_ratio_grid_line_count `{Cv2, LibM} w image img d c t alpha ox oy :
  heap w !! image = Some img →
  is_Ok (golden_positions ox (cols img) d) →
  is_Ok (golden_positions oy (rows img) d) →
  ∃ l w' xs ys,
    draw_golden_ratio_grid image d c t alpha ox oy w = (Ok l, w') ∧
    new_calls w w' =
      ((λ x, LineCall (pred l) (x, 0) (x, rows img) c t) <$> xs) ++
      ((λ y, LineCall (pred l) (0, y) (cols img, y) c t) <$> ys) ∧
    length xs = Z.to_nat d ∧ length ys = Z.to_nat d ∧
    (d ≤ 0 → new_calls w w' = [] ∧ heap w' !! pred l = Some img).
Proof.
  intros E [xs Hxs] [ys Hys].
  pose proof (golden_positions_length _ _ _ _ Hxs) as Lx.
  pose proof (golden_positions_length _ _ _ _ Hys) as Ly.
  eexists _, _, xs, ys. split.
  { by apply draw_golden_ratio_grid_run. }
  rewrite new_calls_blended.
  split.
  { unfold cross_segments. rewrite segment_calls_app. unfold segment_calls.
    by rewrite <- !list_fmap_compose. }
  split; [done|]. split; [done|]. intros Hd.
  assert (xs = []) as -> by (apply nil_length_inv; lia).
  assert (ys = []) as -> by (apply nil_length_inv; lia).
  split; [done|].
  apply (blended_world_overlay w img [] c t alpha []).
Qed.

Lemma golden_ratio_grid_line_count_witness :
  let img := solid 6 8 [10; 20; 30] in
  let w := one_image img in
  heap w !! 0%nat = Some img ∧
  ∃ l w' xs ys,
    @draw_golden_ratio_grid cv2_reference libm_reference 0%nat 2
      (0, 215, 255) 1 0.7 0 0 w = (Ok l, w') ∧
    new_calls w w' =
      ((λ x, LineCall (pred l) (x, 0) (x, rows img) (0, 215, 255) 1) <$> xs) ++
      ((λ y, LineCall (pred l) (0, y) (cols img, y) (0, 215, 255) 1) <$> ys) ∧
    length xs = Z.to_nat 2 ∧ length ys = Z.to_nat 2 ∧
    (2 ≤ 0 → new_calls w w' = [] ∧ heap w' !! pred l = Some img).
Proof.
  intros img w. split; [reflexivity|].
  apply (@golden_ratio_grid_line_count cv2_reference libm_reference w 0%nat
           img 2 (0, 215, 255) 1 0.7%float 0 0 eq_refl);
    [exists [4; 8]; reflexivity|exists [3; 6]; reflexivity].
Defined.

(** ** Colour order *)

Section colour_and_app.
Import stdpp.strings stdpp.gmap.
Local Open Scope Z_scope.

Lemma swap_red_blue_twice b g r :
  swap_red_blue (swap_red_blue [b; g; r]) = [b; g; r].
Proof. done. Qed.

Lemma has_shape_channels h w c img :
  has_shape h w c img → (1 ≤ h)%nat → (1 ≤ w)%nat → channels img = Z.of_nat c.
Proof.
  intros [Hh Hr] H1 H2. destruct img as [|r img]; simpl in *; [lia|].
  inversion Hr as [|? ? [Hw Hpx] _]. subst.
  destruct r as [|px r]; simpl in *; [lia|].
  inversion Hpx as [|? ? Hc _]. by rewrite Hc.
Qed.

Lemma has_shape_map h w c c' (f : pixel → pixel) img :
  (∀ px, length px = c → length (f px) = c') →
  has_shape h w c img → has_shape h w c' (map (map f) img).
Proof.
  intros Hf [Hh Hr]. split; [by rewrite length_map|].
  apply Forall_fmap. eapply Forall_impl; [exact Hr|].
  intros r [Hw Hpx]. simpl. split; [by rewrite length_map|].
  apply Forall_fmap. eapply Forall_impl; [exact Hpx|]. intros px. apply Hf.
Qed.

Lemma length_three {A} (l : list A) :
  length l = 3%nat → ∃ a b c, l = [a; b; c].
Proof.
  destruct l as [|a [|b [|c [|d l]]]]; simpl; try lia. eauto.
Qed.

Lemma length_four {A} (l : list A) :
  length l = 4%nat → ∃ a b c d, l = [a; b; c; d].
Proof.
  destruct l as [|a [|b [|c [|d [|e l]]]]]; simpl; try lia. eauto.
Qed.

Lemma map_map_id_shape h w c (f : pixel → pixel) img :
  has_shape h w c img → (∀ px, length px = c → f px = px) →
  map (map f) img = img.
Proof.
  intros [_ Hr] Hf. induction Hr as [|r img [_ Hpx] _ IH]; [done|].
  simpl. f_equal; [|exact IH].
  induction Hpx as [|px r Hpx _ IH']; [done|]. simpl. by rewrite Hf, IH'.
Qed.

Lemma map_map_compose {A B C} (f : B → C) (g : A → B) (ll : list (list A)) :
  map (map f) (map (map g) ll) = map (map (f ∘ g)) ll.
Proof.
  rewrite map_map. apply map_ext. intros l. apply map_map.
Qed.

Lemma swap_swap_image h w img :
  has_shape h w 3 img →
  map (map swap_red_blue) (map (map swap_red_blue) img) = img.
Proof.
  intros Hs. rewrite map_map_compose.
  apply (map_map_id_shape _ _ _ _ _ Hs). intros px Hpx.
  by apply length_three in Hpx as (b & g & r & ->).
Qed.

(** X14. [cv2_to_pil] and [pil_to_cv2] are inverse to each other on
    images of three channels: a BGR array converted to a PIL image and
    back is the array itself, and an RGB PIL image converted to an array
    and back is the image itself. *)
Theorem cv2_pil_round_trip (h w : nat) img :
  has_shape h w 3 img → (1 ≤ h)%nat → (1 ≤ w)%nat →
  (∃ p, cv2_to_pil (Array3 img) = Some p ∧ im_mode p = RGB ∧
        pil_to_cv2 p = Some (Array3 img)) ∧
  (∃ a, pil_to_cv2 (PilImage RGB (Array3 img)) = Some (Array3 a) ∧
        cv2_to_pil (Array3 a) = Some (PilImage RGB (Array3 img))).
Proof.
  intros Hs Hh Hw.
  pose proof (has_shape_channels _ _ _ _ Hs Hh Hw) as Hc.
  assert (has_shape h w 3 (map (map swap_red_blue) img)) as Hs'.
  { apply (has_shape_map _ _ 3); [|done]. intros px Hpx.
    by apply length_three in Hpx as (b & g & r & ->). }
  pose proof (has_shape_channels _ _ _ _ Hs' Hh Hw) as Hc'.
  split.
  - exists (PilImage RGB (Array3 (map (map swap_red_blue) img))).
    unfold cv2_to_pil, pil_to_cv2, cv2_cvtColor_RGB2BGR, cv2_cvtColor_BGR2RGB.
    simpl. rewrite Hc. simpl. rewrite Hc'. simpl.
    by rewrite (swap_swap_image _ _ _ Hs).
  - exists (map (map swap_red_blue) img).
    unfold cv2_to_pil, pil_to_cv2, cv2_cvtColor_RGB2BGR, cv2_cvtColor_BGR2RGB.
    simpl. rewrite Hc. simpl. rewrite Hc'. simpl.
    rewrite (swap_swap_image _ _ _ Hs). by rewrite Hc.
Qed.

Lemma cv2_pil_round_trip_witness :
  let img := solid 2 3 [10; 20; 30] in
  has_shape 2 3 3 img ∧
  ∃ p, cv2_to_pil (Array3 img) = Some p ∧ im_mode p = RGB ∧
       pil_to_cv2 p = Some (Array3 img).
Proof.
  intros img.
  assert (has_shape 2 3 3 img) as Hs.
  { split; [reflexivity|]. repeat constructor. }
  split; [exact Hs|].
  apply (cv2_pil_round_trip 2 3 img Hs); lia.
Defined.

Lemma pixel_at_map (f : pixel → pixel) img x y :
  pixel_at (map (map f) img) x y = f <$> pixel_at img x y.
Proof.
  unfold pixel_at. change (map (map f) img) with (map f <$> img).
  rewrite list_lookup_fmap. destruct (img !! y) as [r|]; simpl; [|done].
  change (map f r) with (f <$> r). by rewrite list_lookup_fmap.
Qed.

(** X15. [cv2_to_pil] returns an RGB image whose pixels are those of the
    array with the first and third channel exchanged; of an array of four
    channels the fourth is dropped.  It fails on an array of two
    dimensions and on one of another number of channels. *)
Theorem cv2_to_pil_reverses_channels (h w c : nat) img :
  has_shape h w c img → (1 ≤ h)%nat → (1 ≤ w)%nat →
  (c = 3%nat ∨ c = 4%nat →
   ∃ out,
     cv2_to_pil (Array3 img) = Some (PilImage RGB (Array3 out)) ∧
     has_shape h w 3 out ∧
     ∀ x y px, pixel_at img x y = Some px →
       ∃ b g r rest, px = b :: g :: r :: rest ∧
                     pixel_at out x y = Some [r; g; b]) ∧
  (c ≠ 3%nat → c ≠ 4%nat → cv2_to_pil (Array3 img) = None) ∧
  (∀ gray, cv2_to_pil (Array2 gray) = None).
Proof.
  intros Hs Hh Hw.
  pose proof (has_shape_channels _ _ _ _ Hs Hh Hw) as Hc.
  split; [|split].
  - intros H34.
    assert (has_shape h w 3 (map (map swap_red_blue) img)) as Hs'.
    { apply (has_shape_map _ _ c); [|done]. intros px Hpx.
      destruct H34 as [->| ->].
      - by apply length_three in Hpx as (b & g & r & ->).
      - by apply length_four in Hpx as (b & g & r & a & ->). }
    pose proof (has_shape_channels _ _ _ _ Hs' Hh Hw) as Hc'.
    exists (map (map swap_red_blue) img). split; [|split; [done|]].
    + unfold cv2_to_pil, cv2_cvtColor_BGR2RGB. simpl.
      rewrite bool_decide_eq_true_2 by lia. simpl. by rewrite Hc'.
    + intros x y px Hpx. rewrite pixel_at_map, Hpx. simpl.
      assert (length px = c) as Hlen.
      { destruct Hs as [_ Hr]. unfold pixel_at in Hpx.
        destruct (img !! y) as [r|] eqn:Hy; simpl in Hpx; [|done].
        rewrite Forall_forall in Hr.
        destruct (Hr r) as [_ Hp]; [by eapply list_elem_of_lookup_2|].
        rewrite Forall_forall in Hp. apply Hp.
        by eapply list_elem_of_lookup_2. }
      destruct H34 as [->| ->].
      * apply length_three in Hlen as (b & g & r & ->). by exists b, g, r, [].
      * apply length_four in Hlen as (b & g & r & a & ->). by exists b, g, r, [a].
  - intros H3 H4. unfold cv2_to_pil, cv2_cvtColor_BGR2RGB. simpl.
    by rewrite bool_decide_eq_false_2 by lia.
  - done.
Qed.

Lemma cv2_to_pil_reverses_channels_witness :
  let img := solid 2 3 [10; 20; 30; 255] in
  has_shape 2 3 4 img ∧
  ∃ out,
    cv2_to_pil (Array3 img) = Some (PilImage RGB (Array3 out)) ∧
    has_shape 2 3 3 out ∧
    ∀ x y px, pixel_at img x y = Some px →
      ∃ b g r rest, px = b :: g :: r :: rest ∧
                    pixel_at out x y = Some [r; g; b].
Proof.
  intros img.
  assert (has_shape 2 3 4 img) as Hs.
  { split; [reflexivity|]. repeat constructor. }
  split; [exact Hs|].
  apply (cv2_to_pil_reverses_channels 2 3 4 img Hs); [lia|lia|by right].
Defined.

(** X16. [pil_to_cv2] exchanges the first and third channel of an image
    of three channels and returns every other array as [np.array] gives
    it, a two-dimensional one and one of four channels included.  So an
    array of four channels does not survive [cv2_to_pil] and
    [pil_to_cv2]: what comes back has its first three channels, in their
    order, and no fourth. *)
Theorem pil_to_cv2_converts_three_channels_only (h w c : nat) img mode :
  has_shape h w c img → (1 ≤ h)%nat → (1 ≤ w)%nat →
  (c = 3%nat →
   ∃ out,
     pil_to_cv2 (PilImage mode (Array3 img)) = Some (Array3 out) ∧
     has_shape h w 3 out ∧
     ∀ x y r g b, pixel_at img x y = Some [r; g; b] →
                  pixel_at out x y = Some [b; g; r]) ∧
  (c ≠ 3%nat → pil_to_cv2 (PilImage mode (Array3 img)) = Some (Array3 img)) ∧
  (∀ gray, pil_to_cv2 (PilImage mode (Array2 gray)) = Some (Array2 gray)) ∧
  (c = 4%nat →
   ∃ p back,
     cv2_to_pil (Array3 img) = Some p ∧ pil_to_cv2 p = Some (Array3 back) ∧
     has_shape h w 3 back ∧
     ∀ x y b g r a, pixel_at img x y = Some [b; g; r; a] →
                    pixel_at back x y = Some [b; g; r]).
Proof.
  intros Hs Hh Hw.
  pose proof (has_shape_channels _ _ _ _ Hs Hh Hw) as Hc.
  split; [|split; [|split]].
  - intros ->.
    assert (has_shape h w 3 (map (map swap_red_blue) img)) as Hs'.
    { apply (has_shape_map _ _ 3); [|done]. intros px Hpx.
      by apply length_three in Hpx as (b & g & r & ->). }
    exists (map (map swap_red_blue) img). split; [|split; [done|]].
    + unfold pil_to_cv2, cv2_cvtColor_RGB2BGR, cv2_cvtColor_BGR2RGB. simpl.
      rewrite Hc. by simpl.
    + intros x y r g b Hpx. by rewrite pixel_at_map, Hpx.
  - intros H3. unfold pil_to_cv2. simpl.
    by rewrite bool_decide_eq_false_2 by lia.
  - done.
  - intros ->.
    set (rgb := map (map swap_red_blue) img).
    assert (has_shape h w 3 rgb) as Hs1.
    { apply (has_shape_map _ _ 4); [|done]. intros px Hpx.
      by apply length_four in Hpx as (b & g & r & a & ->). }
    assert (has_shape h w 3 (map (map swap_red_blue) rgb)) as Hs2.
    { apply (has_shape_map _ _ 3); [|done]. intros px Hpx.
      by apply length_three in Hpx as (b & g & r & ->). }
    pose proof (has_shape_channels _ _ _ _ Hs1 Hh Hw) as Hc1.
    exists (PilImage RGB (Array3 rgb)), (map (map swap_red_blue) rgb).
    split; [|split; [|split; [done|]]].
    + unfold cv2_to_pil, cv2_cvtColor_BGR2RGB. simpl.
      rewrite Hc. simpl. fold rgb. by rewrite Hc1.
    + unfold pil_to_cv2, cv2_cvtColor_RGB2BGR, cv2_cvtColor_BGR2RGB. simpl.
      rewrite Hc1. by simpl.
    + intros x y b g r a Hpx. unfold rgb. by rewrite !pixel_at_map, Hpx.
Qed.

Lemma pil_to_cv2_converts_three_channels_only_witness :
  let img := solid 2 3 [10; 20; 30; 255] in
  has_shape 2 3 4 img ∧
  pil_to_cv2 (PilImage RGBA (Array3 img)) = Some (Array3 img) ∧
  ∃ p back,
    cv2_to_pil (Array3 img) = Some p ∧ pil_to_cv2 p = Some (Array3 back) ∧
    has_shape 2 3 3 back ∧
    ∀ x y b g r a, pixel_at img x y = Some [b; g; r; a] →
                   pixel_at back x y = Some [b; g; r].
Proof.
  intros img.
  assert (has_shape 2 3 4 img) as Hs.
  { split; [reflexivity|]. repeat constructor. }
  split; [exact Hs|].
  destruct (pil_to_cv2_converts_three_channels_only 2 3 4 img RGBA Hs)
    as (_ & Hother & _ & Hfour); [lia|lia|].
  split; [apply Hother; lia|by apply Hfour].
Defined.

(** ** The Streamlit app: its drawing functions and its position buttons *)

(** X17. The drawing functions [streamlit_app.py] defines for itself
    compute what those of [image_grid.py] compute: [draw_offset_grid] is
    [draw_grid] with the offsets passed before the colour, and
    [draw_rule_of_thirds], [draw_center_lines], [draw_golden_ratio_grid],
    [draw_guide_lines] and [cv2_to_pil] are the functions of the same
    name. *)
Theorem app_drawing_functions_agree_with_library `{Cv2, LibM} :
  (∀ image gx gy ox oy c t alpha dashed dl dg,
     streamlit_app.draw_offset_grid image gx gy ox oy c t alpha dashed dl dg =
     draw_grid image gx gy c t alpha dashed dl dg ox oy) ∧
  (∀ image c t alpha,
     streamlit_app.draw_rule_of_thirds image c t alpha =
     draw_rule_of_thirds image c t alpha) ∧
  (∀ image c t alpha,
     streamlit_app.draw_center_lines image c t alpha =
     draw_center_lines image c t alpha) ∧
  (∀ image d c t alpha ox oy,
     streamlit_app.draw_golden_ratio_grid image d c t alpha ox oy =
     draw_golden_ratio_grid image d c t alpha ox oy) ∧
  (∀ image hp vp c t,
     streamlit_app.draw_guide_lines image hp vp c t =
     draw_guide_lines image hp vp c t) ∧
  (∀ cv2_img, streamlit_app.cv2_to_pil cv2_img = cv2_to_pil cv2_img).
Proof. repeat split. Qed.

Lemma map_map_id_pixels (f : pixel → pixel) img :
  (∀ x y px, pixel_at img x y = Some px → f px = px) →
  map (map f) img = img.
Proof.
  intros Hf. apply list_eq. intros y.
  change (map (map f) img) with (map f <$> img). rewrite list_lookup_fmap.
  destruct (img !! y) as [r|] eqn:Hy; simpl; [|done]. f_equal.
  apply list_eq. intros x.
  change (map f r) with (f <$> r). rewrite list_lookup_fmap.
  destruct (r !! x) as [px|] eqn:Hx; simpl; [|done]. f_equal.
  apply (Hf x y). unfold pixel_at. by rewrite Hy.
Qed.

Lemma pixel_at_length h w c img x y px :
  has_shape h w c img → pixel_at img x y = Some px → length px = c.
Proof.
  intros [_ Hr] Hpx. unfold pixel_at in Hpx.
  destruct (img !! y) as [r|] eqn:Hy; simpl in Hpx; [|done].
  rewrite Forall_forall in Hr.
  destruct (Hr r) as [_ Hp]; [by eapply list_elem_of_lookup_2|].
  rewrite Forall_forall in Hp. apply Hp. by eapply list_elem_of_lookup_2.
Qed.

(** X18. The [pil_to_cv2] of [streamlit_app.py] is not the inverse of
    [cv2_to_pil], unlike the one of [image_grid.py]: on an image of three
    channels it returns the array with the first and third channel
    exchanged, which is the image again only if in every pixel these two
    channels are equal. *)
Theorem app_pil_to_cv2_keeps_rgb_order (h w : nat) img :
  has_shape h w 3 img → (1 ≤ h)%nat → (1 ≤ w)%nat →
  ∃ p out,
    streamlit_app.cv2_to_pil (Array3 img) = Some p ∧
    streamlit_app.pil_to_cv2 p = Some (Array3 out) ∧
    pil_to_cv2 p = Some (Array3 img) ∧
    (∀ x y b g r, pixel_at img x y = Some [b; g; r] →
                  pixel_at out x y = Some [r; g; b]) ∧
    (out = img ↔
     ∀ x y b g r, pixel_at img x y = Some [b; g; r] → b = r).
Proof.
  intros Hs Hh Hw.
  pose proof (has_shape_channels _ _ _ _ Hs Hh Hw) as Hc.
  set (rgb := map (map swap_red_blue) img).
  assert (has_shape h w 3 rgb) as Hs'.
  { apply (has_shape_map _ _ 3); [|done]. intros px Hpx.
    by apply length_three in Hpx as (b & g & r & ->). }
  pose proof (has_shape_channels _ _ _ _ Hs' Hh Hw) as Hc'.
  exists (PilImage RGB (Array3 rgb)), rgb.
  split; [|split; [done|split; [|split]]].
  - unfold streamlit_app.cv2_to_pil, cv2_cvtColor_BGR2RGB. simpl.
    rewrite Hc. simpl. fold rgb. by rewrite Hc'.
  - unfold pil_to_cv2, cv2_cvtColor_RGB2BGR, cv2_cvtColor_BGR2RGB. simpl.
    rewrite Hc'. simpl. unfold rgb. by rewrite (swap_swap_image _ _ _ Hs).
  - intros x y b g r Hpx. unfold rgb. by rewrite pixel_at_map, Hpx.
  - split.
    + intros Heq x y b g r Hpx.
      assert (pixel_at rgb x y = Some [r; g; b]) as Hout.
      { unfold rgb. by rewrite pixel_at_map, Hpx. }
      rewrite Heq, Hpx in Hout. by injection Hout as -> _.
    + intros Hbr. unfold rgb. apply map_map_id_pixels. intros x y px Hpx.
      pose proof (pixel_at_length _ _ _ _ _ _ _ Hs Hpx) as Hlen.
      apply length_three in Hlen as (b & g & r & ->). simpl.
      by rewrite (Hbr _ _ _ _ _ Hpx).
Qed.

Lemma app_pil_to_cv2_keeps_rgb_order_witness :
  let img := solid 2 3 [10; 20; 30] in
  has_shape 2 3 3 img ∧
  ∃ p out,
    streamlit_app.cv2_to_pil (Array3 img) = Some p ∧
    streamlit_app.pil_to_cv2 p = Some (Array3 out) ∧
    pil_to_cv2 p = Some (Array3 img) ∧
    (∀ x y b g r, pixel_at img x y = Some [b; g; r] →
                  pixel_at out x y = Some [r; g; b]) ∧
    (out = img ↔
     ∀ x y b g r, pixel_at img x y = Some [b; g; r] → b = r).
Proof.
  intros img.
  assert (has_shape 2 3 3 img) as Hs.
  { split; [reflexivity|]. repeat constructor. }
  split; [exact Hs|].
  apply (app_pil_to_cv2_keeps_rgb_order 2 3 img Hs); lia.
Defined.

Lemma getattr_run (s : streamlit_app.session_state) name v :
  s !! name = Some v → streamlit_app.getattr name s = Some (v, s).
Proof. intros E. unfold streamlit_app.getattr. by rewrite E. Qed.

Lemma move_run (s : streamlit_app.session_state) name (f : Z → Z) v :
  s !! name = Some v →
  streamlit_app.St_bind (streamlit_app.getattr name)
    (λ x, streamlit_app.setattr name (f x)) s =
  Some ((), <[name := f v]> s).
Proof.
  intros E. unfold streamlit_app.St_bind. by rewrite (getattr_run _ _ _ E).
Qed.

(** X19. The callbacks of the position buttons ([move_left],
    [move_right], [move_up], [move_down], [reset_position]) keep both
    offsets within the range of their sliders: with [offset_x] and
    [offset_y] set to values from 0 to 100, each callback succeeds, leaves
    both within 0 and 100, and changes no other attribute. *)
Theorem position_buttons_keep_offsets_in_range
    (s : streamlit_app.session_state) x y (button : streamlit_app.St ()) :
  s !! "offset_x" = Some x → s !! "offset_y" = Some y →
  0 ≤ x ≤ 100 → 0 ≤ y ≤ 100 →
  button ∈ [streamlit_app.move_left; streamlit_app.move_right;
            streamlit_app.move_up; streamlit_app.move_down;
            streamlit_app.reset_position] →
  ∃ s' x' y',
    button s = Some ((), s') ∧
    s' !! "offset_x" = Some x' ∧ s' !! "offset_y" = Some y' ∧
    0 ≤ x' ≤ 100 ∧ 0 ≤ y' ≤ 100 ∧
    ∀ name, name ≠ "offset_x" → name ≠ "offset_y" → s' !! name = s !! name.
Proof.
  intros Ex Ey Hx Hy Hb.
  rewrite !elem_of_cons, elem_of_nil in Hb.
  destruct Hb as [->|[->|[->|[->|[->|[]]]]]].
  - exists (<["offset_x" := Z.max 0 (x - 5)]> s), (Z.max 0 (x - 5)), y.
    split; [exact (move_run _ _ (λ v, Z.max 0 (v - 5)) _ Ex)|].
    split; [by rewrite lookup_insert_eq|].
    split; [by rewrite lookup_insert_ne|].
    split; [lia|]. split; [done|]. intros name H1 H2. by rewrite lookup_insert_ne.
  - exists (<["offset_x" := Z.min 100 (x + 5)]> s), (Z.min 100 (x + 5)), y.
    split; [exact (move_run _ _ (λ v, Z.min 100 (v + 5)) _ Ex)|].
    split; [by rewrite lookup_insert_eq|].
    split; [by rewrite lookup_insert_ne|].
    split; [lia|]. split; [done|]. intros name H1 H2. by rewrite lookup_insert_ne.
  - exists (<["offset_y" := Z.max 0 (y - 5)]> s), x, (Z.max 0 (y - 5)).
    split; [exact (move_run _ _ (λ v, Z.max 0 (v - 5)) _ Ey)|].
    split; [by rewrite lookup_insert_ne|].
    split; [by rewrite lookup_insert_eq|].
    split; [done|]. split; [lia|]. intros name H1 H2. by rewrite lookup_insert_ne.
  - exists (<["offset_y" := Z.min 100 (y + 5)]> s), x, (Z.min 100 (y + 5)).
    split; [exact (move_run _ _ (λ v, Z.min 100 (v + 5)) _ Ey)|].
    split; [by rewrite lookup_insert_ne|].
    split; [by rewrite lookup_insert_eq|].
    split; [done|]. split; [lia|]. intros name H1 H2. by rewrite lookup_insert_ne.
  - exists (<["offset_y" := 0]> (<["offset_x" := 0]> s)), 0, 0.
    split; [done|].
    split; [by rewrite lookup_insert_ne, lookup_insert_eq|].
    split; [by rewrite lookup_insert_eq|].
    split; [lia|]. split; [lia|]. intros name H1 H2.
    by rewrite !lookup_insert_ne.
Qed.

Lemma position_buttons_keep_offsets_in_range_witness :
  let s : gmap string Z := <["offset_x" := 3]> (<["offset_y" := 100]> ∅) in
  (s !! "offset_x" = Some 3 ∧ s !! "offset_y" = Some 100) ∧
  ∃ s' x' y',
    streamlit_app.move_left s = Some ((), s') ∧
    s' !! "offset_x" = Some x' ∧ s' !! "offset_y" = Some y' ∧
    0 ≤ x' ≤ 100 ∧ 0 ≤ y' ≤ 100 ∧
    ∀ name, name ≠ "offset_x" → name ≠ "offset_y" → s' !! name = s !! name.
Proof.
  intros s. split; [split; reflexivity|].
  apply (position_buttons_keep_offsets_in_range s 3 100 streamlit_app.move_left);
    [reflexivity|reflexivity|lia|lia|apply list_elem_of_here].
Defined.

Lemma St_bind_run {A B} (m : streamlit_app.St A) (f : A → streamlit_app.St B)
    s a s' :
  m s = Some (a, s') → streamlit_app.St_bind m f s = f a s'.
Proof. intros E. unfold streamlit_app.St_bind. by rewrite E. Qed.

Lemma move_twice (s : gmap string Z) name (f g : Z → Z) v :
  s !! name = Some v →
  streamlit_app.St_bind
    (streamlit_app.St_bind (streamlit_app.getattr name)
       (λ x, streamlit_app.setattr name (f x)))
    (λ _, streamlit_app.St_bind (streamlit_app.getattr name)
            (λ x, streamlit_app.setattr name (g x))) s =
  Some ((), <[name := g (f v)]> s).
Proof.
  intros E. rewrite (St_bind_run _ _ _ _ _ (move_run _ _ f _ E)).
  rewrite (move_run _ _ g (f v)) by apply lookup_insert_eq.
  by rewrite insert_insert_eq.
Qed.

(** X20. Opposite position buttons cancel each other away from the
    borders: [move_left] then [move_right] leaves the session state as it
    was when [offset_x] is 5 or more, and [move_right] then [move_left]
    when it is 95 or less (likewise [move_up] and [move_down]).  At a
    border they do not: from an [offset_x] below 5, left then right ends
    at 5, and from one above 95, right then left ends at 95. *)
Theorem opposite_buttons_cancel_inside_the_range (s : gmap string Z) x y :
  s !! "offset_x" = Some x → s !! "offset_y" = Some y →
  let press a b := streamlit_app.St_bind a (λ _, b) in
  (5 ≤ x ≤ 100 →
   press streamlit_app.move_left streamlit_app.move_right s = Some ((), s)) ∧
  (0 ≤ x ≤ 95 →
   press streamlit_app.move_right streamlit_app.move_left s = Some ((), s)) ∧
  (5 ≤ y ≤ 100 →
   press streamlit_app.move_up streamlit_app.move_down s = Some ((), s)) ∧
  (0 ≤ y ≤ 95 →
   press streamlit_app.move_down streamlit_app.move_up s = Some ((), s)) ∧
  (x < 5 →
   press streamlit_app.move_left streamlit_app.move_right s =
     Some ((), <["offset_x" := 5]> s)) ∧
  (95 < x →
   press streamlit_app.move_right streamlit_app.move_left s =
     Some ((), <["offset_x" := 95]> s)) ∧
  (y < 5 →
   press streamlit_app.move_up streamlit_app.move_down s =
     Some ((), <["offset_y" := 5]> s)) ∧
  (95 < y →
   press streamlit_app.move_down streamlit_app.move_up s =
     Some ((), <["offset_y" := 95]> s)).
Proof.
  intros Ex Ey press.
  assert (∀ name v v', s !! name = Some v → v' = v → <[name := v']> s = s)
    as Hid.
  { intros name v v' E ->. by apply insert_id. }
  unfold press, streamlit_app.move_left, streamlit_app.move_right,
    streamlit_app.move_up, streamlit_app.move_down.
  repeat split; intros Hr.
  - rewrite (move_twice _ _ (λ v, Z.max 0 (v - 5)) (λ v, Z.min 100 (v + 5)) _ Ex).
    f_equal. f_equal. apply (Hid _ _ _ Ex). lia.
  - rewrite (move_twice _ _ (λ v, Z.min 100 (v + 5)) (λ v, Z.max 0 (v - 5)) _ Ex).
    f_equal. f_equal. apply (Hid _ _ _ Ex). lia.
  - rewrite (move_twice _ _ (λ v, Z.max 0 (v - 5)) (λ v, Z.min 100 (v + 5)) _ Ey).
    f_equal. f_equal. apply (Hid _ _ _ Ey). lia.
  - rewrite (move_twice _ _ (λ v, Z.min 100 (v + 5)) (λ v, Z.max 0 (v - 5)) _ Ey).
    f_equal. f_equal. apply (Hid _ _ _ Ey). lia.
  - rewrite (move_twice _ _ (λ v, Z.max 0 (v - 5)) (λ v, Z.min 100 (v + 5)) _ Ex).
    do 3 f_equal. lia.
  - rewrite (move_twice _ _ (λ v, Z.min 100 (v + 5)) (λ v, Z.max 0 (v - 5)) _ Ex).
    do 3 f_equal. lia.
  - rewrite (move_twice _ _ (λ v, Z.max 0 (v - 5)) (λ v, Z.min 100 (v + 5)) _ Ey).
    do 3 f_equal. lia.
  - rewrite (move_twice _ _ (λ v, Z.min 100 (v + 5)) (λ v, Z.max 0 (v - 5)) _ Ey).
    do 3 f_equal. lia.
Qed.

Lemma opposite_buttons_cancel_inside_the_range_witness :
  let s : gmap string Z := <["offset_x" := 40]> (<["offset_y" := 2]> ∅) in
  (s !! "offset_x" = Some 40 ∧ s !! "offset_y" = Some 2) ∧
  streamlit_app.St_bind streamlit_app.move_left (λ _, streamlit_app.move_right) s =
    Some ((), s) ∧
  streamlit_app.St_bind streamlit_app.move_up (λ _, streamlit_app.move_down) s =
    Some ((), <["offset_y" := 5]> s).
Proof.
  intros s. split; [split; reflexivity|].
  destruct (opposite_buttons_cancel_inside_the_range s 40 2 eq_refl eq_refl)
    as (Hlr & _ & _ & _ & _ & _ & Hud & _).
  split; [apply Hlr; lia|apply Hud; lia].
Defined.

(** X21. The offsets are created where they are missing and kept where
    they are set: after the initialisation of the session state
    [offset_x] and [offset_y] hold their earlier value, or 0 if they had
    none, and no other attribute has changed.  Without it the move
    callbacks fail on the missing attribute; [reset_position] never
    fails. *)
Theorem offsets_are_set_before_the_buttons_read_them (s : gmap string Z) :
  (∃ s',
     streamlit_app.init_position s = Some ((), s') ∧
     s' !! "offset_x" = Some (default 0 (s !! "offset_x")) ∧
     s' !! "offset_y" = Some (default 0 (s !! "offset_y")) ∧
     ∀ name, name ≠ "offset_x" → name ≠ "offset_y" → s' !! name = s !! name) ∧
  (s !! "offset_x" = None →
   streamlit_app.move_left s = None ∧ streamlit_app.move_right s = None) ∧
  (s !! "offset_y" = None →
   streamlit_app.move_up s = None ∧ streamlit_app.move_down s = None) ∧
  is_Some (streamlit_app.reset_position s).
Proof.
  split; [|split; [|split]].
  - unfold streamlit_app.init_position. eexists. split; [done|].
    destruct (s !! "offset_x") as [x|] eqn:Ex;
      destruct (s !! "offset_y") as [y|] eqn:Ey; simpl;
      repeat case_bool_decide;
      repeat match goal with
      | H : is_Some None |- _ => by destruct H
      | H : ¬ is_Some (Some _) |- _ => by destruct H
      | H : ¬ is_Some (<[_ := _]> _ !! _) |- _ =>
          rewrite lookup_insert_ne in H by done
      | H : ¬ is_Some (s !! _) |- _ => rewrite ?Ex, ?Ey in H
      | H : is_Some (<[_ := _]> _ !! _) |- _ =>
          rewrite lookup_insert_ne in H by done
      | H : is_Some (s !! _) |- _ => rewrite ?Ex, ?Ey in H
      end.
    all: repeat (rewrite lookup_insert_eq || rewrite lookup_insert_ne by done).
    all: rewrite ?Ex, ?Ey.
    all: split; [done|]; split; [done|]; intros name H1 H2.
    all: by rewrite ?lookup_insert_ne by done.
  - intros E. unfold streamlit_app.move_left, streamlit_app.move_right,
      streamlit_app.St_bind, streamlit_app.getattr. by rewrite E.
  - intros E. unfold streamlit_app.move_up, streamlit_app.move_down,
      streamlit_app.St_bind, streamlit_app.getattr. by rewrite E.
  - by eexists.
Qed.
End colour_and_app.
